(** * parallel_odcm: chunking, scheduling and aggregation of OD Cost Matrix solves

    A shallow embedding of the orchestration layer of
    [transit-network-analysis-tools/parallel_odcm.py]: the ObjectID range
    partitioner, the tail of [ODCostMatrix.solve], the scheduler loop of
    [ParallelODCalculator.solve_od_in_parallel] and the two aggregators.

    Python integers are [Z]; floating-point columns (weights, travel times,
    percentages) are idealised as exact rationals [Q], so statements about
    them hold up to [Qeq]; strings are [string]; the routing engine, the
    geodatabase cursors and the file system are explicit inputs. *)

From Stdlib Require Import String Ascii DecimalString DecimalPos DecimalZ.
From Stdlib Require Import ZArith QArith Qminmax Bool Lia Permutation Sorted
  OrderedTypeEx List.
Import ListNotations.

Local Open Scope Z_scope.

(* ------------------------------------------------------------------------- *)
(** ** ObjectID range partitioner *)

Module Partition.

(** A Python two-element list [[low, high]]. *)
Definition OidRange : Type := (Z * Z)%type.

Definition range_eqb (a b : OidRange) : bool :=
  (fst a =? fst b) && (snd a =? snd b).

(** [arcpy.da.SearchCursor(input_fc, "OID@", where)]: the ObjectIDs of the rows
    of [input_fc] that satisfy the where clause, in table order. *)
Definition SearchCursor (input_fc : list Z) (where_clause : Z -> bool) : list Z :=
  filter where_clause input_fc.

(** The local variables of [_get_oid_ranges_for_input]. *)
Record LoopState : Type := mkLoop {
  ranges : list OidRange;
  num_in_range : Z;
  current_range : OidRange
}.

Definition loop_init : LoopState := mkLoop [] 0 (0, 0).

(** One iteration of the [for row in ...] loop. *)
Definition loop_body (max_chunk_size : Z) (st : LoopState) (oid : Z) : LoopState :=
  let cur0 :=
    if num_in_range st =? 0 then (oid, snd (current_range st))
    else current_range st in
  let n := num_in_range st + 1 in
  let cur := (fst cur0, oid) in
  if n =? max_chunk_size
  then mkLoop (ranges st ++ [cur]) 0 (0, 0)
  else mkLoop (ranges st) n cur.

(** The statement after the loop: the open range is appended unless it is
    equal to [[0, 0]]. *)
Definition close_out (st : LoopState) : list OidRange :=
  if negb (range_eqb (current_range st) (0, 0))
  then ranges st ++ [current_range st]
  else ranges st.

Definition ranges_of_oids (oids : list Z) (max_chunk_size : Z) : list OidRange :=
  close_out (fold_left (loop_body max_chunk_size) oids loop_init).

Definition _get_oid_ranges_for_input
    (input_fc : list Z) (max_chunk_size : Z) (where_clause : Z -> bool) : list OidRange :=
  ranges_of_oids (SearchCursor input_fc where_clause) max_chunk_size.

(** *** Vocabulary of the statements *)

Definition in_range (r : OidRange) (x : Z) : bool :=
  (fst r <=? x) && (x <=? snd r).

(** The surviving identifiers selected by a range, as the where clause
    [OID >= low AND OID <= high] of [_select_inputs] selects them. *)
Definition select (oids : list Z) (r : OidRange) : list Z :=
  filter (in_range r) oids.

Definition ascending (oids : list Z) : Prop := StronglySorted Z.lt oids.

Definition before (r1 r2 : OidRange) : Prop := snd r1 < fst r2.

(** A list of ranges is an admissible chunking of [oids] for a chunk size. *)
Definition admissible (oids : list Z) (max_chunk_size : Z) (rs : list OidRange) : Prop :=
  Forall (fun r => Z.of_nat (length (select oids r)) <= max_chunk_size) rs /\
  (forall x, In x oids -> exists r, In r rs /\ in_range r x = true).

(** The number of surviving identifiers counted range by range. *)
Definition counted (oids : list Z) (rs : list OidRange) : nat :=
  list_sum (map (fun r => length (select oids r)) rs).

(** *** The chunks behind the ranges *)

Fixpoint chunks_fuel (fuel m : nat) (oids : list Z) : list (list Z) :=
  match fuel, oids with
  | O, _ => []
  | _, [] => []
  | S fuel', _ => firstn m oids :: chunks_fuel fuel' m (skipn m oids)
  end.

Definition chunks (m : nat) (oids : list Z) : list (list Z) :=
  chunks_fuel (length oids) m oids.

Definition bounds (c : list Z) : OidRange := (hd 0 c, last c 0).

End Partition.

(* ------------------------------------------------------------------------- *)
(** ** The Python and pandas operations the module relies on *)

Module Py.

(** [str(n)] for an integer, as an f-string renders it. *)
Definition str_of_int (z : Z) : string := NilZero.string_of_int (Z.to_int z).

Definition startswith (s pre : string) : bool := String.prefix pre s.

(** [sep.join(parts)]. *)
Definition join (sep : string) (parts : list string) : string := String.concat sep parts.

Fixpoint insert_sorted {A} (leb : A -> A -> bool) (x : A) (l : list A) : list A :=
  match l with
  | [] => [x]
  | y :: l' => if leb x y then x :: l else y :: insert_sorted leb x l'
  end.

(** [sorted(l)] for a total order [leb]. *)
Definition sorted {A} (leb : A -> A -> bool) (l : list A) : list A :=
  fold_right (insert_sorted leb) [] l.

(** [range(10, 100, 10)]. *)
Definition range_10_100_10 : list Z := [10; 20; 30; 40; 50; 60; 70; 80; 90].

End Py.

Module Frame.

(** [pd.unique]: the distinct values in order of first appearance. *)
Fixpoint unique {K} (keqb : K -> K -> bool) (ks : list K) : list K :=
  match ks with
  | [] => []
  | k :: ks' => k :: filter (fun k' => negb (keqb k k')) (unique keqb ks')
  end.

(** [df.groupby(key)]: one group per distinct key, keys ascending, each group
    holding the values of its rows in row order. *)
Definition groupby {K V} (keqb kleb : K -> K -> bool) (rows : list (K * V))
  : list (K * list V) :=
  map (fun k => (k, map snd (filter (fun r => keqb (fst r) k) rows)))
      (Py.sorted kleb (unique keqb (map fst rows))).

(** Label lookup in an indexed series. *)
Fixpoint assoc {K V} (keqb : K -> K -> bool) (k : K) (l : list (K * V)) : option V :=
  match l with
  | [] => None
  | (k', v) :: l' => if keqb k k' then Some v else assoc keqb k l'
  end.

Definition pair_eqb (a b : Z * Z) : bool := (fst a =? fst b) && (snd a =? snd b).

(** Lexicographic order of a two-level index. *)
Definition pair_leb (a b : Z * Z) : bool :=
  (fst a <? fst b) || ((fst a =? fst b) && (snd a <=? snd b)).

Definition Zsum (l : list Z) : Z := fold_right Z.add 0 l.

Definition Qsum (l : list Q) : Q := fold_right Qplus 0%Q l.

(** A float cell: [None] is NaN. *)
Definition cell : Type := option Q.

(** [Series.sum()] skips NaN. *)
Definition nansum (l : list cell) : Q :=
  Qsum (map (fun c => match c with Some q => q | None => 0%Q end) l).

Definition fillna (c : cell) : Q := match c with Some q => q | None => 0%Q end.

End Frame.

(* ------------------------------------------------------------------------- *)
(** ** Accessibility aggregation *)

Module Accessibility.
Import Frame.

(** A line of an ODLines file of the accessibility tool:
    [(OriginOID, DestinationOID)]. *)
Abbreviation ODPair := (Z * Z)%type (only parsing).

(** A row of the destinations table: its ObjectID and the value of the weight
    field ([None] is NULL). *)
Record Destination : Type := mkDest { dest_oid : Z; dest_weight : option Q }.

(** What the aggregator reads from [self] and from the disk. *)
Record Inputs : Type := mkInputs {
  od_line_files : list string;
  read_csv : string -> list ODPair;
  weight_field : option string;
  destinations : list Destination;
  start_times : list Z;
  origins : list Z
}.

(** A row of [result_df] once the weights are joined in. *)
Record WRow : Type := mkWRow { OriginOID : Z; TimesReached : Z; Weight : cell }.

Definition truthy (s : option string) : bool :=
  match s with Some t => negb (t =? EmptyString)%string | None => false end.

(** [df["TimesReached"] = 1; df.set_index(["OriginOID", "DestinationOID"])]. *)
Definition read_od_file (i : Inputs) (od_file : string) : list (ODPair * Z) :=
  map (fun p => (p, 1)) (read_csv i od_file).

(** [.groupby(["OriginOID", "DestinationOID"]).sum()]. *)
Definition groupby_sum (rows : list (ODPair * Z)) : list (ODPair * Z) :=
  map (fun g => (fst g, Zsum (snd g))) (groupby pair_eqb pair_leb rows).

(** The body of [for od_file in self.od_line_files]. *)
Definition accumulate (i : Inputs) (result_df : option (list (ODPair * Z))) (od_file : string)
  : option (list (ODPair * Z)) :=
  let df := read_od_file i od_file in
  match result_df with
  | None => Some df
  | Some r => Some (groupby_sum (r ++ df))
  end.

Definition combined_results (i : Inputs) : option (list (ODPair * Z)) :=
  fold_left (accumulate i) (od_line_files i) None.

Definition dest_eqb (d : Z) (row : Destination) : bool := d =? dest_oid row.

(** [result_df.join(w_df, "DestinationOID")]: the weight of the destination,
    NaN when the table has no such row or its weight is NULL. *)
Definition joined_weight (i : Inputs) (d : Z) : cell :=
  match find (dest_eqb d) (destinations i) with
  | Some row => dest_weight row
  | None => None
  end.

Definition with_weights (i : Inputs) (result_df : list (ODPair * Z)) : list WRow :=
  if truthy (weight_field i)
  then map (fun r => mkWRow (fst (fst r)) (snd r) (joined_weight i (snd (fst r)))) result_df
  else map (fun r => mkWRow (fst (fst r)) (snd r) (Some 1%Q)) result_df.

Definition total_dests (i : Inputs) : Q :=
  if truthy (weight_field i)
  then nansum (map dest_weight (destinations i))
  else inject_Z (Z.of_nat (length (destinations i))).

(** [result_df[cond].groupby("OriginOID")["Weight"].sum()]. *)
Definition weight_by_origin (rows : list WRow) (cond : WRow -> bool) : list (Z * Q) :=
  map (fun g => (fst g, nansum (snd g)))
      (groupby Z.eqb Z.leb (map (fun r => (OriginOID r, Weight r)) (filter cond rows))).

(** Assigning a series to a column of [output_df] aligns it on the index:
    origins without a group get NaN. *)
Definition aligned (series : list (Z * Q)) (oid : Z) : cell := assoc Z.eqb oid series.

(** [100.0 * column / total_dests], for a total that is not 0: the float
    quotient is taken as the exact rational, so that it stands for what the
    code writes up to rounding. At a total of 0 the float division gives NaN
    for a sum of 0, which [fillna] turns into the 0 this definition has, and
    an infinity for any other sum, which a rational does not have: the
    statements about percentages of sums that can differ from 0 are made for
    a total that is not 0. *)
Definition percentage (total : Q) (c : cell) : cell :=
  option_map (fun v => (100 * v / total)%Q) c.

(** [len(self.start_times) * perc / 100]: the float quotient is taken as the
    exact rational. The quotient of two integers is either an integer, which
    the float represents, or at least 1/100 away from every integer, so that
    comparing [TimesReached] with the float or with the rational gives the
    same answer for all counts a run can produce. *)
Definition threshold (i : Inputs) (perc : Z) : Q :=
  (inject_Z (Z.of_nat (length (start_times i)) * perc) / 100)%Q.

Definition reached_once (r : WRow) : bool := 0 <? TimesReached r.

Definition reached_at_least (thr : Q) (r : WRow) : bool :=
  Qle_bool thr (inject_Z (TimesReached r)).

Definition total_field (perc : Z) : string := "DsAL" ++ Py.str_of_int perc ++ "Perc".
Definition perc_field (perc : Z) : string := "PsAL" ++ Py.str_of_int perc ++ "Perc".

(** The names in [field_defs], in order. *)
Definition field_names : list string :=
  ["TotalDests"; "PercDests"]%string
  ++ flat_map (fun perc => [total_field perc; perc_field perc]) Py.range_10_100_10.

(** The cells of [output_df.loc[oid]] before [fillna]. *)
Definition output_cells (i : Inputs) (rows : list WRow) (oid : Z) : list cell :=
  let total := aligned (weight_by_origin rows reached_once) oid in
  [total; percentage (total_dests i) total]
  ++ flat_map (fun perc =>
       let ds := aligned (weight_by_origin rows (reached_at_least (threshold i perc))) oid in
       [ds; percentage (total_dests i) ds]) Py.range_10_100_10.

(** [output_df.fillna(0)] and [output_df.loc[oid].to_list()]. *)
Definition output_row (i : Inputs) (rows : list WRow) (oid : Z) : list Q :=
  map fillna (output_cells i rows oid).

(** The row the update cursor writes for [oid]: its ObjectID is left as it
    is, the statistic fields are those of [output_df] or, on [KeyError],
    zeros. *)
Definition new_row (i : Inputs) (rows : list WRow) (index : list Z) (oid : Z) : list Q :=
  if existsb (Z.eqb oid) index
  then output_row i rows oid
  else repeat 0%Q (length field_names).

(** [_calculate_accessibility_matrix_outputs]: the statistic fields written
    to each row of the Origins table, [None] when [result_df] is still [None]
    after the loop (the method then raises on [result_df.reset_index]). *)
Definition _calculate_accessibility_matrix_outputs (i : Inputs)
  : option (list (Z * list Q)) :=
  match combined_results i with
  | None => None
  | Some result_df =>
      let rows := with_weights i result_df in
      let index := unique Z.eqb (map OriginOID rows) in
      Some (map (fun oid => (oid, new_row i rows index oid)) (origins i))
  end.

(** The value of a named field in a written row. *)
Definition field (name : string) (values : list Q) : option Q :=
  assoc String.eqb name (List.combine field_names values).

(** *** Vocabulary of the statements *)

Definition contains (i : Inputs) (p : ODPair) (od_file : string) : bool :=
  existsb (fun q => pair_eqb q p) (read_csv i od_file).

(** All the lines of the result files, and how often a pair is among lines. *)
Definition all_lines (i : Inputs) : list ODPair :=
  flat_map (read_csv i) (od_line_files i).

Definition occurrences (p : ODPair) (lines : list ODPair) : Z :=
  Z.of_nat (length (filter (fun q => pair_eqb q p) lines)).

(** What the loop over the result files maintains: [result_df] is indexed by
    the pairs read so far, and, once the index is unique, counts them. *)
Definition keys_ok (result_df : list (ODPair * Z)) (lines : list ODPair) : Prop :=
  forall p, In p (map fst result_df) <-> In p lines.

Definition counts_ok (result_df : list (ODPair * Z)) (lines : list ODPair) : Prop :=
  NoDup (map fst result_df) /\
  forall p t, In (p, t) result_df -> t = occurrences p lines.

(** The number of departure instants at which a pair appears in some result
    file, [instant_of] giving the instant a file was solved for. *)
Definition reach_count (i : Inputs) (instant_of : string -> Z) (p : ODPair) : Z :=
  Z.of_nat (length (nodup Z.eq_dec
    (map instant_of (filter (contains i p) (od_line_files i))))).

(** The weight a destination counts with. *)
Definition weight_of (i : Inputs) (d : Z) : Q :=
  if truthy (weight_field i) then fillna (joined_weight i d) else 1%Q.

(** The destinations an origin reaches at least [thr] times. *)
Definition qualifying (i : Inputs) (instant_of : string -> Z) (thr : Q) (o : Z) : list Z :=
  filter (fun d => Qle_bool thr (inject_Z (reach_count i instant_of (o, d))))
         (map dest_oid (destinations i)).

Definition qualifying_weight (i : Inputs) (instant_of : string -> Z) (thr : Q) (o : Z) : Q :=
  Qsum (map (weight_of i) (qualifying i instant_of thr o)).

(** Result files as the solves produce them: a file lists a pair once, a pair
    appears in one file per departure instant at most, and every destination
    listed is a row of the destinations table. *)
Record well_formed (i : Inputs) (instant_of : string -> Z) : Prop := {
  wf_files : NoDup (od_line_files i);
  wf_lines : forall f, In f (od_line_files i) -> NoDup (read_csv i f);
  wf_instants : forall f g p,
    In f (od_line_files i) -> In g (od_line_files i) ->
    In p (read_csv i f) -> In p (read_csv i g) ->
    instant_of f = instant_of g -> f = g;
  wf_dests : forall f p,
    In f (od_line_files i) -> In p (read_csv i f) ->
    In (snd p) (map dest_oid (destinations i));
  wf_oids : NoDup (map dest_oid (destinations i))
}.

End Accessibility.

(* ------------------------------------------------------------------------- *)
(** ** Travel time statistics *)

Module TravelTime.
Import Frame.

(** A line of an ODLines file of the travel time tool. *)
Record ODLine : Type := mkLine { OriginOID : Z; DestinationOID : Z; Total_Time : Q }.

(** A row of the output CSV file: the columns OriginOID, DestinationOID,
    count, min, max, mean. *)
Record StatsRow : Type := mkStats {
  stat_origin : Z; stat_destination : Z;
  stat_count : Z; stat_min : Q; stat_max : Q; stat_mean : Q
}.

Record Inputs : Type := mkInputs {
  od_line_files : list string;
  read_csv : string -> list ODLine;
  origin_ranges : list Partition.OidRange
}.

(** What the method does to the disk, in order. *)
Inductive Event : Type :=
  | ReadCsv (od_file : string)
  | ToCsv (append : bool) (header : bool) (rows : list StatsRow).

Definition backslash : ascii := ascii_of_nat 92.

Definition is_sep (c : ascii) : bool := (c =? "/")%char || (c =? backslash)%char.

Fixpoint has_sep (p : string) : bool :=
  match p with
  | EmptyString => false
  | String c r => is_sep c || has_sep r
  end.

(** [os.path.basename]: what follows the last path separator. *)
Fixpoint basename (p : string) : string :=
  match p with
  | EmptyString => EmptyString
  | String c r => if has_sep r then basename r else if is_sep c then r else p
  end.

Definition range_prefix (origin_range : Partition.OidRange) : string :=
  "ODLines_O_" ++ Py.str_of_int (fst origin_range) ++ "_"
               ++ Py.str_of_int (snd origin_range) ++ "_".

Definition files_for_origin_range (i : Inputs) (origin_range : Partition.OidRange)
  : list string :=
  filter (fun f => Py.startswith (basename f) (range_prefix origin_range))
         (od_line_files i).

(** [pd.concat(map(mapfunc, files_for_origin_range), ignore_index=True)]. *)
Definition group_lines (i : Inputs) (origin_range : Partition.OidRange) : list ODLine :=
  flat_map (read_csv i) (files_for_origin_range i origin_range).

Definition Qlist_min (l : list Q) : Q :=
  match l with [] => 0%Q | x :: l' => fold_left Qmin l' x end.

Definition Qlist_max (l : list Q) : Q :=
  match l with [] => 0%Q | x :: l' => fold_left Qmax l' x end.

(** The [mean] of [agg], taken as the exact rational: it stands for the float
    the code writes up to rounding, so it is stated as a value and never
    compared with a minimum or a maximum. *)
Definition mean (l : list Q) : Q := (Qsum l / inject_Z (Z.of_nat (length l)))%Q.

(** [df.groupby(["OriginOID", "DestinationOID"]).agg({"Total_Time":
    ["count", "min", "max", "mean"]})] with the index reset. *)
Definition stats (df : list ODLine) : list StatsRow :=
  map (fun g => mkStats (fst (fst g)) (snd (fst g))
                        (Z.of_nat (length (snd g)))
                        (Qlist_min (snd g)) (Qlist_max (snd g)) (mean (snd g)))
      (groupby pair_eqb pair_leb
         (map (fun l => ((OriginOID l, DestinationOID l), Total_Time l)) df)).

(** The loop variables: [first], the rows of the output file so far ([None]
    while the file does not exist) and the trace. *)
Record LoopState : Type := mkLoop {
  first : bool;
  out_csv : option (list StatsRow);
  trace : list Event
}.

(** The body of [for origin_range in self.origin_ranges]. *)
Definition loop_body (i : Inputs) (st : LoopState) (origin_range : Partition.OidRange)
  : LoopState :=
  let files := files_for_origin_range i origin_range in
  match files with
  | [] => st
  | _ =>
      let rows := stats (group_lines i origin_range) in
      let reads := map ReadCsv files in
      if first st
      then mkLoop false (Some rows) (trace st ++ reads ++ [ToCsv false true rows])
      else mkLoop false
                  (Some (match out_csv st with Some old => old | None => [] end ++ rows))
                  (trace st ++ reads ++ [ToCsv true false rows])
  end.

(** [_calculate_travel_time_statistics_outputs]: an output file left by an
    earlier run is removed before the loop. *)
Definition _calculate_travel_time_statistics_outputs (i : Inputs) : LoopState :=
  fold_left (loop_body i) (origin_ranges i) (mkLoop true None []).

(** *** Vocabulary of the statements *)

(** The travel times a group of files reports for a pair. *)
Definition samples (df : list ODLine) (p : Z * Z) : list Q :=
  map Total_Time (filter (fun l => pair_eqb (OriginOID l, DestinationOID l) p) df).

(** The rows of the output file, none while it does not exist. *)
Definition written (out : option (list StatsRow)) : list StatsRow :=
  match out with Some rows => rows | None => [] end.

(** What one origin range contributes to the trace: nothing when it has no
    result file, else the reads of its files followed by one write of its
    statistics. *)
Definition group_block (i : Inputs) (origin_range : Partition.OidRange)
    (block : list Event) : Prop :=
  match files_for_origin_range i origin_range with
  | [] => block = []
  | files =>
      exists append header,
        block = map ReadCsv files ++ [ToCsv append header (stats (group_lines i origin_range))]
  end.

End TravelTime.

(* ------------------------------------------------------------------------- *)
(** ** One chunk: the end of [ODCostMatrix.solve] *)

Module ODCM.

Inductive Level : Type := DEBUG | INFO | WARNING | ERROR.

Definition LogRecord : Type := (Level * string)%type.

(** The dictionary [self.job_result]. *)
Record JobResult : Type := mkJobResult {
  jobId : string;
  solveSucceeded : bool;
  solveMessages : string;
  outputLines : string;
  logFile : string
}.

(** What the routing engine returns from [self.od_solver.solve()]: the
    success flag, the text of its messages and the rows of its Lines output
    as they are exported. *)
Record SolveResult : Type := mkSolveResult {
  sr_solveSucceeded : bool;
  solverMessages : list string;
  Lines : list TravelTime.ODLine
}.

(** The attributes of an [ODCostMatrix] instance the end of [solve] uses;
    [logger] is the content of the job's log file. *)
Record ODCostMatrix : Type := mkODCM {
  job_id : string;
  od_output_location : string;
  job_result : JobResult;
  logger : list LogRecord
}.

(** The files on disk, by path. *)
Definition Disk : Type := string -> option (list TravelTime.ODLine).

Definition write_file (disk : Disk) (path : string) (rows : list TravelTime.ODLine) : Disk :=
  fun p => if (p =? path)%string then Some rows else disk p.

(** The dictionary as [__init__] prepares it. *)
Definition initial_job_result (job_id log_file : string) : JobResult :=
  mkJobResult job_id false EmptyString EmptyString log_file.

Definition dquote : string := String (ascii_of_nat 34) EmptyString.
Definition newline : string := String (ascii_of_nat 10) EmptyString.

Definition common_msg_prefix : string :=
  "No " ++ dquote ++ "Destinations" ++ dquote ++ " found for ".

(** "Handle solve messages": the messages kept for the result dictionary and
    what is logged on the way. *)
Definition handle_messages (solve_msgs : list string) : list LogRecord * string :=
  let initial_num_msgs := Z.of_nat (length solve_msgs) in
  let logged := map (fun msg => (DEBUG, msg)) solve_msgs in
  let kept := filter (fun msg => negb (Py.startswith msg common_msg_prefix)) solve_msgs in
  let num_msgs_removed := initial_num_msgs - Z.of_nat (length kept) in
  if num_msgs_removed =? 0
  then (logged, Py.join newline kept)
  else (logged ++ [(DEBUG, ("Repetitive messages starting with " ++ common_msg_prefix
                             ++ " were consolidated.")%string)],
        Py.join newline
          (kept ++ [("No destinations were found for "
                      ++ Py.str_of_int num_msgs_removed ++ " origins.")%string])).

(** [os.path.join] of a folder and a file name. *)
Definition path_join (folder name : string) : string :=
  folder ++ String TravelTime.backslash EmptyString ++ name.

Definition out_filename (origins_criteria destinations_criteria : Partition.OidRange)
    (time_string : string) : string :=
  "ODLines_O_" ++ Py.str_of_int (fst origins_criteria) ++ "_"
               ++ Py.str_of_int (snd origins_criteria) ++ "_"
  ++ "D_" ++ Py.str_of_int (fst destinations_criteria) ++ "_"
          ++ Py.str_of_int (snd destinations_criteria) ++ "_"
  ++ "T_" ++ time_string.

Definition set_solveMessages (r : JobResult) (msgs : string) : JobResult :=
  mkJobResult (jobId r) (solveSucceeded r) msgs (outputLines r) (logFile r).

Definition set_solveSucceeded (r : JobResult) (b : bool) : JobResult :=
  mkJobResult (jobId r) b (solveMessages r) (outputLines r) (logFile r).

Definition set_outputLines (r : JobResult) (path : string) : JobResult :=
  mkJobResult (jobId r) (solveSucceeded r) (solveMessages r) path (logFile r).

(** [_export_to_csv] ([USE_ARROW] is [False]). *)
Definition _export_to_csv (self : ODCostMatrix) (disk : Disk) (solve_result : SolveResult)
    (out_csv_file : string) : ODCostMatrix * Disk :=
  (mkODCM (job_id self) (od_output_location self)
          (set_outputLines (job_result self) out_csv_file)
          (logger self ++ [(DEBUG, ("Saving OD cost matrix Lines output to CSV as "
                                     ++ out_csv_file ++ ".")%string)]),
   write_file disk out_csv_file (Lines solve_result)).

(** [ODCostMatrix.solve] from the return of [self.od_solver.solve()] on;
    [time_string] is [time_of_day.strftime("%Y%m%d_%H%M%S")]. *)
Definition solve (self : ODCostMatrix) (disk : Disk)
    (origins_criteria destinations_criteria : Partition.OidRange) (time_string : string)
    (solve_result : SolveResult) : ODCostMatrix * Disk :=
  let '(logged, solve_msgs) := handle_messages (solverMessages solve_result) in
  let self1 := mkODCM (job_id self) (od_output_location self)
                      (set_solveMessages (job_result self) solve_msgs)
                      (logger self ++ logged) in
  if negb (sr_solveSucceeded solve_result)
  then (mkODCM (job_id self1) (od_output_location self1) (job_result self1)
               (logger self1 ++ [(DEBUG, "Solve failed."%string)]), disk)
  else
    let self2 := mkODCM (job_id self1) (od_output_location self1)
                        (set_solveSucceeded (job_result self1) true)
                        (logger self1 ++ [(DEBUG, "Solve succeeded."%string);
                                          (DEBUG, "Logging OD Cost Matrix results..."%string)]) in
    let output_od_lines :=
      path_join (od_output_location self2)
                (out_filename origins_criteria destinations_criteria time_string ++ ".csv") in
    let '(self3, disk3) := _export_to_csv self2 disk solve_result output_od_lines in
    (mkODCM (job_id self3) (od_output_location self3) (job_result self3)
            (logger self3 ++ [(DEBUG, "Finished calculating OD cost matrix."%string)]), disk3).

(** [ODCostMatrix.__init__], as far as the attributes above go; [job_id] is
    the fresh [uuid.uuid4().hex]. *)
Definition ODCostMatrix_init (job_id scratch_folder od_output_location : string)
  : ODCostMatrix :=
  let log_file := path_join scratch_folder ("ODCostMatrix_" ++ job_id ++ ".log") in
  mkODCM job_id od_output_location (initial_job_result job_id log_file) [].

(** [solve_od_cost_matrix]: what a worker process does with a chunk and
    hands back. *)
Definition solve_od_cost_matrix (job_id scratch_folder od_output_location : string)
    (disk : Disk) (chunk : Partition.OidRange * Partition.OidRange * string)
    (solve_result : SolveResult) : JobResult * Disk :=
  let odcm := ODCostMatrix_init job_id scratch_folder od_output_location in
  let '(o, d, t) := chunk in
  let odcm1 :=
    mkODCM (job_id) (od_output_location) (job_result odcm)
           (logger odcm
              ++ [(INFO, ("Processing origins OID " ++ Py.str_of_int (fst o) ++ " to "
                            ++ Py.str_of_int (snd o) ++ " and destinations OID "
                            ++ Py.str_of_int (fst d) ++ " to " ++ Py.str_of_int (snd d)
                            ++ " for start time " ++ t ++ " as job id " ++ job_id)%string)]) in
  let '(odcm2, disk') := solve odcm1 disk o d t solve_result in
  (job_result odcm2, disk').

End ODCM.

(* ------------------------------------------------------------------------- *)
(** ** The scheduler: [ParallelODCalculator.solve_od_in_parallel] *)

Module Scheduler.
Import ODCM.

(** Modelled from the spec: [AnalysisHelpers.ODTool], the enumeration of the
    two tool modes, accessibility and travel time statistics. *)
Inductive ODTool : Type := CalculateAccessibilityMatrix | CalculateTravelTimeStatistics.

(** An exception, with the lines of [traceback.format_exc()]. *)
Record Exn : Type := mkExn { exn_name : string; format_exc : list string }.

(** What [future.result()] does: raise, or return the worker's dictionary. *)
Abbreviation Future := (Exn + JobResult)%type (only parsing).

(** What the main process does that can be observed, in order. *)
Inductive Event : Type :=
  | Log (level : Level) (msg : string)
  | CallAccessibility (files : list string)
  | CallTravelTime (files : list string)
  | Rmtree (folder : string).

(** The attributes of [self] the method uses. *)
Record ParallelODCalculator : Type := mkCalc {
  tool : ODTool;
  origins : list Z;
  destinations : list Accessibility.Destination;
  weight_field : option string;
  start_times : list Z;
  origin_ranges : list Partition.OidRange;
  scratch_folder : string;
  od_output_location : string;
  total_jobs : Z;
  od_line_files : list string
}.

(** The variables of the [for future in futures.as_completed(jobs)] loop. *)
Record LoopState : Type := mkLoop {
  loop_od_line_files : list string;
  completed_jobs : Z;
  loop_events : list Event
}.

(** The body of the loop for a result that was retrieved. *)
Definition store_result (st : LoopState) (result : JobResult) : LoopState :=
  if solveSucceeded result
  then mkLoop (loop_od_line_files st ++ [outputLines result])
              (completed_jobs st) (loop_events st)
  else mkLoop (loop_od_line_files st) (completed_jobs st)
              (loop_events st
                 ++ [Log DEBUG ("Solve failed for job id " ++ jobId result ++ ".")%string;
                     Log DEBUG (solveMessages result)]).

Definition progress (total : Z) (st : LoopState) : LoopState :=
  let n := completed_jobs st + 1 in
  mkLoop (loop_od_line_files st) n
         (loop_events st
            ++ [Log INFO ("Finished OD Cost Matrix calculation " ++ Py.str_of_int n
                            ++ " of " ++ Py.str_of_int total ++ ".")%string]).

(** The loop over the futures in completion order; it stops at the first
    result that cannot be retrieved and hands the exception on. *)
Fixpoint as_completed (total : Z) (jobs : list Future) (st : LoopState)
  : LoopState * option Exn :=
  match jobs with
  | [] => (st, None)
  | future :: jobs' =>
      let st1 := progress total st in
      match future with
      | inl e =>
          (mkLoop (loop_od_line_files st1) (completed_jobs st1)
                  (loop_events st1
                     ++ [Log ERROR "Failed to get OD Cost Matrix result from parallel processing."%string]
                     ++ map (Log ERROR) (format_exc e)),
           Some e)
      | inr result => as_completed total jobs' (store_result st1 result)
      end
  end.

Definition rows_on_disk (disk : Disk) (path : string) : list TravelTime.ODLine :=
  match disk path with Some rows => rows | None => [] end.

Definition accessibility_inputs (self : ParallelODCalculator) (disk : Disk)
    (files : list string) : Accessibility.Inputs :=
  Accessibility.mkInputs files
    (fun f => map (fun l => (TravelTime.OriginOID l, TravelTime.DestinationOID l))
                  (rows_on_disk disk f))
    (weight_field self) (destinations self) (start_times self) (origins self).

Definition travel_time_inputs (self : ParallelODCalculator) (disk : Disk)
    (files : list string) : TravelTime.Inputs :=
  TravelTime.mkInputs files (rows_on_disk disk) (origin_ranges self).

(** What a run leaves behind: the exception it raised if any, its events, the
    final [self.od_line_files], the statistic fields written to the Origins
    table and the rows of the output CSV file. *)
Record Run : Type := mkRun {
  raised : option Exn;
  events : list Event;
  final_od_line_files : list string;
  origins_fields : option (list (Z * list Q));
  out_csv : option (list TravelTime.StatsRow)
}.

Definition cleanup (self : ParallelODCalculator) : list Event :=
  [Log INFO "Deleting intermediate outputs..."%string;
   Rmtree (scratch_folder self);
   Log INFO "Finished calculating OD Cost Matrices."%string].

Definition written_elsewhere (self : ParallelODCalculator) : list Event :=
  if (od_output_location self =? scratch_folder self)%string then []
  else [Log INFO ("Individual network analysis results written to "
                    ++ od_output_location self ++ ".")%string].

(** "Post-process and write out results according to which tool is being
    run", and the cleanup. *)
Definition post_process (self : ParallelODCalculator) (disk : Disk) (st : LoopState) : Run :=
  match loop_od_line_files st with
  | [] =>
      mkRun None
            (loop_events st
               ++ [Log WARNING "All OD Cost Matrix solves failed, so no output was produced."%string]
               ++ cleanup self)
            [] None None
  | _ =>
      let files := Py.sorted String.leb (loop_od_line_files st) in
      match tool self with
      | CalculateAccessibilityMatrix =>
          mkRun None
                (loop_events st ++ [CallAccessibility files]
                   ++ written_elsewhere self ++ cleanup self)
                files
                (Accessibility._calculate_accessibility_matrix_outputs
                   (accessibility_inputs self disk files))
                None
      | CalculateTravelTimeStatistics =>
          mkRun None
                (loop_events st ++ [CallTravelTime files]
                   ++ written_elsewhere self ++ cleanup self)
                files None
                (TravelTime.out_csv
                   (TravelTime._calculate_travel_time_statistics_outputs
                      (travel_time_inputs self disk files)))
      end
  end.

(** [solve_od_in_parallel]: [validation] is what [_validate_od_settings]
    raises if it does, [jobs] the futures in the order they complete, [disk]
    the files the workers have written by then. *)
Definition solve_od_in_parallel (self : ParallelODCalculator) (disk : Disk)
    (validation : option Exn) (jobs : list Future) : Run :=
  match validation with
  | Some e =>
      mkRun (Some e)
            ([Log DEBUG "Validating OD Cost Matrix settings..."%string;
              Log ERROR "Error initializing OD Cost Matrix analysis."%string]
               ++ map (Log ERROR) (format_exc e))
            (od_line_files self) None None
  | None =>
      let st0 :=
        mkLoop (od_line_files self) 0
               [Log DEBUG "Validating OD Cost Matrix settings..."%string;
                Log DEBUG "OD Cost Matrix settings successfully validated."%string;
                Log INFO ("Solving OD Cost Matrix in parallel ("
                            ++ Py.str_of_int (total_jobs self) ++ " chunks)...")%string] in
      match as_completed (total_jobs self) jobs st0 with
      | (st, Some e) => mkRun (Some e) (loop_events st) (loop_od_line_files st) None None
      | (st, None) => post_process self disk st
      end
  end.

(** *** Vocabulary of the statements *)

Definition is_aggregator_call (e : Event) : bool :=
  match e with
  | CallAccessibility _ | CallTravelTime _ => true
  | _ => false
  end.

Definition is_log_at (level : Level) (e : Event) : bool :=
  match e, level with
  | Log DEBUG _, DEBUG | Log INFO _, INFO | Log WARNING _, WARNING | Log ERROR _, ERROR => true
  | _, _ => false
  end.

(** What the aggregators write: the fields of the Origins table and the rows
    of the output CSV file. *)
Definition aggregated (r : Run) : option (list (Z * list Q)) * option (list TravelTime.StatsRow) :=
  (origins_fields r, out_csv r).

(** What the post-processing writes for a given list of result files. *)
Definition aggregate (self : ParallelODCalculator) (disk : Disk) (files : list string)
  : option (list (Z * list Q)) * option (list TravelTime.StatsRow) :=
  match files with
  | [] => (None, None)
  | _ =>
      let files' := Py.sorted String.leb files in
      match tool self with
      | CalculateAccessibilityMatrix =>
          (Accessibility._calculate_accessibility_matrix_outputs
             (accessibility_inputs self disk files'), None)
      | CalculateTravelTimeStatistics =>
          (None, TravelTime.out_csv
                   (TravelTime._calculate_travel_time_statistics_outputs
                      (travel_time_inputs self disk files')))
      end
  end.

(** The aggregator call the post-processing makes for a list of result files. *)
Definition aggregator_calls (self : ParallelODCalculator) (files : list string) : list Event :=
  match files with
  | [] => []
  | _ =>
      match tool self with
      | CalculateAccessibilityMatrix => [CallAccessibility (Py.sorted String.leb files)]
      | CalculateTravelTimeStatistics => [CallTravelTime (Py.sorted String.leb files)]
      end
  end.

(** The paths of the result files among retrieved results. *)
Definition successful_files (jobs : list Future) : list string :=
  flat_map (fun future =>
    match future with
    | inr result => if solveSucceeded result then [outputLines result] else []
    | inl _ => []
    end) jobs.

Definition raises (future : Future) : bool :=
  match future with inl _ => true | inr _ => false end.

End Scheduler.

(* ------------------------------------------------------------------------- *)
(** ** The chunk universe built by [ParallelODCalculator.__init__] *)

Module ChunkUniverse.
Import Partition.

(** What [if current_range != [0, 0]] does to the chunks: a last chunk that
    is not full is dropped when it starts and ends at 0. *)
Fixpoint close_chunks (m : nat) (cs : list (list Z)) : list (list Z) :=
  match cs with
  | [] => []
  | c :: cs' =>
      match cs' with
      | [] => if (length c <? m)%nat && range_eqb (bounds c) (0, 0) then [] else [c]
      | _ => c :: close_chunks m cs'
      end
  end.

(** [itertools.product(a, b, c)]: the first component varies slowest. *)
Definition product {A B C} (a : list A) (b : list B) (c : list C) : list (A * B * C) :=
  flat_map (fun x => flat_map (fun y => map (fun z => (x, y, z)) c) b) a.

(** The where clause [f"{weight_field} IS NOT NULL and {weight_field} <> 0"]. *)
Definition dest_where (row : Accessibility.Destination) : bool :=
  match Accessibility.dest_weight row with
  | Some w => negb (Qeq_bool w 0)
  | None => false
  end.

(** The ObjectIDs the destinations cursor yields: all of them when
    [self.dest_where] is the empty string. *)
Definition destination_oids (weight_field : option string)
    (destinations : list Accessibility.Destination) : list Z :=
  map Accessibility.dest_oid
      (if Accessibility.truthy weight_field then filter dest_where destinations
       else destinations).

Record Universe : Type := mkUniverse {
  origin_ranges : list OidRange;
  destination_ranges : list OidRange;
  chunks : list (OidRange * OidRange * Z);
  total_jobs : Z
}.

(** "Construct OID ranges for chunks of origins and destinations" and the
    two statements after it. *)
Definition build (origins : list Z) (destinations : list Accessibility.Destination)
    (weight_field : option string) (max_origins max_destinations : Z)
    (start_times : list Z) : Universe :=
  let origin_ranges := _get_oid_ranges_for_input origins max_origins (fun _ => true) in
  let destination_ranges :=
    ranges_of_oids (destination_oids weight_field destinations) max_destinations in
  mkUniverse origin_ranges destination_ranges
             (product origin_ranges destination_ranges start_times)
             (Z.of_nat (length origin_ranges) * Z.of_nat (length destination_ranges)
              * Z.of_nat (length start_times)).

(** A chunk is responsible for an origin, a destination and a start time. *)
Definition solves (chunk : OidRange * OidRange * Z) (o d t : Z) : Prop :=
  in_range (fst (fst chunk)) o = true /\
  in_range (snd (fst chunk)) d = true /\
  snd chunk = t.

End ChunkUniverse.

(* ------------------------------------------------------------------------- *)
(** ** The naming scheme of the result files *)

Module Naming.
Import ODCM.

(** The path [solve] gives the result file of a chunk. *)
Definition output_od_lines (od_output_location : string)
    (origins_criteria destinations_criteria : Partition.OidRange) (time_string : string)
  : string :=
  path_join od_output_location
            (out_filename origins_criteria destinations_criteria time_string ++ ".csv").

(** *** Vocabulary of the statements *)

Definition is_digit (c : ascii) : bool :=
  (48 <=? nat_of_ascii c)%nat && (nat_of_ascii c <=? 57)%nat.

(** The characters [str] of an integer is made of. *)
Definition is_int_char (c : ascii) : bool := (c =? "-")%char || is_digit c.

Fixpoint all_chars (P : ascii -> bool) (s : string) : bool :=
  match s with
  | EmptyString => true
  | String c r => P c && all_chars P r
  end.

(** The files the chunks of a run are written to when every solve succeeds. *)
Definition chunk_files (od_output_location : string)
    (chunks : list (Partition.OidRange * Partition.OidRange * string)) : list string :=
  map (fun chunk => output_od_lines od_output_location (fst (fst chunk)) (snd (fst chunk))
                                    (snd chunk)) chunks.

(** The files the travel time aggregator reads, in order. *)
Definition reads (trace : list TravelTime.Event) : list string :=
  flat_map (fun e => match e with
                     | TravelTime.ReadCsv f => [f]
                     | TravelTime.ToCsv _ _ _ => []
                     end) trace.

(** How each write of the travel time aggregator opens the output file:
    [(append, header)]. *)
Definition write_modes (trace : list TravelTime.Event) : list (bool * bool) :=
  flat_map (fun e => match e with
                     | TravelTime.ReadCsv _ => []
                     | TravelTime.ToCsv append header _ => [(append, header)]
                     end) trace.

(** The origin ranges that have at least one result file. *)
Definition ranges_with_files (i : TravelTime.Inputs) : list Partition.OidRange :=
  filter (fun r => match TravelTime.files_for_origin_range i r with
                   | [] => false
                   | _ => true
                   end) (TravelTime.origin_ranges i).

(** Creating the output file with a header, then appending without one. *)
Definition create_then_append (writes : nat) : list (bool * bool) :=
  match writes with
  | O => []
  | S n => (false, true) :: repeat (true, false) n
  end.

End Naming.

(* ------------------------------------------------------------------------- *)
(** ** What a run of the scheduler lets one observe *)

Module Observations.
Import ODCM Scheduler.

Definition is_rmtree (e : Event) : bool :=
  match e with
  | Rmtree _ => true
  | _ => false
  end.

(** The futures the loop takes before it stops: all of them, or those up to
    and including the first whose result cannot be retrieved. *)
Fixpoint consumed (jobs : list Future) : nat :=
  match jobs with
  | [] => O
  | inl _ :: _ => 1
  | inr _ :: jobs' => S (consumed jobs')
  end.

(** The record [progress] logs for the [n]-th future. *)
Definition progress_record (total n : Z) : Event :=
  Log INFO ("Finished OD Cost Matrix calculation " ++ Py.str_of_int n
              ++ " of " ++ Py.str_of_int total ++ ".")%string.

(** Paths in the order [sorted] puts them. *)
Definition ordered (paths : list string) : Prop :=
  StronglySorted (fun a b => String.leb a b = true) paths.

(** The line that stands for the messages [handle_messages] removed. *)
Definition consolidated (removed : list string) : list string :=
  match removed with
  | [] => []
  | _ => [("No destinations were found for "
             ++ Py.str_of_int (Z.of_nat (length removed)) ++ " origins.")%string]
  end.

End Observations.

(* ------------------------------------------------------------------------- *)
(** ** From the chunk universe to the result files *)

Module Pipeline.
Import Partition.

(** The chunks as the workers receive them, the start time rendered as
    [time_of_day.strftime("%Y%m%d_%H%M%S")] renders it. *)
Definition named_chunks (strftime : Z -> string) (u : ChunkUniverse.Universe)
  : list (OidRange * OidRange * string) :=
  map (fun chunk => (fst (fst chunk), snd (fst chunk), strftime (snd chunk)))
      (ChunkUniverse.chunks u).

(** The result files the travel time aggregator is handed when the solves of
    [solved] succeeded: [sorted(self.od_line_files)]. *)
Definition sorted_result_files (od_output_location : string)
    (solved : list (OidRange * OidRange * string)) : list string :=
  Py.sorted String.leb (Naming.chunk_files od_output_location solved).

End Pipeline.

(* ------------------------------------------------------------------------- *)
(** ** The accessibility fields as the specification words them *)

Module DecileClaim.
Import Frame Accessibility.


(** The weight a row of the destinations table counts with: the value of its
    weight field, nothing when that is NULL, and 1 without a weight field. *)
Definition row_weight (i : Inputs) (row : Destination) : Q :=
  if truthy (weight_field i) then fillna (dest_weight row) else 1%Q.

(** "the sum of weights of destinations" that satisfy a condition. *)
Definition weight_where (i : Inputs) (P : Z -> bool) : Q :=
  Qsum (map (row_weight i) (filter (fun row => P (dest_oid row)) (destinations i))).


(** The destinations reached at one departure instant at least. *)
Definition reached_weight (i : Inputs) (instant_of : string -> Z) (o : Z) : Q :=
  weight_where i (fun d => 0 <? reach_count i instant_of (o, d)).

(** "the total destination weight". *)
Definition total_weight (i : Inputs) : Q := Qsum (map (row_weight i) (destinations i)).

End DecileClaim.

(* ------------------------------------------------------------------------- *)
(** ** The travel time groups as the specification words them *)

Module GroupClaim.
Import Partition TravelTime.

(** "the ODLines_O_{low}_{high}_ filename prefix". *)
Definition filename_prefix (low high : Z) : string :=
  "ODLines_O_" ++ Py.str_of_int low ++ "_" ++ Py.str_of_int high ++ "_".

(** "groups are formed by matching the ... filename prefix": the result
    files of the group of an origin range. *)
Definition group_files (files : list string) (r : OidRange) : list string :=
  filter (fun f => String.prefix (filename_prefix (fst r) (snd r)) (basename f)) files.

(** "all samples in that group's files": the lines read from them, file
    after file. *)
Definition group_samples (read : string -> list ODLine) (files : list string)
    (r : OidRange) : list ODLine :=
  flat_map read (group_files files r).

(** "each group's rows are computed and appended to the output before the
    next group's files are read": what is done for one origin range is
    nothing when it has no result file, else the reads of its files followed
    by one write of its rows. *)
Definition group_events (read : string -> list ODLine) (files : list string)
    (r : OidRange) (block : list Event) : Prop :=
  match group_files files r with
  | [] => block = []
  | fs =>
      exists append header,
        block = map ReadCsv fs ++ [ToCsv append header (stats (group_samples read files r))]
  end.

(** The chunks of a run that were solved for an origin range. *)
Definition chunks_of (r : OidRange) (chunks : list (OidRange * OidRange * string))
  : list (OidRange * OidRange * string) :=
  filter (fun chunk => range_eqb r (fst (fst chunk))) chunks.

End GroupClaim.

(* ========================================================================= *)
(** * Properties *)

Module PartitionFacts.
Import Partition.

Section Loop.
Variable max_chunk_size : Z.

Lemma loop_body_open rs n cur x :
  n + 1 <> max_chunk_size ->
  loop_body max_chunk_size (mkLoop rs n cur) x =
  mkLoop rs (n + 1) ((if n =? 0 then x else fst cur), x).
Proof.
  intros Hne. unfold loop_body; cbn.
  destruct (Z.eqb_spec (n + 1) max_chunk_size) as [E|_]; [contradiction|].
  now destruct (n =? 0).
Qed.

Lemma loop_body_close rs n cur x :
  n + 1 = max_chunk_size ->
  loop_body max_chunk_size (mkLoop rs n cur) x =
  mkLoop (rs ++ [((if n =? 0 then x else fst cur), x)]) 0 (0, 0).
Proof.
  intros He. unfold loop_body; cbn.
  destruct (Z.eqb_spec (n + 1) max_chunk_size) as [_|N]; [|contradiction].
  now destruct (n =? 0).
Qed.

(** Reading fewer identifiers than fit leaves the range open. *)
Lemma loop_partial : forall l rs n cur,
  0 <= n -> n + Z.of_nat (length l) < max_chunk_size -> l <> [] ->
  fold_left (loop_body max_chunk_size) l (mkLoop rs n cur) =
  mkLoop rs (n + Z.of_nat (length l))
         ((if n =? 0 then hd 0 l else fst cur), last l 0).
Proof.
  induction l as [|x l IH]; intros rs n cur Hn Hlt Hne; [congruence|].
  cbn [fold_left]. rewrite loop_body_open by (cbn [length] in Hlt; lia).
  destruct l as [|y l].
  - cbn. f_equal. 
  - rewrite IH; [| lia | cbn [length] in *; lia | discriminate].
    replace (n + 1 =? 0) with false by (symmetry; apply Z.eqb_neq; lia).
    cbn [fst hd]. f_equal. cbn [length]. lia.
Qed.

(** Reading exactly as many identifiers as still fit closes the range. *)
Lemma loop_full : forall l rs n cur,
  0 <= n -> n + Z.of_nat (length l) = max_chunk_size -> l <> [] ->
  fold_left (loop_body max_chunk_size) l (mkLoop rs n cur) =
  mkLoop (rs ++ [((if n =? 0 then hd 0 l else fst cur), last l 0)]) 0 (0, 0).
Proof.
  induction l as [|x l IH]; intros rs n cur Hn Hlt Hne; [congruence|].
  cbn [fold_left]. destruct l as [|y l].
  - rewrite loop_body_close by (cbn [length] in Hlt; lia). reflexivity.
  - rewrite loop_body_open by (cbn [length] in Hlt; lia).
    rewrite IH; [| lia | cbn [length] in *; lia | discriminate].
    replace (n + 1 =? 0) with false by (symmetry; apply Z.eqb_neq; lia).
    reflexivity.
Qed.

(** Closed ranges are never touched again. *)
Lemma loop_ranges_prefix : forall l rs n cur,
  close_out (fold_left (loop_body max_chunk_size) l (mkLoop rs n cur)) =
  rs ++ close_out (fold_left (loop_body max_chunk_size) l (mkLoop [] n cur)).
Proof.
  induction l as [|x l IH]; intros rs n cur.
  - unfold close_out; cbn. destruct (negb _); [reflexivity | now rewrite app_nil_r].
  - cbn [fold_left]. destruct (Z.eq_dec (n + 1) max_chunk_size) as [E|E].
    + rewrite !loop_body_close by exact E.
      rewrite IH, (IH ([] ++ _)). cbn [app]. now rewrite <- app_assoc.
    + rewrite !loop_body_open by exact E. apply IH.
Qed.
End Loop.

Lemma ranges_unfold_short oids max_chunk_size :
  oids <> [] -> Z.of_nat (length oids) < max_chunk_size ->
  ranges_of_oids oids max_chunk_size =
  if negb (range_eqb (bounds oids) (0, 0)) then [bounds oids] else [].
Proof.
  intros Hne Hlt. unfold ranges_of_oids, loop_init.
  rewrite loop_partial by (try lia; assumption). reflexivity.
Qed.

Lemma ranges_unfold_long oids max_chunk_size :
  1 <= max_chunk_size -> (Z.to_nat max_chunk_size <= length oids)%nat ->
  ranges_of_oids oids max_chunk_size =
  bounds (firstn (Z.to_nat max_chunk_size) oids)
    :: ranges_of_oids (skipn (Z.to_nat max_chunk_size) oids) max_chunk_size.
Proof.
  intros Hmax Hlen. set (m := Z.to_nat max_chunk_size) in *.
  unfold ranges_of_oids at 1, loop_init.
  rewrite <- (firstn_skipn m oids) at 1. rewrite fold_left_app.
  assert (Hf : length (firstn m oids) = m) by (rewrite length_firstn; lia).
  rewrite loop_full.
  - rewrite loop_ranges_prefix. reflexivity.
  - lia.
  - rewrite Hf. unfold m. lia.
  - intros E. rewrite E in Hf. cbn in Hf. unfold m in Hf. lia.
Qed.

Lemma chunks_fuel_nil fuel m : chunks_fuel fuel m [] = [].
Proof. now destruct fuel. Qed.

(** With no identifier equal to 0 the sentinel test is exact, and the ranges
    are the bounds of the consecutive chunks of [max_chunk_size] identifiers. *)
Lemma ranges_are_chunk_bounds_fuel max_chunk_size :
  1 <= max_chunk_size ->
  forall fuel oids,
    (length oids <= fuel)%nat -> Forall (fun x => x <> 0) oids ->
    ranges_of_oids oids max_chunk_size =
    map bounds (chunks_fuel fuel (Z.to_nat max_chunk_size) oids).
Proof.
  intros Hmax. induction fuel as [|fuel IH]; intros oids Hlen Hnz.
  - destruct oids; [reflexivity | cbn in Hlen; lia].
  - destruct oids as [|x oids]; [reflexivity|].
    cbn [chunks_fuel map].
    destruct (Nat.lt_ge_cases (length (x :: oids)) (Z.to_nat max_chunk_size)) as [Hs|Hl].
    + rewrite ranges_unfold_short by (try discriminate; lia).
      rewrite firstn_all2, skipn_all2 by lia.
      rewrite chunks_fuel_nil. cbn [map].
      replace (range_eqb (bounds (x :: oids)) (0, 0)) with false; [reflexivity|].
      symmetry. unfold range_eqb, bounds. cbn [fst snd hd].
      apply andb_false_iff. left. apply Z.eqb_neq. now inversion Hnz.
    + rewrite ranges_unfold_long by assumption. f_equal.
      apply IH.
      * rewrite length_skipn. cbn [length] in *. lia.
      * apply Forall_forall. intros y Hy. rewrite Forall_forall in Hnz.
        apply Hnz. rewrite <- (firstn_skipn (Z.to_nat max_chunk_size)).
        apply in_or_app. now right.
Qed.

(** *** Facts about the chunks *)

Lemma chunks_fuel_concat m : forall fuel oids,
  (1 <= m)%nat -> (length oids <= fuel)%nat ->
  concat (chunks_fuel fuel m oids) = oids.
Proof.
  induction fuel as [|fuel IH]; intros oids Hm Hlen.
  - destruct oids; [reflexivity | cbn in Hlen; lia].
  - destruct oids as [|x oids]; [reflexivity|].
    cbn [chunks_fuel concat]. rewrite IH; [apply firstn_skipn | assumption |].
    rewrite length_skipn. cbn [length] in *. lia.
Qed.

Lemma chunks_fuel_shape m : forall fuel oids,
  (1 <= m)%nat ->
  Forall (fun c => c <> [] /\ (length c <= m)%nat) (chunks_fuel fuel m oids).
Proof.
  induction fuel as [|fuel IH]; intros oids Hm; [constructor|].
  destruct oids as [|x oids]; [constructor|].
  cbn [chunks_fuel]. constructor; [|apply IH; assumption]. split.
  - destruct m; [lia | discriminate].
  - rewrite length_firstn. lia.
Qed.

(** The number of chunks is the ceiling of [length oids / m]. *)
Lemma chunks_fuel_count m : forall fuel oids,
  (1 <= m)%nat -> (length oids <= fuel)%nat ->
  let k := Z.of_nat (length (chunks_fuel fuel m oids)) in
  (k - 1) * Z.of_nat m < Z.of_nat (length oids) <= k * Z.of_nat m.
Proof.
  induction fuel as [|fuel IH]; intros oids Hm Hlen.
  - destruct oids; [cbn [chunks_fuel length]; lia | cbn in Hlen; lia].
  - destruct oids as [|x oids]; [cbn [chunks_fuel length]; lia|].
    cbn [chunks_fuel]. cbn zeta. cbn [length].
    specialize (IH (skipn m (x :: oids)) Hm).
    rewrite length_skipn in IH. cbn [length] in *. cbn zeta in IH.
    assert (H : (S (length oids) - m <= fuel)%nat) by lia.
    specialize (IH H). clear H.
    rewrite !Nat2Z.inj_succ.
    set (k' := Z.of_nat (length (chunks_fuel fuel m (skipn m (x :: oids))))) in *.
    assert (Hk : 0 <= k') by (unfold k'; lia).
    assert (HM : 1 <= Z.of_nat m) by lia.
    destruct (Nat.lt_ge_cases (S (length oids)) m) as [Hs|Hl].
    + replace (S (length oids) - m)%nat with 0%nat in IH by lia.
      assert (Hk0 : k' = 0).
      { destruct (Z.eq_dec k' 0) as [|Hn]; [assumption|].
        assert (0 <= (k' - 1) * Z.of_nat m) by (apply Z.mul_nonneg_nonneg; lia).
        cbn in IH. lia. }
      rewrite Hk0. lia.
    + rewrite Nat2Z.inj_sub in IH by lia. rewrite Nat2Z.inj_succ in IH.
      replace ((Z.succ k' - 1) * Z.of_nat m) with ((k' - 1) * Z.of_nat m + Z.of_nat m) by ring.
      replace (Z.succ k' * Z.of_nat m) with (k' * Z.of_nat m + Z.of_nat m) by ring.
      lia.
Qed.

(** *** Ascending identifiers *)

Lemma filter_none {A} (f : A -> bool) l :
  (forall x, In x l -> f x = false) -> filter f l = [].
Proof.
  induction l as [|x l IH]; intros H; [reflexivity|].
  cbn. rewrite (H x) by now left. apply IH. intros y Hy. apply H. now right.
Qed.

Lemma filter_all {A} (f : A -> bool) l :
  (forall x, In x l -> f x = true) -> filter f l = l.
Proof.
  induction l as [|x l IH]; intros H; [reflexivity|].
  cbn. rewrite (H x) by now left. f_equal. apply IH. intros y Hy. apply H. now right.
Qed.

Lemma filter_split_length {A} (f : A -> bool) l :
  length l = (length (filter f l) + length (filter (fun x => negb (f x)) l))%nat.
Proof.
  induction l as [|x l IH]; [reflexivity|].
  cbn. destruct (f x); cbn; lia.
Qed.

Lemma filter_filter_length {A} (f g : A -> bool) l :
  (length (filter f (filter g l)) <= length (filter f l))%nat.
Proof.
  induction l as [|x l IH]; [reflexivity|].
  cbn. destruct (g x); cbn; destruct (f x); cbn; lia.
Qed.

Lemma hd_In (c : list Z) : c <> [] -> In (hd 0 c) c.
Proof. destruct c; [congruence | now left]. Qed.

Lemma last_In (c : list Z) : c <> [] -> In (last c 0) c.
Proof.
  induction c as [|x c IH]; [congruence|]. intros _.
  destruct c as [|y c]; [now left|]. right. apply IH. discriminate.
Qed.

Lemma ascending_app_inv a b :
  ascending (a ++ b) ->
  ascending a /\ ascending b /\ forall x y, In x a -> In y b -> x < y.
Proof.
  unfold ascending. induction a as [|z a IH]; cbn; intros H.
  - repeat split; [constructor | assumption | intros ? ? []].
  - inversion H as [|? ? Hs Hf]; subst. destruct (IH Hs) as (Ha & Hb & Hab).
    rewrite Forall_app in Hf. destruct Hf as [Hfa Hfb].
    repeat split; [now constructor | assumption |].
    intros x y [->|Hx] Hy.
    + rewrite Forall_forall in Hfb. now apply Hfb.
    + now apply Hab.
Qed.

Lemma ascending_between c :
  ascending c -> forall x, In x c -> hd 0 c <= x <= last c 0.
Proof.
  unfold ascending. induction c as [|y c IH]; intros Hs x Hx; [destruct Hx|].
  inversion Hs as [|? ? Hs' Hf]; subst. rewrite Forall_forall in Hf.
  destruct c as [|z c].
  - destruct Hx as [->|[]]. cbn. lia.
  - assert (Hl : In (last (z :: c) 0) (z :: c)) by (apply last_In; discriminate).
    change (last (y :: z :: c) 0) with (last (z :: c) 0). cbn [hd].
    destruct Hx as [->|Hx].
    + specialize (Hf _ Hl). lia.
    + specialize (IH Hs' x Hx). specialize (Hf _ Hx). lia.
Qed.

(** A range built from a chunk selects that chunk and nothing else. *)
Lemma select_sandwich a c b :
  ascending (a ++ c ++ b) -> c <> [] -> select (a ++ c ++ b) (bounds c) = c.
Proof.
  intros Hs Hne.
  destruct (ascending_app_inv _ _ Hs) as (_ & Hcb & Hacb).
  destruct (ascending_app_inv _ _ Hcb) as (Hc & _ & Hcb').
  pose proof (hd_In c Hne) as Hhd. pose proof (last_In c Hne) as Hla.
  unfold select. rewrite !filter_app.
  rewrite (filter_none _ a), (filter_all _ c), (filter_none _ b).
  - now rewrite app_nil_r.
  - intros x Hx. specialize (Hcb' _ _ Hla Hx).
    unfold in_range, bounds; cbn [fst snd].
    apply andb_false_iff. right. apply Z.leb_gt. lia.
  - intros x Hx. pose proof (ascending_between c Hc x Hx).
    unfold in_range, bounds; cbn [fst snd].
    apply andb_true_iff. split; apply Z.leb_le; lia.
  - intros x Hx. assert (x < hd 0 c) by (apply Hacb; [assumption | apply in_or_app; now left]).
    unfold in_range, bounds; cbn [fst snd].
    apply andb_false_iff. left. apply Z.leb_gt. lia.
Qed.

Lemma map_select_chunks : forall cs a,
  ascending (a ++ concat cs) -> Forall (fun c => c <> []) cs ->
  map (select (a ++ concat cs)) (map bounds cs) = cs.
Proof.
  induction cs as [|c cs IH]; intros a Hs Hne; [reflexivity|].
  inversion Hne as [|? ? Hc Hcs]; subst. cbn [concat map]. f_equal.
  - now apply select_sandwich.
  - rewrite app_assoc. apply IH; [now rewrite <- app_assoc | assumption].
Qed.

Lemma bounds_sorted : forall cs,
  ascending (concat cs) -> Forall (fun c => c <> []) cs ->
  StronglySorted before (map bounds cs).
Proof.
  induction cs as [|c cs IH]; intros Hs Hne; [constructor|].
  inversion Hne as [|? ? Hc Hcs]; subst. cbn [concat] in Hs.
  destruct (ascending_app_inv _ _ Hs) as (_ & Hrest & Hlt).
  cbn [map]. constructor; [now apply IH|].
  apply Forall_forall. intros r Hr. apply in_map_iff in Hr.
  destruct Hr as (c' & <- & Hc').
  unfold before, bounds; cbn [fst snd]. apply Hlt.
  - now apply last_In.
  - apply in_concat. exists c'. split; [assumption|].
    apply hd_In. rewrite Forall_forall in Hcs. now apply Hcs.
Qed.

Lemma bounds_ordered : forall cs,
  ascending (concat cs) -> Forall (fun c => c <> []) cs ->
  Forall (fun r => fst r <= snd r) (map bounds cs).
Proof.
  induction cs as [|c cs IH]; intros Hs Hne; [constructor|].
  inversion Hne as [|? ? Hc Hcs]; subst. cbn [concat] in Hs.
  destruct (ascending_app_inv _ _ Hs) as (Hc' & Hrest & _).
  cbn [map]. constructor; [|now apply IH].
  unfold bounds; cbn [fst snd].
  pose proof (ascending_between c Hc' _ (hd_In c Hc)). lia.
Qed.

(** *** Counting argument behind minimality *)

Lemma cover_count : forall rs l,
  (forall x, In x l -> exists r, In r rs /\ in_range r x = true) ->
  (length l <= counted l rs)%nat.
Proof.
  unfold counted. induction rs as [|r rs IH]; intros l Hcov.
  - destruct l as [|x l]; [reflexivity|].
    destruct (Hcov x (or_introl eq_refl)) as (r & [] & _).
  - cbn [map list_sum].
    rewrite (filter_split_length (in_range r) l).
    apply Nat.add_le_mono; [reflexivity|].
    etransitivity.
    + apply IH. intros x Hx. apply filter_In in Hx. destruct Hx as [Hx Hn].
      destruct (Hcov x Hx) as (r' & [->|Hr'] & Hin).
      * rewrite Hin in Hn. discriminate.
      * now exists r'.
    + clear. induction rs as [|r' rs IH]; [reflexivity|].
      cbn [map list_sum]. apply Nat.add_le_mono; [|exact IH].
      unfold select. apply filter_filter_length.
Qed.

Lemma counted_bound oids max_chunk_size : forall rs,
  Forall (fun r => Z.of_nat (length (select oids r)) <= max_chunk_size) rs ->
  Z.of_nat (counted oids rs) <= Z.of_nat (length rs) * max_chunk_size.
Proof.
  unfold counted. induction rs as [|r rs IH]; intros H; [cbn; lia|].
  inversion H; subst. cbn [map length].
  change (list_sum (?a :: ?b)) with (a + list_sum b)%nat.
  rewrite Nat2Z.inj_add, Nat2Z.inj_succ. specialize (IH ltac:(assumption)). lia.
Qed.

(** The partitioner is correct on ascending identifiers none of which is 0. *)
Lemma partition_correct oids max_chunk_size :
  1 <= max_chunk_size -> ascending oids -> Forall (fun x => x <> 0) oids ->
  let rs := ranges_of_oids oids max_chunk_size in
  Forall (fun r => fst r <= snd r) rs /\
  StronglySorted before rs /\
  Forall (fun r => select oids r <> [] /\
                   Z.of_nat (length (select oids r)) <= max_chunk_size) rs /\
  flat_map (select oids) rs = oids /\
  counted oids rs = length oids /\
  (forall rs', admissible oids max_chunk_size rs' -> (length rs <= length rs')%nat).
Proof.
  intros Hmax Hasc Hnz rs.
  set (m := Z.to_nat max_chunk_size).
  assert (Hm : (1 <= m)%nat) by (unfold m; lia).
  assert (Hrs : rs = map bounds (chunks m oids)).
  { unfold rs, chunks, m. now apply ranges_are_chunk_bounds_fuel. }
  assert (Hcat : concat (chunks m oids) = oids).
  { unfold chunks. now apply chunks_fuel_concat. }
  pose proof (chunks_fuel_shape m (length oids) oids Hm) as Hshape.
  fold (chunks m oids) in Hshape.
  assert (Hne : Forall (fun c => c <> []) (chunks m oids)).
  { eapply Forall_impl; [|exact Hshape]. now intros c [H _]. }
  assert (Hsel : map (select oids) rs = chunks m oids).
  { rewrite Hrs. rewrite <- Hcat at 1.
    apply (map_select_chunks (chunks m oids) []); [cbn; now rewrite Hcat | assumption]. }
  assert (Hflat : flat_map (select oids) rs = oids).
  { now rewrite flat_map_concat_map, Hsel. }
  repeat split.
  - rewrite Hrs. apply bounds_ordered; [now rewrite Hcat | assumption].
  - rewrite Hrs. apply bounds_sorted; [now rewrite Hcat | assumption].
  - rewrite <- Hsel in Hshape. rewrite Forall_map in Hshape.
    eapply Forall_impl; [|exact Hshape]. cbn. intros r [H1 H2]. split; [assumption|].
    unfold m in H2. lia.
  - exact Hflat.
  - unfold counted. rewrite <- length_flat_map. now rewrite Hflat.
  - intros rs' [Hsize Hcov].
    pose proof (cover_count rs' oids Hcov) as Hc.
    pose proof (counted_bound oids max_chunk_size rs' Hsize) as Hb.
    pose proof (chunks_fuel_count m (length oids) oids Hm (Nat.le_refl _)) as Hk.
    cbn zeta in Hk. fold (chunks m oids) in Hk.
    assert (Hlen : length rs = length (chunks m oids)) by (rewrite Hrs; apply length_map).
    rewrite <- Hlen in Hk. replace (Z.of_nat m) with max_chunk_size in Hk by (unfold m; lia).
    destruct Hk as [Hk _].
    assert (Hlt : (Z.of_nat (length rs) - 1) * max_chunk_size
                  < Z.of_nat (length rs') * max_chunk_size) by lia.
    apply Z.mul_lt_mono_pos_r in Hlt; lia.
Qed.

(** C10: the test [current_range != [0, 0]] stands for "a range is open".
    When no surviving identifier is 0, the ranges returned are the bounds of
    the consecutive chunks of [max_chunk_size] surviving identifiers, the
    last, partial chunk included; if the identifiers are ascending, the
    ranges are ordered, ascending and disjoint, each selects between 1 and
    [max_chunk_size] surviving identifiers, together they select every
    surviving identifier exactly once and no admissible list of ranges is
    shorter. When the only surviving identifier is 0 and
    [max_chunk_size >= 2], the open range [[0, 0]] is taken for the sentinel
    and the result is empty. *)
Theorem sentinel_needs_nonzero_oids input_fc max_chunk_size where_clause :
  1 <= max_chunk_size ->
  let oids := SearchCursor input_fc where_clause in
  let rs := _get_oid_ranges_for_input input_fc max_chunk_size where_clause in
  (Forall (fun x => x <> 0) oids ->
     rs = map bounds (chunks (Z.to_nat max_chunk_size) oids) /\
     (ascending oids ->
        Forall (fun r => fst r <= snd r) rs /\
        StronglySorted before rs /\
        Forall (fun r => select oids r <> [] /\
                         Z.of_nat (length (select oids r)) <= max_chunk_size) rs /\
        flat_map (select oids) rs = oids /\
        counted oids rs = length oids /\
        (forall rs', admissible oids max_chunk_size rs' ->
                     (length rs <= length rs')%nat))) /\
  (oids = [0] -> 2 <= max_chunk_size -> rs = []).
Proof.
  intros Hmax oids rs. split.
  - intros Hnz. split.
    + unfold rs, _get_oid_ranges_for_input, chunks. fold oids.
      now apply ranges_are_chunk_bounds_fuel.
    + intros Hasc. now apply partition_correct.
  - intros H0 H2. unfold rs, _get_oid_ranges_for_input. fold oids. rewrite H0.
    rewrite ranges_unfold_short by (try discriminate; cbn; lia). reflexivity.
Qed.

Lemma sentinel_needs_nonzero_oids_witness :
  let input_fc := [1; 2; 3; 4; 7; 8; 9; 12] in
  let where_clause := fun oid => negb (oid =? 4) in
  let rs := _get_oid_ranges_for_input input_fc 3 where_clause in
  rs = [(1, 3); (7, 9); (12, 12)] /\
  flat_map (select (SearchCursor input_fc where_clause)) rs = [1; 2; 3; 7; 8; 9; 12].
Proof.
  intros input_fc where_clause rs.
  assert (H1 : 1 <= 3) by lia.
  assert (H2 : ascending (SearchCursor input_fc where_clause)).
  { cbn. repeat constructor; lia. }
  assert (H3 : Forall (fun x => x <> 0) (SearchCursor input_fc where_clause)).
  { cbn. repeat constructor; lia. }
  destruct (sentinel_needs_nonzero_oids input_fc 3 where_clause H1) as [Hgood _].
  destruct (Hgood H3) as (Hrs & Hasc).
  destruct (Hasc H2) as (_ & _ & _ & Hflat & _).
  split; [exact Hrs | exact Hflat].
Defined.

(** C1: on a table whose only surviving ObjectID is 0, with room for two
    identifiers per chunk, the function returns no range at all although one
    identifier survives: the union of the ranges does not cover it. *)
Theorem oid_zero_is_dropped :
  SearchCursor [0] (fun _ => true) = [0] /\
  _get_oid_ranges_for_input [0] 2 (fun _ => true) = [] /\
  ~ admissible (SearchCursor [0] (fun _ => true)) 2
      (_get_oid_ranges_for_input [0] 2 (fun _ => true)).
Proof.
  split; [reflexivity|]. split; [reflexivity|].
  intros [_ Hcov]. destruct (Hcov 0 (or_introl eq_refl)) as (r & [] & _).
Qed.

End PartitionFacts.


(* ------------------------------------------------------------------------- *)

Module PyFacts.
Import Py.

Section Sorting.
Context {A : Type} (leb : A -> A -> bool).
Hypothesis leb_total : forall x y, leb x y = true \/ leb y x = true.
Hypothesis leb_trans : forall x y z, leb x y = true -> leb y z = true -> leb x z = true.
Hypothesis leb_antisym : forall x y, leb x y = true -> leb y x = true -> x = y.

Lemma insert_sorted_perm x l : Permutation (insert_sorted leb x l) (x :: l).
Proof.
  induction l as [|y l IH]; cbn; [reflexivity|].
  destruct (leb x y); [reflexivity|].
  rewrite IH. apply perm_swap.
Qed.

Lemma sorted_perm l : Permutation (sorted leb l) l.
Proof.
  induction l as [|x l IH]; cbn; [constructor|].
  rewrite insert_sorted_perm. now constructor.
Qed.

Lemma insert_sorted_comm x y l :
  insert_sorted leb x (insert_sorted leb y l) = insert_sorted leb y (insert_sorted leb x l).
Proof.
  induction l as [|z l IH].
  - cbn. destruct (leb x y) eqn:Exy, (leb y x) eqn:Eyx; try reflexivity.
    + now rewrite (leb_antisym x y Exy Eyx).
    + destruct (leb_total x y); congruence.
  - cbn [insert_sorted].
    destruct (leb y z) eqn:Eyz; destruct (leb x z) eqn:Exz; cbn [insert_sorted];
      rewrite ?Eyz, ?Exz.
    + destruct (leb x y) eqn:Exy, (leb y x) eqn:Eyx; try reflexivity.
      * now rewrite (leb_antisym x y Exy Eyx).
      * destruct (leb_total x y); congruence.
    + destruct (leb x y) eqn:Exy; [|reflexivity].
      rewrite (leb_trans x y z Exy Eyz) in Exz. discriminate.
    + destruct (leb y x) eqn:Eyx; [|reflexivity].
      rewrite (leb_trans y x z Eyx Exz) in Eyz. discriminate.
    + now rewrite IH.
Qed.

(** [sorted] depends on the elements of the list only, not on their order. *)
Lemma sorted_of_permutation l1 l2 :
  Permutation l1 l2 -> sorted leb l1 = sorted leb l2.
Proof.
  induction 1 as [|x l1 l2 _ IH|x y l|l1 l2 l3 _ IH1 _ IH2];
    unfold sorted in *; cbn [fold_right].
  - reflexivity.
  - now rewrite IH.
  - apply insert_sorted_comm.
  - now rewrite IH1.
Qed.
End Sorting.

Lemma string_leb_trans x y z :
  String.leb x y = true -> String.leb y z = true -> String.leb x z = true.
Proof.
  assert (Hle : forall a b, String.leb a b = true <-> a = b \/ OrderedTypeEx.String_as_OT.lt a b).
  { intros a b. unfold String.leb.
    destruct (String.compare a b) eqn:E.
    - apply OrderedTypeEx.String_as_OT.cmp_eq in E. tauto.
    - apply OrderedTypeEx.String_as_OT.cmp_lt in E. tauto.
    - split; [discriminate|]. intros [->|H].
      + assert (E' : OrderedTypeEx.String_as_OT.cmp b b = Eq)
          by now apply OrderedTypeEx.String_as_OT.cmp_eq.
        unfold OrderedTypeEx.String_as_OT.cmp in E'. congruence.
      + apply OrderedTypeEx.String_as_OT.cmp_lt in H.
        unfold OrderedTypeEx.String_as_OT.cmp in H. congruence. }
  intros H1 H2. apply Hle in H1. apply Hle in H2. apply Hle.
  destruct H1 as [->|H1]; [assumption|]. destruct H2 as [<-|H2]; [now right|].
  right. eapply OrderedTypeEx.String_as_OT.lt_trans; eassumption.
Qed.

Lemma sorted_paths l1 l2 :
  Permutation l1 l2 -> sorted String.leb l1 = sorted String.leb l2.
Proof.
  apply sorted_of_permutation.
  - apply String.leb_total.
  - apply string_leb_trans.
  - apply String.leb_antisym.
Qed.

End PyFacts.

(* ------------------------------------------------------------------------- *)

Module SchedulerFacts.
Import ODCM Scheduler.

Lemma progress_files total st :
  loop_od_line_files (progress total st) = loop_od_line_files st.
Proof. reflexivity. Qed.

Lemma store_result_files st result :
  loop_od_line_files (store_result st result) =
  loop_od_line_files st ++ (if solveSucceeded result then [outputLines result] else []).
Proof.
  unfold store_result. destruct (solveSucceeded result); cbn; [reflexivity|].
  now rewrite app_nil_r.
Qed.

Lemma filter_calls_app l1 l2 :
  filter is_aggregator_call l2 = [] ->
  filter is_aggregator_call (l1 ++ l2) = filter is_aggregator_call l1.
Proof. intros H. now rewrite filter_app, H, app_nil_r. Qed.

Lemma filter_calls_logs lines :
  filter is_aggregator_call (map (Log ERROR) lines) = [].
Proof. induction lines; [reflexivity | assumption]. Qed.

Lemma step_calls total st result :
  filter is_aggregator_call (loop_events (store_result (progress total st) result)) =
  filter is_aggregator_call (loop_events st).
Proof.
  unfold store_result, progress. destruct (solveSucceeded result); cbn [loop_events].
  - now apply filter_calls_app.
  - rewrite <- app_assoc. now apply filter_calls_app.
Qed.

(** The loop hands on the first exception and nothing else. *)
Lemma as_completed_raises total : forall pre e post st,
  existsb raises pre = false ->
  exists st',
    as_completed total (pre ++ inl e :: post) st = (st', Some e) /\
    (exists before,
       loop_events st' =
       before ++ Log ERROR "Failed to get OD Cost Matrix result from parallel processing."
              :: map (Log ERROR) (format_exc e)) /\
    filter is_aggregator_call (loop_events st') = filter is_aggregator_call (loop_events st) /\
    loop_od_line_files st' = loop_od_line_files st ++ successful_files pre.
Proof.
  induction pre as [|future pre IH]; intros e post st Hpre.
  - cbn [app as_completed]. eexists. split; [reflexivity|]. cbn [loop_events loop_od_line_files].
    repeat split.
    + eexists. reflexivity.
    + unfold progress; cbn [loop_events]. rewrite !filter_app. cbn.
      now rewrite filter_calls_logs, !app_nil_r.
    + cbn. now rewrite app_nil_r.
  - destruct future as [e'|result]; [discriminate|]. cbn in Hpre.
    cbn [app as_completed].
    destruct (IH e post (store_result (progress total st) result) Hpre)
      as (st' & Hrun & Hev & Hcalls & Hfiles).
    exists st'. repeat split; try assumption.
    + now rewrite Hcalls, step_calls.
    + rewrite Hfiles, store_result_files, progress_files. cbn [successful_files flat_map].
      now rewrite <- app_assoc.
Qed.

(** Without an exception the loop collects the successful result files. *)
Lemma as_completed_returns total : forall jobs st,
  existsb raises jobs = false ->
  exists st',
    as_completed total jobs st = (st', None) /\
    filter is_aggregator_call (loop_events st') = filter is_aggregator_call (loop_events st) /\
    loop_od_line_files st' = loop_od_line_files st ++ successful_files jobs.
Proof.
  induction jobs as [|future jobs IH]; intros st Hjobs.
  - exists st. cbn. now rewrite app_nil_r.
  - destruct future as [e'|result]; [discriminate|]. cbn in Hjobs.
    cbn [as_completed].
    destruct (IH (store_result (progress total st) result) Hjobs)
      as (st' & Hrun & Hcalls & Hfiles).
    exists st'. repeat split; try assumption.
    + now rewrite Hcalls, step_calls.
    + rewrite Hfiles, store_result_files, progress_files. cbn [successful_files flat_map].
      now rewrite <- app_assoc.
Qed.

Lemma first_raise : forall jobs,
  existsb raises jobs = true ->
  exists pre e post, jobs = pre ++ inl e :: post /\ existsb raises pre = false.
Proof.
  induction jobs as [|future jobs IH]; intros H; [discriminate|].
  destruct future as [e|result].
  - exists [], e, jobs. now split.
  - cbn in H. destruct (IH H) as (pre & e & post & -> & Hpre).
    exists (inr result :: pre), e, post. now split.
Qed.

Lemma existsb_permutation {A} (f : A -> bool) l1 l2 :
  Permutation l1 l2 -> existsb f l1 = existsb f l2.
Proof.
  induction 1; cbn; try congruence.
  - destruct (f x), (f y); reflexivity.
Qed.

Lemma post_process_aggregated self disk st :
  aggregated (post_process self disk st) = aggregate self disk (loop_od_line_files st) /\
  raised (post_process self disk st) = None /\
  filter is_aggregator_call (events (post_process self disk st)) =
  filter is_aggregator_call (loop_events st) ++ aggregator_calls self (loop_od_line_files st).
Proof.
  assert (Hw : filter is_aggregator_call (written_elsewhere self ++ cleanup self) = []).
  { unfold written_elsewhere. now destruct (_ =? _)%string. }
  unfold post_process, aggregate, aggregator_calls, aggregated.
  destruct (loop_od_line_files st) as [|f files].
  - cbn. repeat split. rewrite filter_app. cbn. reflexivity.
  - destruct (tool self); cbn [origins_fields out_csv raised events]; repeat split;
      rewrite filter_app; cbn [filter is_aggregator_call app]; now rewrite Hw.
Qed.

Lemma aggregate_permutation self disk files1 files2 :
  Permutation files1 files2 ->
  aggregate self disk files1 = aggregate self disk files2 /\
  aggregator_calls self files1 = aggregator_calls self files2.
Proof.
  intros Hp. unfold aggregate, aggregator_calls.
  destruct files1 as [|f1 files1].
  - apply Permutation_nil in Hp. now subst.
  - destruct files2 as [|f2 files2].
    + apply Permutation_sym, Permutation_nil in Hp. discriminate.
    + now rewrite (PyFacts.sorted_paths _ _ Hp).
Qed.

(** A run that was not stopped by an exception aggregates the successful
    result files, whatever the order of completion. *)
Lemma run_returns self disk jobs :
  existsb raises jobs = false ->
  let r := solve_od_in_parallel self disk None jobs in
  raised r = None /\
  aggregated r = aggregate self disk (od_line_files self ++ successful_files jobs) /\
  filter is_aggregator_call (events r) =
  aggregator_calls self (od_line_files self ++ successful_files jobs).
Proof.
  intros Hjobs. cbn zeta. unfold solve_od_in_parallel.
  match goal with |- context [as_completed ?t jobs ?s] =>
    destruct (as_completed_returns t jobs s Hjobs) as (st' & -> & Hcalls & Hfiles) end.
  cbn [loop_od_line_files loop_events] in Hcalls, Hfiles.
  destruct (post_process_aggregated self disk st') as (Hagg & Hr & Hev).
  rewrite Hagg, Hr, Hev, Hcalls, Hfiles. now repeat split.
Qed.

Lemma run_raises self disk pre e post :
  existsb raises pre = false ->
  let r := solve_od_in_parallel self disk None (pre ++ inl e :: post) in
  raised r = Some e /\
  aggregated r = (None, None) /\
  filter is_aggregator_call (events r) = [] /\
  final_od_line_files r = od_line_files self ++ successful_files pre /\
  exists before,
    events r = before ++ Log ERROR "Failed to get OD Cost Matrix result from parallel processing."
                      :: map (Log ERROR) (format_exc e).
Proof.
  intros Hpre. cbn zeta. unfold solve_od_in_parallel.
  match goal with |- context [as_completed ?t _ ?s] =>
    destruct (as_completed_raises t pre e post s Hpre) as (st' & -> & Hev & Hcalls & Hfiles) end.
  cbn [loop_od_line_files loop_events] in Hcalls, Hfiles.
  cbn [raised events final_od_line_files]. unfold aggregated. cbn [origins_fields out_csv].
  now repeat split.
Qed.

Lemma successful_files_skip pre result post :
  solveSucceeded result = false ->
  successful_files (pre ++ inr result :: post) = successful_files (pre ++ post).
Proof.
  intros H. unfold successful_files. rewrite !flat_map_app. cbn [flat_map].
  now rewrite H.
Qed.

(** A failed solve leaves a run as it would be without it. *)
Lemma run_skip_failed self disk validation pre result post :
  solveSucceeded result = false ->
  let r1 := solve_od_in_parallel self disk validation (pre ++ inr result :: post) in
  let r2 := solve_od_in_parallel self disk validation (pre ++ post) in
  aggregated r1 = aggregated r2 /\
  final_od_line_files r1 = final_od_line_files r2 /\
  raised r1 = raised r2.
Proof.
  intros Hfail. cbn zeta. destruct validation as [e|]; [now repeat split|].
  destruct (existsb raises pre) eqn:Hpre.
  - destruct (first_raise pre Hpre) as (p1 & e & p2 & -> & Hp1).
    rewrite <- !app_assoc. cbn [app].
    destruct (run_raises self disk p1 e (p2 ++ inr result :: post) Hp1) as (-> & -> & _ & -> & _).
    destruct (run_raises self disk p1 e (p2 ++ post) Hp1) as (-> & -> & _ & -> & _).
    now repeat split.
  - destruct (existsb raises post) eqn:Hpost.
    + destruct (first_raise post Hpost) as (q1 & e & q2 & -> & Hq1).
      assert (H1 : existsb raises (pre ++ inr result :: q1) = false).
      { rewrite existsb_app. cbn. now rewrite Hpre, Hq1. }
      assert (H2 : existsb raises (pre ++ q1) = false).
      { rewrite existsb_app. now rewrite Hpre, Hq1. }
      replace (pre ++ inr result :: q1 ++ inl e :: q2)
        with ((pre ++ inr result :: q1) ++ inl e :: q2) by now rewrite <- app_assoc.
      replace (pre ++ q1 ++ inl e :: q2)
        with ((pre ++ q1) ++ inl e :: q2) by now rewrite <- app_assoc.
      destruct (run_raises self disk _ e q2 H1) as (-> & -> & _ & -> & _).
      destruct (run_raises self disk _ e q2 H2) as (-> & -> & _ & -> & _).
      rewrite successful_files_skip by assumption. now repeat split.
    + assert (H1 : existsb raises (pre ++ inr result :: post) = false).
      { rewrite existsb_app. cbn. now rewrite Hpre, Hpost. }
      assert (H2 : existsb raises (pre ++ post) = false).
      { rewrite existsb_app. now rewrite Hpre, Hpost. }
      unfold solve_od_in_parallel.
      match goal with |- context [as_completed ?t (pre ++ inr result :: post) ?s] =>
        destruct (as_completed_returns t _ s H1) as (s1 & -> & _ & Hf1);
        destruct (as_completed_returns t _ s H2) as (s2 & -> & _ & Hf2) end.
      rewrite successful_files_skip in Hf1 by assumption. rewrite <- Hf2 in Hf1.
      destruct (post_process_aggregated self disk s1) as (-> & -> & _).
      destruct (post_process_aggregated self disk s2) as (-> & -> & _).
      rewrite Hf1. repeat split.
      unfold post_process. rewrite Hf1. destruct (loop_od_line_files s2); [reflexivity|].
      now destruct (tool self).
Qed.

(** C3: the aggregated output of a run (the statistic fields written to the
    Origins table and the rows of the output CSV file) and the sorted file
    list handed to the aggregator are the same for any two completion orders
    of the same futures. *)
Theorem completion_order_is_irrelevant self disk validation jobs1 jobs2 :
  Permutation jobs1 jobs2 ->
  aggregated (solve_od_in_parallel self disk validation jobs1) =
  aggregated (solve_od_in_parallel self disk validation jobs2) /\
  filter is_aggregator_call (events (solve_od_in_parallel self disk validation jobs1)) =
  filter is_aggregator_call (events (solve_od_in_parallel self disk validation jobs2)).
Proof.
  intros Hp. destruct validation as [e|]; [now split|].
  pose proof (existsb_permutation raises _ _ Hp) as Hex.
  destruct (existsb raises jobs1) eqn:H1; symmetry in Hex.
  - destruct (first_raise jobs1 H1) as (p1 & e1 & q1 & -> & Hp1).
    destruct (first_raise jobs2 Hex) as (p2 & e2 & q2 & -> & Hp2).
    destruct (run_raises self disk p1 e1 q1 Hp1) as (_ & -> & -> & _).
    destruct (run_raises self disk p2 e2 q2 Hp2) as (_ & -> & -> & _).
    now split.
  - destruct (run_returns self disk jobs1 H1) as (_ & -> & ->).
    destruct (run_returns self disk jobs2 Hex) as (_ & -> & ->).
    apply aggregate_permutation. apply Permutation_app_head.
    unfold successful_files. now apply Permutation_flat_map.
Qed.

(** C7: when the result of a future cannot be retrieved, the run stops at the
    first such future in completion order: the traceback is logged line by
    line at ERROR severity after the message that the result could not be
    retrieved, that very exception is raised, and no aggregator is called. *)
Theorem unretrievable_result_is_fatal self disk jobs :
  existsb raises jobs = true ->
  exists pre e post,
    jobs = pre ++ inl e :: post /\ existsb raises pre = false /\
    let r := solve_od_in_parallel self disk None jobs in
    raised r = Some e /\
    (exists before,
       events r =
       before ++ Log ERROR "Failed to get OD Cost Matrix result from parallel processing."
              :: map (Log ERROR) (format_exc e)) /\
    aggregated r = (None, None) /\
    filter is_aggregator_call (events r) = [].
Proof.
  intros H. destruct (first_raise jobs H) as (pre & e & post & -> & Hpre).
  exists pre, e, post. split; [reflexivity|]. split; [assumption|].
  destruct (run_raises self disk pre e post Hpre) as (Hr & Hagg & Hcalls & _ & Hev).
  cbn zeta. now repeat split.
Qed.

(** C9: when every result is retrieved and no result file was produced, the
    run raises nothing, calls no aggregator, writes no output and logs the
    warning that all solves failed. *)
Theorem all_solves_failed_warns self disk jobs :
  existsb raises jobs = false ->
  od_line_files self ++ successful_files jobs = [] ->
  let r := solve_od_in_parallel self disk None jobs in
  raised r = None /\
  filter is_aggregator_call (events r) = [] /\
  In (Log WARNING "All OD Cost Matrix solves failed, so no output was produced.") (events r) /\
  aggregated r = (None, None) /\
  final_od_line_files r = [].
Proof.
  intros Hjobs Hnone. cbn zeta.
  destruct (run_returns self disk jobs Hjobs) as (Hr & Hagg & Hcalls).
  rewrite Hnone in Hagg, Hcalls. repeat split; try assumption.
  - unfold solve_od_in_parallel.
    match goal with |- context [as_completed ?t jobs ?s] =>
      destruct (as_completed_returns t jobs s Hjobs) as (st' & -> & _ & Hfiles) end.
    cbn [loop_od_line_files] in Hfiles. rewrite Hnone in Hfiles.
    unfold post_process. rewrite Hfiles. cbn [events].
    apply in_or_app. right. now left.
  - unfold solve_od_in_parallel.
    match goal with |- context [as_completed ?t jobs ?s] =>
      destruct (as_completed_returns t jobs s Hjobs) as (st' & -> & _ & Hfiles) end.
    cbn [loop_od_line_files] in Hfiles. rewrite Hnone in Hfiles.
    unfold post_process. now rewrite Hfiles.
Qed.

(** C4: when the routing engine reports failure, the worker hands back a
    dictionary with [solveSucceeded] false, the consolidated solver messages
    and an empty [outputLines], and leaves the disk as it was; the scheduler
    stores no path for it and logs the failure at DEBUG severity only; the
    run ends as it would without that job: same aggregated output, same file
    list, same exception if any. *)
Theorem failed_solve_is_absorbed job_id scratch_folder od_output_location disk chunk
    solve_result :
  sr_solveSucceeded solve_result = false ->
  let worked :=
    solve_od_cost_matrix job_id scratch_folder od_output_location disk chunk solve_result in
  let result := fst worked in
  (jobId result = job_id /\
   solveSucceeded result = false /\
   solveMessages result = snd (handle_messages (solverMessages solve_result)) /\
   outputLines result = EmptyString /\
   snd worked = disk) /\
  (forall st,
     loop_od_line_files (store_result st result) = loop_od_line_files st /\
     loop_events (store_result st result) =
     loop_events st ++ [Log DEBUG ("Solve failed for job id " ++ job_id ++ ".");
                        Log DEBUG (solveMessages result)]) /\
  (forall self disk0 validation pre post,
     let r1 := solve_od_in_parallel self disk0 validation (pre ++ inr result :: post) in
     let r2 := solve_od_in_parallel self disk0 validation (pre ++ post) in
     aggregated r1 = aggregated r2 /\
     final_od_line_files r1 = final_od_line_files r2 /\
     raised r1 = raised r2).
Proof.
  intros Hfail worked result.
  assert (Hw : (jobId result = job_id /\
                solveSucceeded result = false /\
                solveMessages result = snd (handle_messages (solverMessages solve_result)) /\
                outputLines result = EmptyString /\
                snd worked = disk)).
  { unfold result, worked, solve_od_cost_matrix. destruct chunk as [[o d] t].
    unfold solve. destruct (handle_messages (solverMessages solve_result)) as [logged msgs].
    rewrite Hfail. cbn. now repeat split. }
  destruct Hw as (Hid & Hs & Hm & Ho & Hd).
  split; [now repeat split|]. split.
  - intros st. unfold store_result. rewrite Hs, Hid. now split.
  - intros self disk0 validation pre post. now apply run_skip_failed.
Qed.

Lemma completion_order_is_irrelevant_witness :
  let self :=
    mkCalc CalculateAccessibilityMatrix [1; 2]
           [Accessibility.mkDest 1 None; Accessibility.mkDest 2 None] None [0; 1]
           [(1, 2)] "scratch" "scratch" 2 [] in
  let disk : Disk := fun p =>
    if (p =? "b")%string then Some [TravelTime.mkLine 1 1 0]
    else if (p =? "a")%string
         then Some [TravelTime.mkLine 1 1 0; TravelTime.mkLine 1 2 0]
         else None in
  let j1 : Future := inr (mkJobResult "j1" true EmptyString "b" "j1.log") in
  let j2 : Future := inr (mkJobResult "j2" true EmptyString "a" "j2.log") in
  aggregated (solve_od_in_parallel self disk None [j1; j2]) =
  aggregated (solve_od_in_parallel self disk None [j2; j1]).
Proof.
  intros self disk j1 j2.
  exact (proj1 (completion_order_is_irrelevant self disk None [j1; j2] [j2; j1]
                  (perm_swap j2 j1 []))).
Defined.

Lemma unretrievable_result_is_fatal_witness :
  let self :=
    mkCalc CalculateTravelTimeStatistics [1] [Accessibility.mkDest 1 None] None [0]
           [(1, 1)] "scratch" "scratch" 3 [] in
  let boom := mkExn "BrokenProcessPool" ["Traceback (most recent call last):"; "boom"]%string in
  let jobs : list Future :=
    [inr (mkJobResult "j1" true EmptyString "a" "j1.log"); inl boom;
     inr (mkJobResult "j3" true EmptyString "c" "j3.log")] in
  exists pre e post,
    jobs = pre ++ inl e :: post /\ existsb raises pre = false /\
    raised (solve_od_in_parallel self (fun _ => None) None jobs) = Some e.
Proof.
  intros self boom jobs.
  destruct (unretrievable_result_is_fatal self (fun _ => None) jobs eq_refl)
    as (pre & e & post & Hjobs & Hpre & Hr & _).
  exists pre, e, post. repeat split; assumption.
Defined.

Lemma all_solves_failed_warns_witness :
  let self :=
    mkCalc CalculateAccessibilityMatrix [1] [Accessibility.mkDest 1 None] None [0]
           [(1, 1)] "scratch" "scratch" 1 [] in
  let jobs : list Future := [inr (mkJobResult "j1" false "No route" EmptyString "j1.log")] in
  raised (solve_od_in_parallel self (fun _ => None) None jobs) = None /\
  aggregated (solve_od_in_parallel self (fun _ => None) None jobs) = (None, None).
Proof.
  intros self jobs.
  destruct (all_solves_failed_warns self (fun _ => None) jobs eq_refl eq_refl)
    as (Hr & _ & _ & Hagg & _).
  split; assumption.
Defined.

Lemma failed_solve_is_absorbed_witness :
  let solve_result :=
    mkSolveResult false
      [(common_msg_prefix ++ "Location 1")%string; "Solve failed."%string;
       (common_msg_prefix ++ "Location 2")%string] [] in
  let worked :=
    solve_od_cost_matrix "j1" "scratch" "scratch" (fun _ => None)
                         ((1, 10), (1, 20), "20220428_091500"%string) solve_result in
  solveSucceeded (fst worked) = false /\
  solveMessages (fst worked) =
    ("Solve failed." ++ newline ++ "No destinations were found for 2 origins.")%string /\
  outputLines (fst worked) = EmptyString.
Proof.
  intros solve_result worked.
  destruct (failed_solve_is_absorbed "j1" "scratch" "scratch" (fun _ => None)
              ((1, 10), (1, 20), "20220428_091500"%string) solve_result eq_refl)
    as ((_ & Hs & Hm & Ho & _) & _).
  split; [exact Hs | split; [| exact Ho]].
  etransitivity; [exact Hm | reflexivity].
Defined.

End SchedulerFacts.

(* ------------------------------------------------------------------------- *)

Module FrameFacts.
Import Frame.

Section Unique.
Context {K : Type} (keqb : K -> K -> bool).
Hypothesis keqb_eq : forall a b, keqb a b = true <-> a = b.

Lemma unique_In k ks : In k (unique keqb ks) <-> In k ks.
Proof.
  induction ks as [|a ks IH]; cbn; [tauto|]. split.
  - intros [->|H]; [now left|]. apply filter_In in H. right. now apply IH.
  - intros [->|H]; [now left|].
    destruct (keqb a k) eqn:E.
    + left. now apply keqb_eq.
    + right. apply filter_In. split; [now apply IH | now rewrite E].
Qed.

Lemma unique_NoDup ks : NoDup (unique keqb ks).
Proof.
  induction ks as [|a ks IH]; cbn; constructor.
  - intros H. apply filter_In in H. destruct H as [_ H].
    rewrite (proj2 (keqb_eq a a) eq_refl) in H. discriminate.
  - now apply NoDup_filter.
Qed.

End Unique.

Section GroupBy.
Context {K V : Type} (keqb kleb : K -> K -> bool).
Hypothesis keqb_eq : forall a b, keqb a b = true <-> a = b.

Lemma groupby_keys (rows : list (K * V)) :
  map fst (groupby keqb kleb rows) = Py.sorted kleb (unique keqb (map fst rows)).
Proof. unfold groupby. rewrite map_map. cbn. apply map_id. Qed.

Lemma groupby_NoDup (rows : list (K * V)) : NoDup (map fst (groupby keqb kleb rows)).
Proof.
  rewrite groupby_keys.
  eapply Permutation_NoDup; [symmetry; apply PyFacts.sorted_perm | apply unique_NoDup, keqb_eq].
Qed.

Lemma groupby_key_In (rows : list (K * V)) k :
  In k (map fst (groupby keqb kleb rows)) <-> In k (map fst rows).
Proof.
  rewrite groupby_keys. split; intros H.
  - apply (unique_In keqb keqb_eq). eapply Permutation_in; [apply PyFacts.sorted_perm | exact H].
  - eapply Permutation_in; [symmetry; apply PyFacts.sorted_perm | now apply (unique_In keqb keqb_eq)].
Qed.

(** The group of a key holds the values of the rows with that key. *)
Lemma groupby_In (rows : list (K * V)) k vs :
  In (k, vs) (groupby keqb kleb rows) <->
  In k (map fst rows) /\ vs = map snd (filter (fun r => keqb (fst r) k) rows).
Proof.
  unfold groupby. rewrite in_map_iff. split.
  - intros (k' & E & H). inversion E; subst. split; [|reflexivity].
    apply (unique_In keqb keqb_eq). eapply Permutation_in; [apply PyFacts.sorted_perm | exact H].
  - intros [H ->]. exists k. split; [reflexivity|].
    eapply Permutation_in; [symmetry; apply PyFacts.sorted_perm | now apply (unique_In keqb keqb_eq)].
Qed.

Lemma assoc_In (l : list (K * V)) k v :
  NoDup (map fst l) -> In (k, v) l -> assoc keqb k l = Some v.
Proof.
  induction l as [|[k' v'] l IH]; intros Hnd Hin; [destruct Hin|].
  cbn in *. inversion Hnd as [|? ? Hk Hl]; subst. destruct Hin as [E|Hin].
  - inversion E; subst. now rewrite (proj2 (keqb_eq k k) eq_refl).
  - destruct (keqb k k') eqn:E; [|now apply IH].
    apply keqb_eq in E. subst. exfalso. apply Hk.
    change k' with (fst (k', v)). now apply in_map.
Qed.

Lemma assoc_None (l : list (K * V)) k :
  ~ In k (map fst l) -> assoc keqb k l = None.
Proof.
  induction l as [|[k' v'] l IH]; intros Hn; [reflexivity|].
  cbn in *. destruct (keqb k k') eqn:E.
  - apply keqb_eq in E. subst. exfalso. apply Hn. now left.
  - apply IH. intros H. apply Hn. now right.
Qed.

(** With distinct keys, the rows of a key are one row or none. *)
Lemma filter_key_In (l : list (K * V)) k v :
  NoDup (map fst l) -> In (k, v) l ->
  filter (fun r => keqb (fst r) k) l = [(k, v)].
Proof.
  induction l as [|[k' v'] l IH]; intros Hnd Hin; [destruct Hin|].
  cbn in *. inversion Hnd as [|? ? Hk Hl]; subst. destruct Hin as [E|Hin].
  - inversion E; subst. rewrite (proj2 (keqb_eq k k) eq_refl). f_equal.
    apply PartitionFacts.filter_none. intros [k2 v2] H2. cbn.
    destruct (keqb k2 k) eqn:E2; [|reflexivity].
    apply keqb_eq in E2. subst. exfalso. apply Hk.
    change k with (fst (k, v2)). now apply in_map.
  - destruct (keqb k' k) eqn:E; [|now apply IH].
    apply keqb_eq in E. subst. exfalso. apply Hk.
    change k with (fst (k, v)). now apply in_map.
Qed.

Lemma filter_key_None (l : list (K * V)) k :
  ~ In k (map fst l) -> filter (fun r => keqb (fst r) k) l = [].
Proof.
  intros Hn. apply PartitionFacts.filter_none. intros [k' v'] H. cbn.
  destruct (keqb k' k) eqn:E; [|reflexivity].
  apply keqb_eq in E. subst. exfalso. apply Hn.
  change k with (fst (k, v')). now apply in_map.
Qed.
End GroupBy.

Lemma pair_eqb_eq a b : pair_eqb a b = true <-> a = b.
Proof.
  unfold pair_eqb. destruct a as [a1 a2], b as [b1 b2]. cbn.
  rewrite andb_true_iff, !Z.eqb_eq. split; [intros [-> ->]; reflexivity|].
  intros E. inversion E. now split.
Qed.

Lemma pair_dec (a b : Z * Z) : {a = b} + {a <> b}.
Proof. decide equality; apply Z.eq_dec. Qed.

Lemma Qsum_cons x l : Qsum (x :: l) = (x + Qsum l)%Q.
Proof. reflexivity. Qed.

Lemma Qsum_permutation l1 l2 : Permutation l1 l2 -> (Qsum l1 == Qsum l2)%Q.
Proof.
  induction 1 as [|x l1 l2 _ IH|x y l|l1 l2 l3 _ IH1 _ IH2]; rewrite ?Qsum_cons.
  - reflexivity.
  - now rewrite IH.
  - ring.
  - now rewrite IH1.
Qed.

Lemma Qsum_nonneg l : Forall (fun q => 0 <= q)%Q l -> (0 <= Qsum l)%Q.
Proof.
  induction 1 as [|x l Hx _ IH]; [apply Qle_refl|]. rewrite Qsum_cons.
  replace 0%Q with (0 + 0)%Q by reflexivity. now apply Qplus_le_compat.
Qed.

(** Restricting a sum of non-negative terms can only lower it. *)
Lemma Qsum_filter_mono {A} (f : A -> Q) (P P' : A -> bool) l :
  (forall x, P' x = true -> P x = true) ->
  (forall x, In x l -> 0 <= f x)%Q ->
  (Qsum (map f (filter P' l)) <= Qsum (map f (filter P l)))%Q.
Proof.
  intros Himp. induction l as [|x l IH]; intros Hpos; [apply Qle_refl|].
  assert (IH' : (Qsum (map f (filter P' l)) <= Qsum (map f (filter P l)))%Q).
  { apply IH. intros y Hy. apply Hpos. now right. }
  assert (Hx : (0 <= f x)%Q) by (apply Hpos; now left).
  cbn [filter]. destruct (P' x) eqn:E'.
  - rewrite (Himp x E'). cbn [map]. rewrite !Qsum_cons.
    apply Qplus_le_compat; [apply Qle_refl | assumption].
  - destruct (P x); cbn [map]; [|assumption]. rewrite Qsum_cons.
    rewrite <- (Qplus_0_l (Qsum (map f (filter P' l)))).
    now apply Qplus_le_compat.
Qed.

Lemma Zsum_ones {A} (l : list A) : Zsum (map (fun _ => 1) l) = Z.of_nat (length l).
Proof.
  induction l as [|x l IH]; [reflexivity|].
  cbn [map Zsum fold_right length]. fold (Zsum (map (fun _ : A => 1) l)). rewrite IH. lia.
Qed.

Lemma Zsum_app l1 l2 : Zsum (l1 ++ l2) = Zsum l1 + Zsum l2.
Proof.
  induction l1 as [|x l1 IH]; [reflexivity|].
  cbn [app Zsum fold_right]. fold (Zsum (l1 ++ l2)). fold (Zsum l1). rewrite IH. lia.
Qed.

Lemma NoDup_map_on {A B} (f : A -> B) l :
  (forall x y, In x l -> In y l -> f x = f y -> x = y) ->
  NoDup l -> NoDup (map f l).
Proof.
  induction l as [|a l IH]; intros Hinj Hnd; [constructor|].
  inversion Hnd as [|? ? Ha Hl]; subst. cbn. constructor.
  - intros H. apply in_map_iff in H. destruct H as (y & E & Hy).
    assert (y = a) by (apply Hinj; [now right | now left | assumption]).
    subst. contradiction.
  - apply IH; [|assumption]. intros x y Hx Hy. apply Hinj; now right.
Qed.

End FrameFacts.

(* ------------------------------------------------------------------------- *)

Module AccessibilityFacts.
Import Frame FrameFacts Accessibility.

Lemma occurrences_app p l1 l2 :
  occurrences p (l1 ++ l2) = occurrences p l1 + occurrences p l2.
Proof. unfold occurrences. rewrite filter_app, length_app. lia. Qed.

Lemma occurrences_absent p l : ~ In p l -> occurrences p l = 0.
Proof.
  intros H. unfold occurrences. rewrite PartitionFacts.filter_none; [reflexivity|].
  intros q Hq. destruct (pair_eqb q p) eqn:E; [|reflexivity].
  apply pair_eqb_eq in E. now subst.
Qed.

(** A file lists a pair once at most. *)
Lemma occurrences_NoDup p l :
  NoDup l ->
  occurrences p l = if existsb (fun q => pair_eqb q p) l then 1 else 0.
Proof.
  unfold occurrences. induction l as [|q l IH]; intros Hnd; [reflexivity|].
  inversion Hnd as [|? ? Hq Hl]; subst. cbn [filter existsb].
  destruct (pair_eqb q p) eqn:E; [|now apply IH].
  apply pair_eqb_eq in E. subst. cbn [orb length].
  pose proof (occurrences_absent p l Hq) as H0. unfold occurrences in H0.
  rewrite Nat2Z.inj_succ, H0. reflexivity.
Qed.

Lemma read_od_file_keys i f : map fst (read_od_file i f) = read_csv i f.
Proof. unfold read_od_file. rewrite map_map. apply map_id. Qed.

Lemma read_od_file_counts i f p :
  Zsum (map snd (filter (fun r => pair_eqb (fst r) p) (read_od_file i f))) =
  occurrences p (read_csv i f).
Proof.
  unfold read_od_file, occurrences.
  induction (read_csv i f) as [|q l IH]; [reflexivity|].
  cbn [map filter fst]. destruct (pair_eqb q p); [|exact IH].
  cbn [map snd length]. rewrite Nat2Z.inj_succ, <- IH.
  change (Zsum (1 :: ?l)) with (1 + Zsum l). lia.
Qed.

Lemma groupby_sum_keys rows :
  map fst (groupby_sum rows) = map fst (groupby pair_eqb pair_leb rows).
Proof. unfold groupby_sum. now rewrite map_map. Qed.

(** One more file: the index follows the lines read, and so do the counts. *)
Lemma accumulate_step i r f lines :
  keys_ok r lines ->
  let r' := groupby_sum (r ++ read_od_file i f) in
  keys_ok r' (lines ++ read_csv i f) /\
  (counts_ok r lines -> counts_ok r' (lines ++ read_csv i f)).
Proof.
  intros Hk r'. split.
  - intros p. unfold r'. rewrite groupby_sum_keys.
    rewrite (groupby_key_In pair_eqb pair_leb pair_eqb_eq).
    rewrite map_app, read_od_file_keys, !in_app_iff, (Hk p). tauto.
  - intros [Hnd Hc]. split.
    + unfold r'. rewrite groupby_sum_keys. apply groupby_NoDup, pair_eqb_eq.
    + intros p t Hin. unfold r', groupby_sum in Hin.
      apply in_map_iff in Hin. destruct Hin as ([k vs] & E & Hg). cbn in E.
      inversion E; subst; clear E.
      apply (groupby_In pair_eqb pair_leb pair_eqb_eq) in Hg. destruct Hg as [_ ->].
      rewrite filter_app, map_app, Zsum_app, read_od_file_counts, occurrences_app.
      f_equal.
      destruct (in_dec pair_dec p (map fst r)) as [Hp|Hp].
      * apply in_map_iff in Hp. destruct Hp as ([p' t0] & E & Hr). cbn in E. subst p'.
        rewrite (filter_key_In pair_eqb pair_eqb_eq r p t0 Hnd Hr).
        cbn. rewrite (Hc p t0 Hr). lia.
      * rewrite (filter_key_None pair_eqb pair_eqb_eq r p Hp). cbn.
        symmetry. apply occurrences_absent. intros H. apply Hp. now apply Hk.
Qed.

Lemma accumulate_fold i : forall files r lines,
  keys_ok r lines ->
  exists r',
    fold_left (accumulate i) files (Some r) = Some r' /\
    keys_ok r' (lines ++ flat_map (read_csv i) files) /\
    (counts_ok r lines -> counts_ok r' (lines ++ flat_map (read_csv i) files)).
Proof.
  induction files as [|f files IH]; intros r lines Hk.
  - exists r. cbn. rewrite app_nil_r. tauto.
  - cbn [fold_left accumulate flat_map].
    pose proof (accumulate_step i r f lines Hk) as Hstep. cbn zeta in Hstep.
    destruct Hstep as [Hk' Hc'].
    destruct (IH _ _ Hk') as (r' & E & Hk2 & Hc2).
    exists r'. rewrite app_assoc. split; [exact E|]. split; [exact Hk2|].
    intros Hc. apply Hc2, Hc', Hc.
Qed.

(** After the loop [result_df] is indexed by the pairs of the result files;
    when no file lists a pair twice, [TimesReached] is the number of lines of
    the pair. *)
Lemma combined_results_spec i :
  od_line_files i <> [] ->
  exists r,
    combined_results i = Some r /\
    keys_ok r (all_lines i) /\
    ((forall f, In f (od_line_files i) -> NoDup (read_csv i f)) ->
     counts_ok r (all_lines i)).
Proof.
  unfold combined_results, all_lines.
  destruct (od_line_files i) as [|f files]; [congruence|]. intros _.
  cbn [fold_left accumulate flat_map].
  assert (Hk : keys_ok (read_od_file i f) (read_csv i f)).
  { intros p. rewrite read_od_file_keys. tauto. }
  destruct (accumulate_fold i files _ _ Hk) as (r & E & Hk' & Hc').
  exists r. split; [exact E|]. split; [exact Hk'|].
  intros Hnd. apply Hc'. split.
  - rewrite read_od_file_keys. apply Hnd. now left.
  - intros p t Hin. unfold read_od_file in Hin. apply in_map_iff in Hin.
    destruct Hin as (q & Eq & Hq). inversion Eq; subst.
    rewrite occurrences_NoDup by (apply Hnd; now left).
    replace (existsb (fun q => pair_eqb q p) (read_csv i f)) with true; [reflexivity|].
    symmetry. apply existsb_exists. exists p. split; [assumption|]. now apply pair_eqb_eq.
Qed.

Lemma contains_In i p f : contains i p f = true <-> In p (read_csv i f).
Proof.
  unfold contains. rewrite existsb_exists. split.
  - intros (q & Hq & E). apply pair_eqb_eq in E. now subst.
  - intros H. exists p. split; [assumption|]. now apply pair_eqb_eq.
Qed.

Lemma occurrences_files i p : forall files,
  (forall f, In f files -> NoDup (read_csv i f)) ->
  occurrences p (flat_map (read_csv i) files) =
  Z.of_nat (length (filter (contains i p) files)).
Proof.
  induction files as [|f files IH]; intros Hnd; [reflexivity|].
  cbn [flat_map filter]. rewrite occurrences_app.
  rewrite occurrences_NoDup by (apply Hnd; now left).
  rewrite IH by (intros g Hg; apply Hnd; now right).
  unfold contains at 2. destruct (existsb _ (read_csv i f)); cbn [length]; lia.
Qed.

(** With well-formed result files, the lines of a pair are as many as the
    departure instants at which the pair is reached. *)
Lemma reach_count_occurrences i instant_of p :
  well_formed i instant_of ->
  reach_count i instant_of p = occurrences p (all_lines i).
Proof.
  intros Hwf. unfold reach_count, all_lines.
  rewrite occurrences_files by apply (wf_lines i instant_of Hwf). f_equal.
  rewrite nodup_fixed_point; [apply length_map|].
  apply NoDup_map_on; [|apply NoDup_filter, (wf_files i instant_of Hwf)].
  intros f g Hf Hg E. apply filter_In in Hf, Hg.
  destruct Hf as [Hf Hpf], Hg as [Hg Hpg].
  apply contains_In in Hpf, Hpg.
  exact (wf_instants i instant_of Hwf f g p Hf Hg Hpf Hpg E).
Qed.

Lemma with_weights_map i r :
  with_weights i r =
  map (fun x => mkWRow (fst (fst x)) (snd x)
                       (if truthy (weight_field i)
                        then joined_weight i (snd (fst x)) else Some 1%Q)) r.
Proof. unfold with_weights. now destruct (truthy (weight_field i)). Qed.

Lemma with_weights_origins i r :
  map OriginOID (with_weights i r) = map (fun x => fst (fst x)) r.
Proof. rewrite with_weights_map, map_map. reflexivity. Qed.

(** A column of [output_df] at an origin, NaN filled: the weights of the rows
    of that origin that satisfy the condition, summed. *)
Lemma column_value rows cond o :
  fillna (aligned (weight_by_origin rows cond) o) =
  nansum (map Weight (filter (fun r => OriginOID r =? o) (filter cond rows))).
Proof.
  unfold aligned, weight_by_origin.
  set (kv := map (fun r => (OriginOID r, Weight r)) (filter cond rows)).
  assert (Hvs : map snd (filter (fun r => fst r =? o) kv) =
                map Weight (filter (fun r => OriginOID r =? o) (filter cond rows))).
  { unfold kv. rewrite filter_map_swap, map_map. reflexivity. }
  assert (Hkeys : map fst kv = map OriginOID (filter cond rows)).
  { unfold kv. now rewrite map_map. }
  destruct (in_dec Z.eq_dec o (map fst kv)) as [Hin|Hout].
  - rewrite (assoc_In Z.eqb Z.eqb_eq _ o
               (nansum (map snd (filter (fun r => fst r =? o) kv)))).
    + cbn [fillna]. now rewrite Hvs.
    + rewrite map_map. cbn [fst]. apply (groupby_NoDup Z.eqb Z.leb Z.eqb_eq).
    + apply in_map_iff. exists (o, map snd (filter (fun r => fst r =? o) kv)).
      split; [reflexivity|]. now apply (groupby_In Z.eqb Z.leb Z.eqb_eq).
  - rewrite (assoc_None Z.eqb Z.eqb_eq).
    + rewrite PartitionFacts.filter_none; [reflexivity|].
      intros r Hr. destruct (Z.eqb_spec (OriginOID r) o) as [E|]; [|reflexivity].
      exfalso. apply Hout. rewrite Hkeys, <- E. now apply in_map.
    + rewrite map_map. cbn [fst]. intros H. apply Hout.
      change (In o (map fst (groupby Z.eqb Z.leb kv))) in H.
      exact (proj1 (groupby_key_In Z.eqb Z.leb Z.eqb_eq kv o) H).
Qed.

(** The same sum, over [result_df] before the join. *)
Lemma code_sum i result (P : Z -> bool) o :
  nansum (map Weight
            (filter (fun r => OriginOID r =? o)
               (filter (fun r => P (TimesReached r)) (with_weights i result)))) =
  Qsum (map (weight_of i)
          (map (fun x => snd (fst x))
             (filter (fun x => (fst (fst x) =? o) && P (snd x)) result))).
Proof.
  rewrite with_weights_map. unfold nansum.
  induction result as [|x result IH]; [reflexivity|].
  cbn [map filter TimesReached].
  destruct (P (snd x)); cbn [filter OriginOID andb].
  - destruct (fst (fst x) =? o); cbn [map andb]; [|exact IH].
    rewrite !Qsum_cons, IH. cbn [Weight]. f_equal.
    unfold weight_of. now destruct (truthy (weight_field i)).
  - rewrite andb_false_r. exact IH.
Qed.

Lemma output_row_fields i rows o p :
  In p Py.range_10_100_10 ->
  let ds := aligned (weight_by_origin rows (reached_at_least (threshold i p))) o in
  field (total_field p) (output_row i rows o) = Some (fillna ds) /\
  field (perc_field p) (output_row i rows o) =
    Some (fillna (percentage (total_dests i) ds)).
Proof.
  intros Hp. cbn in Hp.
  repeat (destruct Hp as [<-|Hp]; [split; reflexivity|]). destruct Hp.
Qed.

Lemma zero_row_fields name :
  In name field_names ->
  field name (repeat 0%Q (length field_names)) = Some 0%Q.
Proof.
  intros H. cbn in H.
  repeat (destruct H as [<-|H]; [reflexivity|]). destruct H.
Qed.

Lemma decile_field_names p :
  In p Py.range_10_100_10 ->
  In (total_field p) field_names /\ In (perc_field p) field_names.
Proof.
  intros Hp. unfold field_names. split; apply in_or_app; right;
    apply in_flat_map; exists p; (split; [assumption|]); [now left | right; now left].
Qed.

Lemma fillna_percentage total c :
  (fillna (percentage total c) == 100 * fillna c / total)%Q.
Proof.
  destruct c as [v|]; cbn [percentage option_map fillna]; [reflexivity|].
  unfold Qdiv. ring.
Qed.

(** The decile fields written for an origin, whether [output_df] has a row
    for it or not. *)
Lemma new_row_fields i result o p :
  In p Py.range_10_100_10 ->
  let rows := with_weights i result in
  let index := unique Z.eqb (map OriginOID rows) in
  let code :=
    Qsum (map (weight_of i)
            (map (fun x => snd (fst x))
               (filter (fun x => (fst (fst x) =? o)
                                 && Qle_bool (threshold i p) (inject_Z (snd x))) result))) in
  exists ps,
    field (total_field p) (new_row i rows index o) = Some code /\
    field (perc_field p) (new_row i rows index o) = Some ps /\
    (ps == 100 * code / total_dests i)%Q.
Proof.
  intros Hp rows index code.
  assert (Hcode : fillna (aligned (weight_by_origin rows
                    (reached_at_least (threshold i p))) o) = code).
  { rewrite column_value. unfold rows, reached_at_least.
    apply (code_sum i result (fun t => Qle_bool (threshold i p) (inject_Z t)) o). }
  unfold new_row. destruct (existsb (Z.eqb o) index) eqn:E.
  - destruct (output_row_fields i rows o p Hp) as [Hds Hps]. rewrite Hcode in Hds.
    eexists. split; [exact Hds|]. split; [exact Hps|].
    rewrite fillna_percentage, Hcode. reflexivity.
  - destruct (decile_field_names p Hp) as [Ht Hpc].
    assert (Hzero : code = 0%Q).
    { unfold code. rewrite PartitionFacts.filter_none; [reflexivity|].
      intros x Hx. destruct (Z.eqb_spec (fst (fst x)) o) as [Eo|]; [|reflexivity].
      exfalso. assert (Hin : In o index).
      { unfold index. apply (unique_In Z.eqb Z.eqb_eq). unfold rows.
        rewrite with_weights_origins, <- Eo.
        now apply (in_map (fun x => fst (fst x))). }
      assert (Hex : existsb (Z.eqb o) index = true).
      { apply existsb_exists. exists o. split; [assumption | apply Z.eqb_refl]. }
      congruence. }
    exists 0%Q. rewrite Hzero, !zero_row_fields by assumption.
    split; [reflexivity|]. split; [reflexivity|]. unfold Qdiv. ring.
Qed.

Lemma threshold_pos i p :
  start_times i <> [] -> 10 <= p -> (0 < threshold i p)%Q.
Proof.
  intros Hst Hp. unfold threshold.
  assert (Hn : 0 < Z.of_nat (length (start_times i)) * p).
  { destruct (start_times i); [congruence|]. cbn [length]. nia. }
  apply Qlt_shift_div_l; [reflexivity|]. rewrite Qmult_0_l.
  unfold Qlt. cbn. lia.
Qed.

Lemma Qle_bool_pos thr t :
  (0 < thr)%Q -> Qle_bool thr (inject_Z t) = true -> 0 < t.
Proof.
  intros Hthr H. apply Qle_bool_iff in H.
  pose proof (Qlt_le_trans _ _ _ Hthr H) as Hlt. unfold Qlt in Hlt. cbn in Hlt. lia.
Qed.

Lemma NoDup_map_fst_inj {A B} (l : list (A * B)) x y :
  NoDup (map fst l) -> In x l -> In y l -> fst x = fst y -> x = y.
Proof.
  induction l as [|a l IH]; intros Hnd Hx Hy E; [destruct Hx|].
  cbn in Hnd. inversion Hnd as [|? ? Ha Hl]; subst.
  destruct Hx as [->|Hx], Hy as [->|Hy].
  - reflexivity.
  - exfalso. apply Ha. rewrite E. now apply in_map.
  - exfalso. apply Ha. rewrite <- E. now apply in_map.
  - now apply IH.
Qed.

(** The destinations of the rows of an origin that pass a positive threshold
    are the destinations that qualify. *)
Lemma qualifying_permutation i instant_of r o thr :
  well_formed i instant_of ->
  keys_ok r (all_lines i) -> counts_ok r (all_lines i) -> (0 < thr)%Q ->
  Permutation
    (map (fun x => snd (fst x))
       (filter (fun x => (fst (fst x) =? o) && Qle_bool thr (inject_Z (snd x))) r))
    (qualifying i instant_of thr o).
Proof.
  intros Hwf Hk [Hnd Hc] Hthr. apply NoDup_Permutation.
  - apply NoDup_map_on.
    + intros x y Hx Hy E. apply filter_In in Hx, Hy.
      destruct Hx as [Hx Cx], Hy as [Hy Cy].
      apply andb_true_iff in Cx, Cy. destruct Cx as [Cx _], Cy as [Cy _].
      apply Z.eqb_eq in Cx, Cy.
      apply (NoDup_map_fst_inj r x y Hnd Hx Hy).
      destruct x as [[xo xd] xt], y as [[yo yd] yt]. cbn in *. congruence.
    + apply NoDup_filter. now apply NoDup_map_inv in Hnd.
  - apply NoDup_filter, (wf_oids i instant_of Hwf).
  - intros d. unfold qualifying. rewrite in_map_iff, filter_In. split.
    + intros ([[xo xd] t] & E & Hx). cbn in E. subst xd.
      apply filter_In in Hx. destruct Hx as [Hx Cx]. cbn in Cx.
      apply andb_true_iff in Cx. destruct Cx as [Co Ct]. apply Z.eqb_eq in Co. subst xo.
      rewrite (reach_count_occurrences i instant_of (o, d) Hwf), <- (Hc _ _ Hx).
      split; [|assumption].
      assert (Hl : In (o, d) (all_lines i)).
      { apply Hk. change (o, d) with (fst (o, d, t)). now apply in_map. }
      unfold all_lines in Hl. apply in_flat_map in Hl. destruct Hl as (f & Hf & Hp).
      exact (wf_dests i instant_of Hwf f (o, d) Hf Hp).
    + intros [_ Ct].
      rewrite (reach_count_occurrences i instant_of (o, d) Hwf) in Ct.
      pose proof (Qle_bool_pos _ _ Hthr Ct) as Hpos.
      assert (Hl : In (o, d) (all_lines i)).
      { destruct (in_dec pair_dec (o, d) (all_lines i)) as [H|H]; [assumption|].
        rewrite (occurrences_absent _ _ H) in Hpos. lia. }
      apply Hk in Hl. apply in_map_iff in Hl. destruct Hl as ([q t] & E & Hx).
      cbn in E. subst q. exists (o, d, t). split; [reflexivity|].
      apply filter_In. split; [assumption|]. cbn.
      rewrite Z.eqb_refl, (Hc _ _ Hx). exact Ct.
Qed.

Lemma find_dest l row :
  NoDup (map dest_oid l) -> In row l -> find (dest_eqb (dest_oid row)) l = Some row.
Proof.
  induction l as [|a l IH]; intros Hnd Hin; [destruct Hin|].
  cbn in Hnd. inversion Hnd as [|? ? Ha Hl]; subst. cbn [find].
  unfold dest_eqb at 1. destruct Hin as [->|Hin].
  - now rewrite Z.eqb_refl.
  - destruct (Z.eqb_spec (dest_oid row) (dest_oid a)) as [E|_]; [|now apply IH].
    exfalso. apply Ha. rewrite <- E. now apply in_map.
Qed.

(** [total_dests] is the weight of all the destinations. *)
Lemma total_dests_spec i :
  NoDup (map dest_oid (destinations i)) ->
  (total_dests i == Qsum (map (weight_of i) (map dest_oid (destinations i))))%Q.
Proof.
  intros Hnd. unfold total_dests, weight_of. destruct (truthy (weight_field i)).
  - unfold nansum. rewrite !map_map.
    rewrite (map_ext_in (fun x => fillna (joined_weight i (dest_oid x)))
                        (fun x => fillna (dest_weight x))); [reflexivity|].
    intros row Hrow. unfold joined_weight. now rewrite (find_dest _ _ Hnd Hrow).
  - clear Hnd. induction (destinations i) as [|a l IH]; [reflexivity|].
    cbn [length map]. rewrite Qsum_cons, <- IH, Nat2Z.inj_succ.
    unfold Z.succ. rewrite inject_Z_plus. ring.
Qed.

Lemma range_bounds p : In p Py.range_10_100_10 -> 10 <= p <= 90.
Proof.
  intros Hp. cbn in Hp. repeat (destruct Hp as [<-|Hp]; [lia|]). destruct Hp.
Qed.

Lemma threshold_mono i p p' : p <= p' -> (threshold i p <= threshold i p')%Q.
Proof.
  intros Hle. unfold threshold, Qdiv. apply Qmult_le_compat_r; [|discriminate].
  rewrite <- Zle_Qle. apply Z.mul_le_mono_nonneg_l; lia.
Qed.

Lemma weight_of_nonneg i d :
  Forall (fun x => 0 <= fillna (dest_weight x))%Q (destinations i) ->
  (0 <= weight_of i d)%Q.
Proof.
  intros Hpos. unfold weight_of. destruct (truthy (weight_field i)); [|discriminate].
  unfold joined_weight. destruct (find (dest_eqb d) (destinations i)) as [row|] eqn:E.
  - apply find_some in E. destruct E as [Hin _].
    rewrite Forall_forall in Hpos. now apply Hpos.
  - apply Qle_refl.
Qed.

Lemma total_dests_nonneg i :
  Forall (fun x => 0 <= fillna (dest_weight x))%Q (destinations i) ->
  (0 <= total_dests i)%Q.
Proof.
  intros Hpos. unfold total_dests. destruct (truthy (weight_field i)).
  - unfold nansum. apply Qsum_nonneg. rewrite map_map, Forall_map.
    eapply Forall_impl; [|exact Hpos]. intros row H. exact H.
  - change 0%Q with (inject_Z 0). rewrite <- Zle_Qle. lia.
Qed.

(** An origin that no result file mentions has no row in [output_df] and is
    written zeros. *)
Lemma unreached_origin_row i oid :
  od_line_files i <> [] -> In oid (origins i) ->
  (forall f p, In f (od_line_files i) -> In p (read_csv i f) -> fst p <> oid) ->
  exists out,
    _calculate_accessibility_matrix_outputs i = Some out /\
    In (oid, repeat 0%Q (length field_names)) out.
Proof.
  intros Hfiles Ho Hno.
  destruct (combined_results_spec i Hfiles) as (r & Er & Hk & _).
  unfold _calculate_accessibility_matrix_outputs. rewrite Er.
  eexists. split; [reflexivity|].
  apply in_map_iff. exists oid. split; [|assumption]. f_equal.
  unfold new_row.
  destruct (existsb (Z.eqb oid) _) eqn:E; [|reflexivity]. exfalso.
  apply existsb_exists in E. destruct E as (o & Hin & Eo).
  apply Z.eqb_eq in Eo. subst o.
  apply (proj1 (unique_In Z.eqb Z.eqb_eq _ _)) in Hin.
  rewrite with_weights_origins in Hin.
  apply in_map_iff in Hin. destruct Hin as (x & Ex & Hx).
  assert (Hl : In (fst x) (all_lines i)) by (apply Hk; now apply in_map).
  unfold all_lines in Hl. apply in_flat_map in Hl. destruct Hl as (f & Hf & Hp).
  exact (Hno f (fst x) Hf Hp Ex).
Qed.

(** C8, amended: when no destination has a negative weight, [DsAL{p}Perc]
    and [PsAL{p}Perc] do not increase as [p] goes from 10 to 90. *)
Theorem decile_fields_non_increasing i oid p p' :
  Forall (fun x => 0 <= fillna (dest_weight x))%Q (destinations i) ->
  od_line_files i <> [] -> In oid (origins i) ->
  In p Py.range_10_100_10 -> In p' Py.range_10_100_10 -> p <= p' ->
  exists out row ds ds' ps ps',
    _calculate_accessibility_matrix_outputs i = Some out /\
    In (oid, row) out /\
    field (total_field p) row = Some ds /\ field (total_field p') row = Some ds' /\
    field (perc_field p) row = Some ps /\ field (perc_field p') row = Some ps' /\
    (ds' <= ds)%Q /\ (ps' <= ps)%Q.
Proof.
  intros Hpos Hfiles Ho Hp Hp' Hle.
  destruct (combined_results_spec i Hfiles) as (r & Er & _ & _).
  pose proof (new_row_fields i r oid p Hp) as Hrow. cbn zeta in Hrow.
  destruct Hrow as (ps & Hds & Hps & Eps).
  pose proof (new_row_fields i r oid p' Hp') as Hrow'. cbn zeta in Hrow'.
  destruct Hrow' as (ps' & Hds' & Hps' & Eps').
  unfold _calculate_accessibility_matrix_outputs. rewrite Er.
  eexists. eexists. eexists. eexists. exists ps, ps'.
  split; [reflexivity|]. split.
  { apply in_map_iff. exists oid. split; [reflexivity | assumption]. }
  split; [exact Hds|]. split; [exact Hds'|]. split; [exact Hps|]. split; [exact Hps'|].
  assert (Hmono :
    (Qsum (map (weight_of i) (map (fun x : Z * Z * Z => snd (fst x))
       (filter (fun x => (fst (fst x) =? oid)
                         && Qle_bool (threshold i p') (inject_Z (snd x))) r)))
     <= Qsum (map (weight_of i) (map (fun x : Z * Z * Z => snd (fst x))
       (filter (fun x => (fst (fst x) =? oid)
                         && Qle_bool (threshold i p) (inject_Z (snd x))) r))))%Q).
  { rewrite !map_map. apply Qsum_filter_mono.
    - intros x Hx. apply andb_true_iff in Hx. destruct Hx as [Hx Ht].
      apply andb_true_iff. split; [assumption|].
      apply Qle_bool_iff. apply Qle_bool_iff in Ht.
      eapply Qle_trans; [apply threshold_mono, Hle | exact Ht].
    - intros x _. now apply weight_of_nonneg. }
  split; [exact Hmono|].
  rewrite Eps, Eps'. unfold Qdiv.
  apply Qmult_le_compat_r.
  - apply Qmult_le_l; [reflexivity | exact Hmono].
  - apply Qinv_le_0_compat. now apply total_dests_nonneg.
Qed.

(** C8 as stated fails: with 10 departure times and a destination of weight
    -5 reached once, [DsAL10Perc] is -5 and [DsAL20Perc] is 0. *)
Lemma negative_weight_breaks_monotonicity :
  let i :=
    mkInputs ["a"]%string (fun f => if (f =? "a")%string then [(1, 1)] else [])
             (Some "JOBS"%string) [mkDest 1 (Some (-5 # 1)%Q)]
             [0; 1; 2; 3; 4; 5; 6; 7; 8; 9] [1] in
  exists out row ds10 ds20,
    _calculate_accessibility_matrix_outputs i = Some out /\
    In (1, row) out /\
    field (total_field 10) row = Some ds10 /\
    field (total_field 20) row = Some ds20 /\
    ~ (ds20 <= ds10)%Q.
Proof.
  intros i. eexists. eexists. eexists. eexists.
  split; [reflexivity|]. split; [left; reflexivity|].
  split; [reflexivity|]. split; [reflexivity|].
  intros H. vm_compute in H. exact (H eq_refl).
Qed.

Lemma decile_fields_non_increasing_witness :
  let i :=
    mkInputs ["a"; "b"]%string
             (fun f => if (f =? "a")%string then [(1, 1); (1, 2)]
                       else if (f =? "b")%string then [(1, 1)] else [])
             None [mkDest 1 None; mkDest 2 None] [0; 1] [1; 2] in
  exists out row ds ds',
    _calculate_accessibility_matrix_outputs i = Some out /\
    In (1, row) out /\
    field (total_field 50) row = Some ds /\ field (total_field 60) row = Some ds' /\
    (ds' <= ds)%Q.
Proof.
  intros i.
  assert (Hpos : Forall (fun x => 0 <= fillna (dest_weight x))%Q (destinations i)).
  { repeat constructor; apply Qle_refl. }
  destruct (decile_fields_non_increasing i 1 50 60 Hpos)
    as (out & row & ds & ds' & ps & ps' & Hout & Hin & Hds & Hds' & _ & _ & Hle & _).
  - discriminate.
  - now left.
  - cbn. tauto.
  - cbn. tauto.
  - lia.
  - exists out, row, ds, ds'. repeat split; assumption.
Defined.

End AccessibilityFacts.

(* ------------------------------------------------------------------------- *)

Module TravelTimeFacts.
Import Frame FrameFacts TravelTime.

Lemma Qlist_min_fold : forall l x,
  In (fold_left Qmin l x) (x :: l) /\
  (forall y, In y (x :: l) -> fold_left Qmin l x <= y)%Q.
Proof.
  induction l as [|a l IH]; intros x.
  - cbn. split; [now left|]. intros y [<-|[]]. apply Qle_refl.
  - cbn [fold_left]. destruct (IH (Qmin x a)) as [Hin Hle]. split.
    + destruct Hin as [E|Hin]; [|right; now right].
      rewrite <- E. unfold Qmin, GenericMinMax.gmin.
      destruct (x ?= a)%Q; [now left | now left | right; now left].
    + assert (Hm : (fold_left Qmin l (Qmin x a) <= Qmin x a)%Q) by (apply Hle; now left).
      intros y [<-|[<-|Hy]].
      * eapply Qle_trans; [exact Hm | apply Q.le_min_l].
      * eapply Qle_trans; [exact Hm | apply Q.le_min_r].
      * apply Hle. now right.
Qed.

Lemma Qlist_max_fold : forall l x,
  In (fold_left Qmax l x) (x :: l) /\
  (forall y, In y (x :: l) -> y <= fold_left Qmax l x)%Q.
Proof.
  induction l as [|a l IH]; intros x.
  - cbn. split; [now left|]. intros y [<-|[]]. apply Qle_refl.
  - cbn [fold_left]. destruct (IH (Qmax x a)) as [Hin Hle]. split.
    + destruct Hin as [E|Hin]; [|right; now right].
      rewrite <- E. unfold Qmax, GenericMinMax.gmax.
      destruct (x ?= a)%Q; [now left | right; now left | now left].
    + assert (Hm : (Qmax x a <= fold_left Qmax l (Qmax x a))%Q) by (apply Hle; now left).
      intros y [<-|[<-|Hy]].
      * eapply Qle_trans; [apply Q.le_max_l | exact Hm].
      * eapply Qle_trans; [apply Q.le_max_r | exact Hm].
      * apply Hle. now right.
Qed.

(** [min] and [max] of a group are samples of the group that bound it. *)
Lemma Qlist_min_spec l :
  l <> [] -> In (Qlist_min l) l /\ (forall y, In y l -> Qlist_min l <= y)%Q.
Proof. destruct l as [|x l]; [congruence|]. intros _. apply Qlist_min_fold. Qed.

Lemma Qlist_max_spec l :
  l <> [] -> In (Qlist_max l) l /\ (forall y, In y l -> y <= Qlist_max l)%Q.
Proof. destruct l as [|x l]; [congruence|]. intros _. apply Qlist_max_fold. Qed.

(** Every pair of a group of lines has its row of statistics. *)
Lemma stats_In df line :
  In line df ->
  let p := (OriginOID line, DestinationOID line) in
  let s := samples df p in
  In (mkStats (fst p) (snd p) (Z.of_nat (length s))
              (Qlist_min s) (Qlist_max s) (mean s)) (stats df).
Proof.
  intros Hin p s. unfold stats. apply in_map_iff. exists (p, s). split; [reflexivity|].
  apply (groupby_In pair_eqb pair_leb pair_eqb_eq). split.
  - rewrite map_map. cbn [fst]. unfold p.
    now apply (in_map (fun l => (OriginOID l, DestinationOID l))).
  - unfold s, samples. rewrite filter_map_swap, map_map. reflexivity.
Qed.

Lemma samples_nonempty df line :
  In line df -> samples df (OriginOID line, DestinationOID line) <> [].
Proof.
  intros Hin E.
  assert (H : In (Total_Time line) (samples df (OriginOID line, DestinationOID line))).
  { unfold samples. apply in_map. apply filter_In. split; [assumption|].
    now apply pair_eqb_eq. }
  rewrite E in H. destruct H.
Qed.

(** One origin range: its rows are appended and its block joins the trace. *)
Lemma loop_body_spec i st r :
  (first st = true -> out_csv st = None) ->
  let st' := loop_body i st r in
  (first st' = true -> out_csv st' = None) /\
  written (out_csv st') = written (out_csv st) ++ stats (group_lines i r) /\
  exists block, trace st' = trace st ++ block /\ group_block i r block.
Proof.
  intros Hinv. unfold loop_body, group_block, group_lines.
  destruct (files_for_origin_range i r) as [|f files] eqn:E.
  - cbn. split; [assumption|]. split; [now rewrite app_nil_r|].
    exists []. now rewrite app_nil_r.
  - destruct (first st) eqn:Ef.
    + rewrite (Hinv eq_refl). cbn [first out_csv trace written app].
      split; [discriminate|]. split; [reflexivity|].
      eexists. split; [reflexivity|]. now exists false, true.
    + cbn [first out_csv trace written].
      split; [discriminate|]. split; [now destruct (out_csv st)|].
      eexists. split; [reflexivity|]. now exists true, false.
Qed.

Lemma loop_spec i : forall ranges st,
  (first st = true -> out_csv st = None) ->
  let st' := fold_left (loop_body i) ranges st in
  written (out_csv st') =
    written (out_csv st) ++ flat_map (fun r => stats (group_lines i r)) ranges /\
  exists blocks, trace st' = trace st ++ concat blocks /\ Forall2 (group_block i) ranges blocks.
Proof.
  induction ranges as [|r ranges IH]; intros st Hinv.
  - cbn. split; [now rewrite app_nil_r|]. exists []. split; [now rewrite app_nil_r | constructor].
  - cbn [fold_left flat_map].
    pose proof (loop_body_spec i st r Hinv) as Hb. cbn zeta in Hb.
    destruct Hb as (Hinv' & Hw & block & Ht & Hblock).
    pose proof (IH (loop_body i st r) Hinv') as Hrest. cbn zeta in Hrest.
    destruct Hrest as (Hw' & blocks & Ht' & Hblocks).
    split.
    + rewrite Hw', Hw. now rewrite <- app_assoc.
    + exists (block :: blocks). split; [|now constructor].
      rewrite Ht', Ht. cbn [concat]. now rewrite <- app_assoc.
Qed.

End TravelTimeFacts.

(* ------------------------------------------------------------------------- *)

Module RunFacts.
Import ODCM Scheduler.

(** C6, amended: in a run of the accessibility tool in which every result is
    retrieved and at least one result file was produced, an origin of the
    Origins table that no result file mentions is written a row whose
    statistic fields, [TotalDests], [PercDests] and every [DsAL{p}Perc] and
    [PsAL{p}Perc], are all 0. *)
Theorem unreached_origin_gets_zeros self disk jobs oid :
  tool self = CalculateAccessibilityMatrix ->
  existsb raises jobs = false ->
  od_line_files self ++ successful_files jobs <> [] ->
  In oid (origins self) ->
  (forall f line,
     In f (od_line_files self ++ successful_files jobs) ->
     In line (rows_on_disk disk f) -> TravelTime.OriginOID line <> oid) ->
  exists out row,
    origins_fields (solve_od_in_parallel self disk None jobs) = Some out /\
    In (oid, row) out /\
    row = repeat 0%Q (length Accessibility.field_names) /\
    Accessibility.field "TotalDests" row = Some 0%Q /\
    Accessibility.field "PercDests" row = Some 0%Q /\
    forall p, In p Py.range_10_100_10 ->
      Accessibility.field (Accessibility.total_field p) row = Some 0%Q /\
      Accessibility.field (Accessibility.perc_field p) row = Some 0%Q.
Proof.
  intros Htool Hjobs Hfiles Ho Hno.
  destruct (SchedulerFacts.run_returns self disk jobs Hjobs) as (_ & Hagg & _).
  set (files := od_line_files self ++ successful_files jobs) in *.
  assert (Hperm : Permutation (Py.sorted String.leb files) files)
    by apply PyFacts.sorted_perm.
  destruct (AccessibilityFacts.unreached_origin_row
              (accessibility_inputs self disk (Py.sorted String.leb files)) oid)
    as (out & Hout & Hin).
  - cbn [accessibility_inputs Accessibility.od_line_files]. intros E. rewrite E in Hperm.
    apply Permutation_nil in Hperm. contradiction.
  - exact Ho.
  - cbn [accessibility_inputs Accessibility.od_line_files Accessibility.read_csv].
    intros f p Hf Hp. apply in_map_iff in Hp. destruct Hp as (line & <- & Hline).
    cbn [fst]. apply (Hno f line); [|assumption].
    eapply Permutation_in; [exact Hperm | exact Hf].
  - exists out, (repeat 0%Q (length Accessibility.field_names)).
    split.
    + assert (E : origins_fields (solve_od_in_parallel self disk None jobs) =
                  fst (aggregate self disk files)).
      { rewrite <- Hagg. reflexivity. }
      rewrite E. unfold aggregate. destruct files as [|f0 files0]; [contradiction|].
      rewrite Htool. exact Hout.
    + split; [exact Hin|]. split; [reflexivity|].
      split; [reflexivity|]. split; [reflexivity|].
      intros p Hp. destruct (AccessibilityFacts.decile_field_names p Hp) as [Ht Hpc].
      split; now apply AccessibilityFacts.zero_row_fields.
Qed.

Lemma unreached_origin_gets_zeros_witness :
  let self :=
    mkCalc CalculateAccessibilityMatrix [1; 2]
           [Accessibility.mkDest 1 None; Accessibility.mkDest 2 None] None [0]
           [(1, 2)] "scratch" "scratch" 1 [] in
  let disk : Disk := fun p =>
    if (p =? "a")%string then Some [TravelTime.mkLine 1 2 0] else None in
  let jobs : list Future := [inr (mkJobResult "j1" true EmptyString "a" "j1.log")] in
  exists out,
    origins_fields (solve_od_in_parallel self disk None jobs) = Some out /\
    In (2, repeat 0%Q (length Accessibility.field_names)) out.
Proof.
  intros self disk jobs.
  destruct (unreached_origin_gets_zeros self disk jobs 2)
    as (out & row & Hout & Hin & Hrow & _).
  - reflexivity.
  - reflexivity.
  - discriminate.
  - right. now left.
  - intros f line [<-|[]] [<-|[]]. discriminate.
  - exists out. rewrite <- Hrow. now split.
Defined.

(** C6 as stated fails: when every solve fails no aggregator runs, and the
    origin 1, which appears in no result file, is written no row at all. *)
Lemma all_failed_leaves_origins_without_fields :
  let self :=
    mkCalc CalculateAccessibilityMatrix [1] [Accessibility.mkDest 1 None] None [0]
           [(1, 1)] "scratch" "scratch" 1 [] in
  let jobs : list Future := [inr (mkJobResult "j1" false "No route" EmptyString "j1.log")] in
  let r := solve_od_in_parallel self (fun _ => None) None jobs in
  In 1 (origins self) /\
  successful_files jobs = [] /\
  raised r = None /\
  ~ exists out row, origins_fields r = Some out /\ In (1, row) out.
Proof.
  cbn zeta. split; [now left|]. split; [reflexivity|]. split; [reflexivity|].
  intros (out & row & Hout & _). discriminate.
Qed.

End RunFacts.

(* ------------------------------------------------------------------------- *)

Module ChunkUniverseFacts.
Import Partition PartitionFacts ChunkUniverse.

Lemma close_chunks_cons m c c' cs :
  close_chunks m (c :: c' :: cs) = c :: close_chunks m (c' :: cs).
Proof. reflexivity. Qed.

(** For every input and every chunk size of at least 1, the ranges are the
    bounds of the chunks that survive the test after the loop. *)
Lemma ranges_close_chunks_fuel max_chunk_size :
  1 <= max_chunk_size ->
  forall fuel oids,
    (length oids <= fuel)%nat ->
    ranges_of_oids oids max_chunk_size =
    map bounds (close_chunks (Z.to_nat max_chunk_size)
                  (chunks_fuel fuel (Z.to_nat max_chunk_size) oids)).
Proof.
  intros Hmax. set (m := Z.to_nat max_chunk_size).
  induction fuel as [|fuel IH]; intros oids Hlen.
  - destruct oids; [reflexivity | cbn in Hlen; lia].
  - destruct oids as [|x oids]; [reflexivity|].
    cbn [chunks_fuel].
    destruct (Nat.lt_ge_cases (length (x :: oids)) m) as [Hs|Hl].
    + rewrite ranges_unfold_short by (try discriminate; unfold m in Hs; lia).
      rewrite firstn_all2, skipn_all2 by lia.
      rewrite chunks_fuel_nil. cbn [close_chunks].
      apply Nat.ltb_lt in Hs. rewrite Hs. cbn [andb].
      now destruct (range_eqb (bounds (x :: oids)) (0, 0)).
    + rewrite ranges_unfold_long by assumption. fold m.
      assert (Hrest : (length (skipn m (x :: oids)) <= fuel)%nat).
      { rewrite length_skipn. cbn [length] in *. unfold m in *. lia. }
      specialize (IH _ Hrest).
      destruct (chunks_fuel fuel m (skipn m (x :: oids))) as [|c' cs] eqn:E.
      * cbn [close_chunks]. rewrite IH.
        replace (length (firstn m (x :: oids)) <? m)%nat with false; [reflexivity|].
        symmetry. apply Nat.ltb_ge. rewrite length_firstn. lia.
      * rewrite close_chunks_cons. cbn [map]. now rewrite IH.
Qed.

Lemma close_chunks_cases m cs :
  close_chunks m cs = cs \/
  exists cs' c,
    cs = cs' ++ [c] /\ (length c < m)%nat /\ bounds c = (0, 0) /\ close_chunks m cs = cs'.
Proof.
  induction cs as [|c cs IH]; [now left|].
  destruct cs as [|c' cs].
  - cbn [close_chunks].
    destruct (length c <? m)%nat eqn:El; [|now left].
    destruct (range_eqb (bounds c) (0, 0)) eqn:Eb; [|now left].
    right. exists [], c. apply Nat.ltb_lt in El.
    unfold range_eqb in Eb. apply andb_true_iff in Eb. destruct Eb as [E1 E2].
    apply Z.eqb_eq in E1, E2. cbn [fst snd] in E1, E2.
    repeat split; try assumption. destruct (bounds c). cbn in *. now subst.
  - rewrite close_chunks_cons. destruct IH as [->|(cs' & c0 & E & Hl & Hb & Hc)]; [now left|].
    right. exists (c :: cs'), c0. rewrite Hc, E. now repeat split.
Qed.

Lemma ascending_sentinel_chunk c :
  ascending c -> c <> [] -> bounds c = (0, 0) -> c = [0].
Proof.
  intros Hasc Hne Hb. destruct c as [|x c]; [congruence|].
  unfold bounds in Hb. cbn [hd] in Hb. inversion Hb as [[Hx Hl]]. subst x.
  destruct c as [|y c]; [reflexivity|]. exfalso.
  unfold ascending in Hasc. inversion Hasc as [|? ? _ Hf]; subst.
  rewrite Forall_forall in Hf.
  assert (Hin : In (last (y :: c) 0) (y :: c)) by (apply last_In; discriminate).
  assert (Hl' : last (y :: c) 0 = 0) by exact Hl.
  specialize (Hf _ Hin). rewrite Hl' in Hf. lia.
Qed.

Lemma map_select_chunks_between : forall cs a b,
  ascending (a ++ concat cs ++ b) -> Forall (fun c => c <> []) cs ->
  map (select (a ++ concat cs ++ b)) (map bounds cs) = cs.
Proof.
  induction cs as [|c cs IH]; intros a b Hs Hne; [reflexivity|].
  inversion Hne as [|? ? Hc Hcs]; subst. cbn [concat map] in *.
  rewrite <- app_assoc in Hs. rewrite <- app_assoc. f_equal.
  - now apply select_sandwich.
  - rewrite app_assoc. apply IH; [now rewrite <- app_assoc | assumption].
Qed.

Lemma close_chunks_last m c : forall cs,
  close_chunks m (cs ++ [c]) =
  if (length c <? m)%nat && range_eqb (bounds c) (0, 0) then cs else cs ++ [c].
Proof.
  induction cs as [|c0 cs IH]; [reflexivity|].
  cbn [app]. destruct (cs ++ [c]) as [|c1 l] eqn:E.
  - now destruct cs.
  - rewrite close_chunks_cons, IH.
    now destruct ((length c <? m)%nat && range_eqb (bounds c) (0, 0)).
Qed.

(** All the chunks but the last are full. *)
Lemma chunks_fuel_last m :
  (1 <= m)%nat ->
  forall fuel oids,
    (length oids <= fuel)%nat -> oids <> [] ->
    exists cs c k,
      chunks_fuel fuel m oids = cs ++ [c] /\ c <> [] /\ (length c <= m)%nat /\
      length (concat cs) = (k * m)%nat.
Proof.
  intros Hm. induction fuel as [|fuel IH]; intros oids Hlen Hne.
  - destruct oids; [congruence | cbn in Hlen; lia].
  - destruct oids as [|x oids]; [congruence|]. cbn [chunks_fuel].
    destruct (Nat.le_gt_cases (length (x :: oids)) m) as [Hs|Hl].
    + rewrite firstn_all2, skipn_all2, chunks_fuel_nil by lia.
      exists [], (x :: oids), O. repeat split; [discriminate | assumption].
    + assert (Hrest : (length (skipn m (x :: oids)) <= fuel)%nat).
      { rewrite length_skipn. cbn [length] in *. lia. }
      assert (Hne' : skipn m (x :: oids) <> []).
      { intros E. apply (f_equal (@length Z)) in E. rewrite length_skipn in E.
        cbn [length] in *. lia. }
      destruct (IH _ Hrest Hne') as (cs & c & k & E & Hc & Hcm & Hk).
      exists (firstn m (x :: oids) :: cs), c, (S k). rewrite E.
      repeat split; try assumption.
      cbn [concat]. rewrite length_app, length_firstn, Hk. cbn [length] in *. lia.
Qed.

Lemma last_app_nonempty {A} (a b : list A) d d' : b <> [] -> last (a ++ b) d = last b d'.
Proof.
  intros Hb. destruct (exists_last Hb) as (b' & x & ->).
  now rewrite app_assoc, !last_last.
Qed.

(** X1: for a chunk size of at least 1 and ascending identifiers, the ranges
    select the surviving identifiers in order, each once, with one exception,
    which occurs exactly when the chunk size is at least 2, the number of
    identifiers leaves the remainder 1 and the last identifier is 0: the
    partial last chunk is then the identifier 0 alone, the test after the
    loop takes its range for the initial one, and that identifier, and only
    it, is selected by no range. *)
Theorem only_a_trailing_zero_is_lost oids max_chunk_size :
  1 <= max_chunk_size -> ascending oids ->
  let rs := ranges_of_oids oids max_chunk_size in
  let lost := (2 <=? max_chunk_size)
              && (Z.of_nat (length oids) mod max_chunk_size =? 1)
              && (last oids 1 =? 0) in
  flat_map (select oids) rs = if lost then removelast oids else oids.
Proof.
  intros Hmax Hasc rs lost. set (m := Z.to_nat max_chunk_size).
  assert (Hm : (1 <= m)%nat) by (unfold m; lia).
  assert (Hrs : rs = map bounds (close_chunks m (Partition.chunks m oids))).
  { unfold rs, Partition.chunks, m. now apply ranges_close_chunks_fuel. }
  assert (Hcat : concat (Partition.chunks m oids) = oids).
  { unfold Partition.chunks. now apply chunks_fuel_concat. }
  assert (Hcases : oids = [] \/ oids <> []) by (destruct oids; [now left | now right]).
  destruct Hcases as [Hnil|Hne].
  { unfold lost, rs. rewrite Hnil. cbn [length Z.of_nat]. rewrite Z.mod_0_l by lia.
    cbn [Z.eqb andb]. rewrite andb_false_r. reflexivity. }
  destruct (chunks_fuel_last m Hm (length oids) oids (Nat.le_refl _) Hne)
    as (cs & c & k & E & Hc & Hcm & Hk).
  fold (Partition.chunks m oids) in E.
  assert (Hoids : oids = concat cs ++ c).
  { rewrite <- Hcat, E, concat_app. cbn [concat]. now rewrite app_nil_r. }
  pose proof (chunks_fuel_shape m (length oids) oids Hm) as Hshape.
  fold (Partition.chunks m oids) in Hshape. rewrite E in Hshape.
  apply Forall_app in Hshape. destruct Hshape as [Hshape _].
  assert (Hnes : Forall (fun c0 : list Z => c0 <> []) cs).
  { eapply Forall_impl; [|exact Hshape]. now intros c0 [H _]. }
  assert (Hascc : ascending c).
  { rewrite Hoids in Hasc. now destruct (ascending_app_inv _ _ Hasc) as (_ & H & _). }
  assert (Hlen : Z.of_nat (length oids) = Z.of_nat k * max_chunk_size + Z.of_nat (length c)).
  { rewrite Hoids at 1. rewrite length_app, Hk. unfold m. nia. }
  assert (Hlast : last oids 1 = last c 1).
  { rewrite Hoids at 1. now apply last_app_nonempty. }
  assert (Hcpos : (1 <= length c)%nat).
  { destruct c; [congruence | cbn [length]; lia]. }
  assert (Hlost : lost = (length c <? m)%nat && range_eqb (bounds c) (0, 0)).
  { unfold lost. rewrite Hlen, Hlast.
    rewrite Z.add_comm, Z_mod_plus_full.
    destruct ((length c <? m)%nat && range_eqb (bounds c) (0, 0)) eqn:D.
    - apply andb_true_iff in D. destruct D as [D1 D2]. apply Nat.ltb_lt in D1.
      assert (Hb : bounds c = (0, 0)).
      { unfold range_eqb in D2. apply andb_true_iff in D2. destruct D2 as [E1 E2].
        apply Z.eqb_eq in E1, E2. destruct (bounds c). cbn in *. now subst. }
      rewrite (ascending_sentinel_chunk c Hascc Hc Hb) in *. cbn [length] in *.
      cbn [last Z.of_nat]. rewrite Z.mod_small by (unfold m in D1; lia).
      replace (2 <=? max_chunk_size) with true
        by (symmetry; apply Z.leb_le; unfold m in D1; lia).
      reflexivity.
    - destruct (2 <=? max_chunk_size) eqn:L2; [|reflexivity].
      destruct (Z.of_nat (length c) mod max_chunk_size =? 1) eqn:M1; [|reflexivity].
      destruct (last c 1 =? 0) eqn:L0; [|reflexivity]. exfalso.
      apply Z.leb_le in L2. apply Z.eqb_eq in M1, L0.
      assert (H1 : length c = 1%nat).
      { destruct (Nat.eq_dec (length c) m) as [Em|Nm].
        - rewrite Em in M1. unfold m in M1. rewrite Z2Nat.id in M1 by lia.
          rewrite Z_mod_same_full in M1. lia.
        - rewrite Z.mod_small in M1 by (unfold m in *; lia). lia. }
      destruct c as [|y [|z c]]; try discriminate H1. cbn [last] in L0. subst y.
      cbn [length] in D. replace (1 <? m)%nat with true in D
        by (symmetry; apply Nat.ltb_lt; unfold m; lia).
      discriminate D. }
  rewrite Hlost, Hrs, E, close_chunks_last, flat_map_concat_map.
  destruct ((length c <? m)%nat && range_eqb (bounds c) (0, 0)) eqn:D.
  - apply andb_true_iff in D. destruct D as [_ D2].
    assert (Hb : bounds c = (0, 0)).
    { unfold range_eqb in D2. apply andb_true_iff in D2. destruct D2 as [E1 E2].
      apply Z.eqb_eq in E1, E2. destruct (bounds c). cbn in *. now subst. }
    rewrite (ascending_sentinel_chunk c Hascc Hc Hb) in Hoids.
    rewrite Hoids at 2. rewrite removelast_last. f_equal.
    rewrite Hoids. apply (map_select_chunks_between cs [] [0]); [|assumption].
    cbn [app]. now rewrite <- Hoids.
  - rewrite <- E.
    assert (Hsel : map (select oids) (map bounds (Partition.chunks m oids)) =
                   Partition.chunks m oids).
    { rewrite <- Hcat at 1.
      apply (map_select_chunks (Partition.chunks m oids) []).
      + cbn [app]. now rewrite Hcat.
      + rewrite E. apply Forall_app. split; [assumption|]. now constructor. }
    now rewrite Hsel.
Qed.

Lemma only_a_trailing_zero_is_lost_witness :
  flat_map (select [-3; -2; 0]) (ranges_of_oids [-3; -2; 0] 2) = [-3; -2] /\
  flat_map (select [-3; -2; 0]) (ranges_of_oids [-3; -2; 0] 3) = [-3; -2; 0].
Proof.
  split.
  - apply (only_a_trailing_zero_is_lost [-3; -2; 0] 2); [lia|].
    repeat constructor; lia.
  - apply (only_a_trailing_zero_is_lost [-3; -2; 0] 3); [lia|].
    repeat constructor; lia.
Defined.

Lemma loop_never_closes max_chunk_size :
  max_chunk_size <= 0 ->
  forall l rs n cur,
    0 <= n -> l <> [] ->
    fold_left (loop_body max_chunk_size) l (mkLoop rs n cur) =
    mkLoop rs (n + Z.of_nat (length l))
           ((if n =? 0 then hd 0 l else fst cur), last l 0).
Proof.
  intros Hmax. induction l as [|x l IH]; intros rs n cur Hn Hne; [congruence|].
  cbn [fold_left]. rewrite loop_body_open by lia.
  destruct l as [|y l].
  - cbn. f_equal.
  - rewrite IH; [| lia | discriminate].
    replace (n + 1 =? 0) with false by (symmetry; apply Z.eqb_neq; lia).
    cbn [fst hd]. f_equal. cbn [length]. lia.
Qed.

(** X2: a chunk size of 0 or less never closes a range inside the loop: the
    function returns one range from the first to the last surviving
    identifier, whatever their number, or nothing when that range is
    [[0, 0]] or no identifier survives. *)
Theorem nonpositive_chunk_size_never_splits input_fc max_chunk_size where_clause :
  max_chunk_size <= 0 ->
  let oids := SearchCursor input_fc where_clause in
  _get_oid_ranges_for_input input_fc max_chunk_size where_clause =
  match oids with
  | [] => []
  | _ => if range_eqb (bounds oids) (0, 0) then [] else [bounds oids]
  end.
Proof.
  intros Hmax oids. unfold _get_oid_ranges_for_input. fold oids.
  destruct oids as [|x l] eqn:E; [reflexivity|].
  unfold ranges_of_oids, loop_init.
  rewrite (loop_never_closes max_chunk_size Hmax) by (try lia; discriminate).
  unfold close_out, bounds. cbn [current_range ranges app Z.eqb].
  now destruct (range_eqb _ (0, 0)).
Qed.

Lemma nonpositive_chunk_size_never_splits_witness :
  _get_oid_ranges_for_input [5; 6; 9; 12] 0 (fun _ => true) = [(5, 12)] /\
  _get_oid_ranges_for_input [5; 6; 9; 12] (-4) (fun oid => 6 <=? oid) = [(6, 12)].
Proof.
  split.
  - exact (nonpositive_chunk_size_never_splits [5; 6; 9; 12] 0 (fun _ => true)
             ltac:(lia)).
  - exact (nonpositive_chunk_size_never_splits [5; 6; 9; 12] (-4) (fun oid => 6 <=? oid)
             ltac:(lia)).
Defined.

Lemma close_chunks_sub m cs :
  (forall c, In c (close_chunks m cs) -> In c cs) /\
  (length (close_chunks m cs) <= length cs)%nat.
Proof.
  destruct (close_chunks_cases m cs) as [->|(cs' & c & -> & _ & _ & ->)].
  - split; [tauto | lia].
  - split.
    + intros c0 H. apply in_or_app. now left.
    + rewrite length_app. lia.
Qed.

(** X3: for a chunk size of at least 1, whatever the order of the
    identifiers, every returned range starts and ends at a surviving
    identifier, and there are at most ceil(n / max_chunk_size) ranges for n
    surviving identifiers. *)
Theorem ranges_are_tight input_fc max_chunk_size where_clause :
  1 <= max_chunk_size ->
  let oids := SearchCursor input_fc where_clause in
  let rs := _get_oid_ranges_for_input input_fc max_chunk_size where_clause in
  Forall (fun r => In (fst r) oids /\ In (snd r) oids) rs /\
  (Z.of_nat (length rs) - 1) * max_chunk_size < Z.of_nat (length oids).
Proof.
  intros Hmax oids rs. set (m := Z.to_nat max_chunk_size).
  assert (Hm : (1 <= m)%nat) by (unfold m; lia).
  assert (Hrs : rs = map bounds (close_chunks m (Partition.chunks m oids))).
  { unfold rs, _get_oid_ranges_for_input, Partition.chunks, m. fold oids.
    now apply ranges_close_chunks_fuel. }
  assert (Hcat : concat (Partition.chunks m oids) = oids).
  { unfold Partition.chunks. now apply chunks_fuel_concat. }
  pose proof (chunks_fuel_shape m (length oids) oids Hm) as Hshape.
  fold (Partition.chunks m oids) in Hshape. rewrite Forall_forall in Hshape.
  destruct (close_chunks_sub m (Partition.chunks m oids)) as [Hsub Hlen].
  split.
  - rewrite Hrs. apply Forall_map. apply Forall_forall. intros c Hc.
    apply Hsub in Hc. destruct (Hshape c Hc) as [Hne _].
    unfold bounds; cbn [fst snd].
    split; rewrite <- Hcat; apply in_concat; exists c;
      (split; [assumption|]); [now apply hd_In | now apply last_In].
  - pose proof (chunks_fuel_count m (length oids) oids Hm (Nat.le_refl _)) as Hk.
    cbn zeta in Hk. fold (Partition.chunks m oids) in Hk.
    replace (Z.of_nat m) with max_chunk_size in Hk by (unfold m; lia).
    destruct Hk as [Hk _].
    assert (Hl : length rs = length (close_chunks m (Partition.chunks m oids)))
      by (rewrite Hrs; apply length_map).
    assert (Hle : (Z.of_nat (length rs) - 1) * max_chunk_size
                  <= (Z.of_nat (length (Partition.chunks m oids)) - 1) * max_chunk_size).
    { apply Z.mul_le_mono_nonneg_r; lia. }
    lia.
Qed.

Lemma ranges_are_tight_witness :
  let oids := SearchCursor [9; 4; 0; 7; 2] (fun oid => negb (oid =? 7)) in
  let rs := _get_oid_ranges_for_input [9; 4; 0; 7; 2] 3 (fun oid => negb (oid =? 7)) in
  Forall (fun r => In (fst r) oids /\ In (snd r) oids) rs /\
  (Z.of_nat (length rs) - 1) * 3 < Z.of_nat (length oids).
Proof.
  apply (ranges_are_tight [9; 4; 0; 7; 2] 3 (fun oid => negb (oid =? 7))). lia.
Defined.

Lemma product_In {A B C} (a : list A) (b : list B) (c : list C) x y z :
  In (x, y, z) (product a b c) <-> In x a /\ In y b /\ In z c.
Proof.
  unfold product. rewrite in_flat_map. split.
  - intros (x' & Hx & H). apply in_flat_map in H. destruct H as (y' & Hy & H).
    apply in_map_iff in H. destruct H as (z' & E & Hz). inversion E; subst. tauto.
  - intros (Hx & Hy & Hz). exists x. split; [assumption|].
    apply in_flat_map. exists y. split; [assumption|].
    apply in_map_iff. now exists z.
Qed.

Lemma product_length {A B C} (a : list A) (b : list B) (c : list C) :
  length (product a b c) = (length a * length b * length c)%nat.
Proof.
  unfold product. induction a as [|x a IH]; [reflexivity|].
  cbn [flat_map length]. rewrite length_app, IH.
  assert (H : length (flat_map (fun y => map (fun z => (x, y, z)) c) b)
              = (length b * length c)%nat).
  { clear. induction b as [|y b IH]; [reflexivity|].
    cbn [flat_map length]. rewrite length_app, length_map, IH. lia. }
  rewrite H. lia.
Qed.

Lemma chunk_membership origins destinations weight_field
    max_origins max_destinations start_times :
  let u := build origins destinations weight_field max_origins max_destinations
                 start_times in
  (forall o d t,
     In o (origin_ranges u) /\ In d (destination_ranges u) /\ In t start_times ->
     In (o, d, t) (chunks u)) /\
  (forall o d t,
     In (o, d, t) (chunks u) ->
     In o (origin_ranges u) /\ In d (destination_ranges u) /\ In t start_times).
Proof.
  cbn zeta. unfold build. cbn [chunks origin_ranges destination_ranges].
  split; intros o d t; apply product_In.
Qed.

(** X4: [total_jobs] is the number of chunks that will be submitted, and the
    chunks are the combinations of an origin range, a destination range and a
    start time, each combination once when the start times are distinct and
    the ranges are. *)
Theorem total_jobs_counts_the_chunks origins destinations weight_field
    max_origins max_destinations start_times :
  let u := build origins destinations weight_field max_origins max_destinations
                 start_times in
  Z.of_nat (length (chunks u)) = total_jobs u /\
  (forall o d t,
     In (o, d, t) (chunks u) <->
     In o (origin_ranges u) /\ In d (destination_ranges u) /\ In t start_times) /\
  (NoDup (origin_ranges u) -> NoDup (destination_ranges u) -> NoDup start_times ->
   NoDup (chunks u)).
Proof.
  cbn zeta. unfold build. cbn [chunks total_jobs origin_ranges destination_ranges].
  split; [rewrite product_length; lia|]. split; [intros o d t; apply product_In|].
  generalize (_get_oid_ranges_for_input origins max_origins (fun _ => true)).
  generalize (ranges_of_oids (destination_oids weight_field destinations) max_destinations).
  intros b a Ha Hb Hc. unfold product.
  induction Ha as [|x a Hx Ha IH]; [constructor|].
  cbn [flat_map]. apply NoDup_app.
  - clear - Hb Hc. induction Hb as [|y b Hy Hb IH]; [constructor|].
    cbn [flat_map]. apply NoDup_app.
    + apply FrameFacts.NoDup_map_on; [|assumption]. intros z z' _ _ E. now inversion E.
    + exact IH.
    + intros p H1 H2. apply in_map_iff in H1. destruct H1 as (z & <- & _).
      apply in_flat_map in H2. destruct H2 as (y' & Hy' & H2).
      apply in_map_iff in H2. destruct H2 as (z' & E & _). inversion E; subst.
      contradiction.
  - exact IH.
  - intros p H1 H2. apply in_flat_map in H1. destruct H1 as (y & _ & H1).
    apply in_map_iff in H1. destruct H1 as (z & <- & _).
    apply in_flat_map in H2. destruct H2 as (x' & Hx' & H2).
    apply in_flat_map in H2. destruct H2 as (y' & _ & H2).
    apply in_map_iff in H2. destruct H2 as (z' & E & _). inversion E; subst.
    contradiction.
Qed.

Lemma total_jobs_counts_the_chunks_witness :
  let u := build [1; 2; 3] [Accessibility.mkDest 1 None; Accessibility.mkDest 2 None]
                 None 2 2 [0; 30] in
  total_jobs u = 4 /\ Z.of_nat (length (chunks u)) = total_jobs u /\ NoDup (chunks u).
Proof.
  destruct (total_jobs_counts_the_chunks
              [1; 2; 3] [Accessibility.mkDest 1 None; Accessibility.mkDest 2 None]
              None 2 2 [0; 30]) as (Hn & _ & Hd).
  split; [reflexivity|]. split; [exact Hn|]. apply Hd.
  - constructor; [cbn; intros [H|[]]; discriminate H|].
    constructor; [intros []|constructor].
  - constructor; [intros []|constructor].
  - constructor; [cbn; intros [H|[]]; discriminate H|].
    constructor; [intros []|constructor].
Defined.

Lemma covered_by_a_range oids rs x :
  flat_map (select oids) rs = oids -> In x oids ->
  exists r, In r rs /\ in_range r x = true.
Proof.
  intros Hflat Hx. rewrite <- Hflat in Hx. apply in_flat_map in Hx.
  destruct Hx as (r & Hr & Hx). apply filter_In in Hx. exists r. tauto.
Qed.

Lemma before_disjoint : forall rs r1 r2 x,
  StronglySorted before rs -> Forall (fun r => fst r <= snd r) rs ->
  In r1 rs -> In r2 rs ->
  in_range r1 x = true -> in_range r2 x = true -> r1 = r2.
Proof.
  assert (Hcross : forall r rs r' x,
            Forall (before r) rs -> In r' rs ->
            in_range r x = true -> in_range r' x = true -> False).
  { intros r rs r' x Hf Hin H1 H2. rewrite Forall_forall in Hf.
    specialize (Hf _ Hin). unfold before, in_range in *.
    apply andb_true_iff in H1, H2. rewrite !Z.leb_le in H1, H2. lia. }
  induction rs as [|r rs IH]; intros r1 r2 x Hs Hw H1 H2 Hx1 Hx2; [destruct H1|].
  inversion Hs as [|? ? Hs' Hf]; subst. inversion Hw as [|? ? _ Hw']; subst.
  destruct H1 as [<-|H1], H2 as [<-|H2].
  - reflexivity.
  - exfalso. exact (Hcross r rs r2 x Hf H2 Hx1 Hx2).
  - exfalso. exact (Hcross r rs r1 x Hf H1 Hx2 Hx1).
  - exact (IH r1 r2 x Hs' Hw' H1 H2 Hx1 Hx2).
Qed.

(** X5: when origins and eligible destinations have ascending ObjectIDs none
    of which is 0 and both chunk sizes are at least 1, every origin, eligible
    destination and start time is solved by exactly one chunk. *)
Theorem every_pair_is_solved_once origins destinations weight_field
    max_origins max_destinations start_times o d t :
  1 <= max_origins -> 1 <= max_destinations ->
  ascending origins -> Forall (fun x => x <> 0) origins ->
  ascending (destination_oids weight_field destinations) ->
  Forall (fun x => x <> 0) (destination_oids weight_field destinations) ->
  In o origins -> In d (destination_oids weight_field destinations) ->
  In t start_times ->
  let u := build origins destinations weight_field max_origins max_destinations
                 start_times in
  exists chunk,
    In chunk (chunks u) /\ solves chunk o d t /\
    forall chunk', In chunk' (chunks u) -> solves chunk' o d t -> chunk' = chunk.
Proof.
  intros Hmo Hmd Hao Hzo Had Hzd Ho Hd Ht u.
  assert (Hcur : SearchCursor origins (fun _ => true) = origins).
  { unfold SearchCursor. now apply filter_all. }
  pose proof (partition_correct origins max_origins Hmo Hao Hzo) as Po.
  pose proof (partition_correct _ max_destinations Hmd Had Hzd) as Pd.
  cbn zeta in Po, Pd.
  destruct Po as (Wo & So & _ & Fo & _). destruct Pd as (Wd & Sd & _ & Fd & _).
  destruct (covered_by_a_range _ _ o Fo Ho) as (ro & Hro & Hino).
  destruct (covered_by_a_range _ _ d Fd Hd) as (rd & Hrd & Hind).
  assert (Hor : origin_ranges u = ranges_of_oids origins max_origins).
  { unfold u, build, _get_oid_ranges_for_input. cbn [origin_ranges]. now rewrite Hcur. }
  destruct (chunk_membership origins destinations weight_field max_origins
              max_destinations start_times) as [Min Mout].
  fold u in Min, Mout.
  assert (Hdr : destination_ranges u
                = ranges_of_oids (destination_oids weight_field destinations)
                                 max_destinations) by reflexivity.
  exists (ro, rd, t). split; [|split].
  - apply Min. rewrite Hor, Hdr. tauto.
  - unfold solves. cbn [fst snd]. tauto.
  - intros [[ro' rd'] t'] Hin (H1 & H2 & H3). cbn [fst snd] in H1, H2, H3. subst t'.
    apply Mout in Hin.
    rewrite Hor, Hdr in Hin. destruct Hin as (Hro' & Hrd' & _).
    rewrite (before_disjoint _ ro' ro o So Wo Hro' Hro H1 Hino).
    rewrite (before_disjoint _ rd' rd d Sd Wd Hrd' Hrd H2 Hind).
    reflexivity.
Qed.

Lemma every_pair_is_solved_once_witness :
  let u := build [1; 2; 3] [Accessibility.mkDest 1 None; Accessibility.mkDest 2 None]
                 None 2 2 [0; 30] in
  exists chunk,
    In chunk (chunks u) /\ solves chunk 3 1 30 /\
    forall chunk', In chunk' (chunks u) -> solves chunk' 3 1 30 -> chunk' = chunk.
Proof.
  apply (every_pair_is_solved_once
           [1; 2; 3] [Accessibility.mkDest 1 None; Accessibility.mkDest 2 None]
           None 2 2 [0; 30] 3 1 30).
  - lia.
  - lia.
  - repeat constructor.
  - repeat constructor; discriminate.
  - repeat constructor.
  - repeat constructor; discriminate.
  - cbn. auto.
  - cbn. auto.
  - cbn. auto.
Defined.

End ChunkUniverseFacts.

(* ------------------------------------------------------------------------- *)

Module NamingFacts.
Import Partition ODCM Naming.

Local Open Scope string_scope.

Lemma append_assoc (a b c : string) : (a ++ b) ++ c = a ++ (b ++ c).
Proof. induction a as [|x a IH]; [reflexivity|]. cbn. now rewrite IH. Qed.

Lemma length_append (a b : string) :
  String.length (a ++ b) = (String.length a + String.length b)%nat.
Proof. induction a as [|x a IH]; [reflexivity|]. cbn. now rewrite IH. Qed.

Lemma append_inv_head (l a b : string) : l ++ a = l ++ b -> a = b.
Proof. induction l as [|x l IH]; [trivial|]. cbn. intros [= H]. now apply IH. Qed.

Lemma append_inv_tail (r : string) : forall a b, a ++ r = b ++ r -> a = b.
Proof.
  induction a as [|x a IH]; intros [|y b] H; cbn in H.
  - reflexivity.
  - exfalso. apply (f_equal String.length) in H. cbn in H. rewrite length_append in H. lia.
  - exfalso. apply (f_equal String.length) in H. cbn in H. rewrite length_append in H. lia.
  - injection H as -> H. f_equal. now apply IH.
Qed.

Lemma all_chars_append P (a b : string) :
  all_chars P (a ++ b) = all_chars P a && all_chars P b.
Proof. induction a as [|x a IH]; [reflexivity|]. cbn. now rewrite IH, andb_assoc. Qed.

Lemma all_chars_weaken (P Q : ascii -> bool) (s : string) :
  (forall c, P c = true -> Q c = true) -> all_chars P s = true -> all_chars Q s = true.
Proof.
  intros H. induction s as [|x s IH]; [trivial|]. cbn.
  intros E. apply andb_true_iff in E. destruct E as [E1 E2].
  now rewrite (H _ E1), IH.
Qed.

Lemma uint_chars (d : Decimal.uint) :
  all_chars is_digit (NilEmpty.string_of_uint d) = true.
Proof. induction d; cbn; trivial. Qed.

Lemma str_of_int_chars (z : Z) : all_chars is_int_char (Py.str_of_int z) = true.
Proof.
  assert (H : forall d, all_chars is_int_char (NilZero.string_of_uint d) = true).
  { intros d. destruct d; try reflexivity;
      apply (all_chars_weaken is_digit); try apply uint_chars;
      intros c Hc; unfold is_int_char; rewrite Hc; apply orb_true_r. }
  unfold Py.str_of_int. destruct (Z.to_int z) as [d|d]; cbn; [apply H|].
  apply H.
Qed.

Lemma str_of_int_inj (a b : Z) : Py.str_of_int a = Py.str_of_int b -> a = b.
Proof.
  unfold Py.str_of_int. intros H.
  assert (Hn : forall z, Z.to_int z <> Decimal.Pos Decimal.Nil /\
                         Z.to_int z <> Decimal.Neg Decimal.Nil).
  { intros [|q|q]; cbn; split; try discriminate; intros [= E];
      exact (DecimalPos.Unsigned.to_uint_nonnil q E). }
  apply DecimalZ.to_int_inj.
  pose proof (NilZero.isi (Z.to_int a) (proj1 (Hn a)) (proj2 (Hn a))) as Ea.
  pose proof (NilZero.isi (Z.to_int b) (proj1 (Hn b)) (proj2 (Hn b))) as Eb.
  rewrite H in Ea. congruence.
Qed.

(** Two texts that continue after the same separator, which neither has
    before it, split at the same place. *)
Lemma append_split P (c : ascii) : forall (x x' r r' : string),
  all_chars P x = true -> all_chars P x' = true -> P c = false ->
  x ++ String c r = x' ++ String c r' -> x = x' /\ r = r'.
Proof.
  induction x as [|a x IH]; intros [|a' x'] r r' Hx Hx' Hc H; cbn in *.
  - now injection H.
  - injection H as -> _. apply andb_true_iff in Hx'. destruct Hx' as [E _]. congruence.
  - injection H as <- _. apply andb_true_iff in Hx. destruct Hx as [E _]. congruence.
  - injection H as -> H. apply andb_true_iff in Hx, Hx'.
    destruct (IH x' r r' (proj2 Hx) (proj2 Hx') Hc H) as [-> ->]. now split.
Qed.

Lemma prefix_append_same (l a b : string) : prefix (l ++ a) (l ++ b) = prefix a b.
Proof.
  induction l as [|x l IH]; [reflexivity|]. cbn.
  destruct (ascii_dec x x) as [_|N]; [assumption | now elim N].
Qed.

Lemma prefix_split P (c : ascii) : forall (x' x r' r : string),
  all_chars P x' = true -> all_chars P x = true -> P c = false ->
  prefix (x' ++ String c r') (x ++ String c r) = true -> x' = x /\ prefix r' r = true.
Proof.
  induction x' as [|a' x' IH]; intros [|a x] r' r Hx' Hx Hc H; cbn in *.
  - destruct (ascii_dec c c) as [_|N]; [now split | now elim N].
  - destruct (ascii_dec c a) as [<-|_]; [|discriminate].
    apply andb_true_iff in Hx. destruct Hx as [E _]. congruence.
  - destruct (ascii_dec a' c) as [->|_]; [|discriminate].
    apply andb_true_iff in Hx'. destruct Hx' as [E _]. congruence.
  - destruct (ascii_dec a' a) as [->|_]; [|discriminate].
    apply andb_true_iff in Hx, Hx'.
    destruct (IH x r' r (proj2 Hx') (proj2 Hx) Hc H) as [-> Hp]. now split.
Qed.

Lemma has_sep_append (a b : string) :
  TravelTime.has_sep (a ++ b) = TravelTime.has_sep a || TravelTime.has_sep b.
Proof. induction a as [|x a IH]; [reflexivity|]. cbn. now rewrite IH, orb_assoc. Qed.

Lemma int_chars_no_sep (s : string) :
  all_chars is_int_char s = true -> TravelTime.has_sep s = false.
Proof.
  induction s as [|x s IH]; [trivial|]. cbn. intros H.
  apply andb_true_iff in H. destruct H as [Hx Hs]. rewrite (IH Hs), orb_false_r.
  unfold TravelTime.is_sep, TravelTime.backslash.
  destruct (x =? "/")%char eqn:E1.
  { apply Ascii.eqb_eq in E1. subst x. discriminate Hx. }
  destruct (x =? ascii_of_nat 92)%char eqn:E2; [|reflexivity].
  apply Ascii.eqb_eq in E2. subst x. discriminate Hx.
Qed.

Lemma basename_join (folder name : string) :
  TravelTime.has_sep name = false ->
  TravelTime.basename (path_join folder name) = name.
Proof.
  intros Hn. unfold path_join. cbn [append].
  induction folder as [|c folder IH]; cbn [append TravelTime.basename].
  - now rewrite Hn.
  - rewrite has_sep_append. cbn [TravelTime.has_sep].
    replace (TravelTime.is_sep TravelTime.backslash) with true by reflexivity.
    cbn [orb]. rewrite orb_true_r. exact IH.
Qed.

Lemma out_filename_no_sep o d (t : string) :
  TravelTime.has_sep t = false ->
  TravelTime.has_sep (out_filename o d t ++ ".csv") = false.
Proof.
  intros Ht. unfold out_filename.
  rewrite !has_sep_append, Ht,
    !(int_chars_no_sep _ (str_of_int_chars _)). reflexivity.
Qed.

Lemma underscore_not_int_char : is_int_char "_" = false.
Proof. reflexivity. Qed.

(** X6: the name of a result file determines the chunk it was written for:
    two chunks that differ in their origin range, destination range or time
    string are written to different files of the output folder. *)
Theorem result_file_names_the_chunk od_output_location o d t o' d' t' :
  output_od_lines od_output_location o d t = output_od_lines od_output_location o' d' t' ->
  o = o' /\ d = d' /\ t = t'.
Proof.
  unfold output_od_lines, path_join, out_filename. intros H.
  apply append_inv_head in H. cbn [append] in H. injection H as H.
  apply append_inv_tail in H.
  destruct o as [a b], o' as [a' b'], d as [c e], d' as [c' e']. cbn [fst snd] in H.
  cbn [append] in H.
  apply (append_split is_int_char) in H;
    [| apply str_of_int_chars | apply str_of_int_chars | reflexivity].
  destruct H as [Ha H]. apply str_of_int_inj in Ha.
  apply (append_split is_int_char) in H;
    [| apply str_of_int_chars | apply str_of_int_chars | reflexivity].
  destruct H as [Hb H]. apply str_of_int_inj in Hb.
  injection H as H.
  apply (append_split is_int_char) in H;
    [| apply str_of_int_chars | apply str_of_int_chars | reflexivity].
  destruct H as [Hc H]. apply str_of_int_inj in Hc.
  apply (append_split is_int_char) in H;
    [| apply str_of_int_chars | apply str_of_int_chars | reflexivity].
  destruct H as [He H]. apply str_of_int_inj in He.
  injection H as H. subst. auto.
Qed.

Lemma result_file_names_the_chunk_witness :
  (1, 10) = (1, 10) /\ (21, 40) = (21, 40) /\
  "20220428_091500"%string = "20220428_091500"%string.
Proof.
  apply (result_file_names_the_chunk "out" (1, 10) (21, 40) "20220428_091500"
           (1, 10) (21, 40) "20220428_091500").
  reflexivity.
Defined.

Lemma startswith_range_prefix o d (t : string) o' :
  Py.startswith (out_filename o d t ++ ".csv") (TravelTime.range_prefix o') = range_eqb o' o.
Proof.
  unfold Py.startswith, TravelTime.range_prefix, out_filename.
  rewrite !append_assoc, prefix_append_same.
  destruct o as [a b], o' as [a' b']. unfold range_eqb. cbn [fst snd].
  cbn [append].
  destruct (prefix _ _) eqn:E.
  - apply (prefix_split is_int_char) in E;
      [| apply str_of_int_chars | apply str_of_int_chars | reflexivity].
    destruct E as [Ha E]. apply str_of_int_inj in Ha.
    apply (prefix_split is_int_char) in E;
      [| apply str_of_int_chars | apply str_of_int_chars | reflexivity].
    destruct E as [Hb _]. apply str_of_int_inj in Hb. subst.
    now rewrite !Z.eqb_refl.
  - symmetry. apply andb_false_iff.
    destruct (a' =? a)%Z eqn:Ea; [|now left]. destruct (b' =? b)%Z eqn:Eb; [|now right].
    apply Z.eqb_eq in Ea, Eb. subst. exfalso.
    rewrite prefix_append_same in E. cbn [prefix] in E.
    destruct (ascii_dec "_" "_") as [_|N]; [|now elim N].
    rewrite prefix_append_same in E. cbn [prefix] in E.
    destruct (ascii_dec "_" "_") as [_|N]; [discriminate | now elim N].
Qed.

(** X7: the travel time aggregator groups a result file under an origin
    range exactly when the file was written for that origin range: the ranges
    [1, 10] and [1, 100] do not capture each other's files. *)
Theorem origin_range_selects_its_files od_output_location o d t o' :
  TravelTime.has_sep t = false ->
  Py.startswith (TravelTime.basename (output_od_lines od_output_location o d t))
                (TravelTime.range_prefix o') = true
  <-> o' = o.
Proof.
  intros Ht. unfold output_od_lines.
  rewrite (basename_join _ _ (out_filename_no_sep o d t Ht)), startswith_range_prefix.
  unfold range_eqb. destruct o as [a b], o' as [a' b']. cbn [fst snd].
  rewrite andb_true_iff, !Z.eqb_eq. split; [intros [-> ->]; reflexivity|].
  intros [= -> ->]. now split.
Qed.

Lemma origin_range_selects_its_files_witness :
  Py.startswith
    (TravelTime.basename (output_od_lines "C:\scratch" (1, 10) (1, 20) "20220428_091500"))
    (TravelTime.range_prefix (1, 100)) = true
  <-> (1, 100) = (1, 10).
Proof.
  apply (origin_range_selects_its_files "C:\scratch" (1, 10) (1, 20) "20220428_091500" (1, 100)).
  reflexivity.
Defined.

End NamingFacts.

(* ------------------------------------------------------------------------- *)

Module TravelTimeTraceFacts.
Import Partition ODCM Naming TravelTime.

Lemma range_eqb_eq (a b : OidRange) : range_eqb a b = true <-> a = b.
Proof.
  unfold range_eqb. destruct a, b. cbn [fst snd].
  rewrite andb_true_iff, !Z.eqb_eq. split; [intros [-> ->]; reflexivity|].
  intros [= -> ->]. now split.
Qed.

Lemma reads_app t1 t2 : reads (t1 ++ t2) = reads t1 ++ reads t2.
Proof. apply flat_map_app. Qed.

Lemma reads_ReadCsv files : reads (map ReadCsv files) = files.
Proof. induction files as [|f fs IH]; [reflexivity|]. cbn. f_equal. exact IH. Qed.

Lemma write_modes_app t1 t2 : write_modes (t1 ++ t2) = write_modes t1 ++ write_modes t2.
Proof. apply flat_map_app. Qed.

Lemma write_modes_ReadCsv files : write_modes (map ReadCsv files) = [].
Proof. induction files as [|f fs IH]; [reflexivity|]. exact IH. Qed.

Lemma reads_loop i : forall rs st,
  reads (trace (fold_left (loop_body i) rs st)) =
  reads (trace st) ++ flat_map (files_for_origin_range i) rs.
Proof.
  induction rs as [|r rs IH]; intros st; cbn [fold_left flat_map].
  - now rewrite app_nil_r.
  - rewrite IH. unfold loop_body.
    destruct (files_for_origin_range i r) as [|f fs] eqn:E.
    + reflexivity.
    + destruct (first st); cbn [trace];
        rewrite !reads_app, reads_ReadCsv; cbn [reads flat_map];
        now rewrite !app_nil_r, <- app_assoc.
Qed.

Lemma files_of_chunks loc read chunks rs r :
  Forall (fun chunk => has_sep (snd chunk) = false) chunks ->
  files_for_origin_range (mkInputs (chunk_files loc chunks) read rs) r =
  chunk_files loc (filter (fun chunk => range_eqb r (fst (fst chunk))) chunks).
Proof.
  unfold files_for_origin_range, chunk_files. cbn [od_line_files].
  induction 1 as [|[[o d] t] chunks Ht _ IH]; [reflexivity|].
  cbn [map filter fst snd] in *. unfold output_od_lines at 1.
  rewrite (NamingFacts.basename_join _ _ (NamingFacts.out_filename_no_sep o d t Ht)),
    NamingFacts.startswith_range_prefix.
  destruct (range_eqb r o); cbn [map]; now rewrite IH.
Qed.

Lemma flat_map_nil {A B} (l : list A) : flat_map (fun _ : A => @nil B) l = [].
Proof. induction l; [reflexivity | assumption]. Qed.

Lemma flat_map_pick {A} (o : OidRange) (x : A) (F : OidRange -> list A) : forall rs,
  NoDup rs ->
  (In o rs ->
   Permutation (flat_map (fun r => if range_eqb r o then x :: F r else F r) rs)
               (x :: flat_map F rs)) /\
  (~ In o rs ->
   flat_map (fun r => if range_eqb r o then x :: F r else F r) rs = flat_map F rs).
Proof.
  induction 1 as [|r rs Hr Hnd IH]; [split; [intros [] | reflexivity]|].
  destruct IH as [IH1 IH2]. cbn [flat_map]. split.
  - intros [->|Hin].
    + destruct (range_eqb o o) eqn:E; [|now rewrite (proj2 (range_eqb_eq o o) eq_refl) in E].
      rewrite (IH2 Hr). reflexivity.
    + destruct (range_eqb r o) eqn:E.
      { apply range_eqb_eq in E. subst. contradiction. }
      rewrite (IH1 Hin). apply Permutation_sym, Permutation_middle.
  - intros Hn. destruct (range_eqb r o) eqn:E.
    { apply range_eqb_eq in E. subst. elim Hn. now left. }
    rewrite IH2; [reflexivity|]. intros Hin. apply Hn. now right.
Qed.

Lemma chunks_by_origin_range {D T} (chunks : list (OidRange * D * T)) rs :
  NoDup rs ->
  Forall (fun chunk => In (fst (fst chunk)) rs) chunks ->
  Permutation
    (flat_map (fun r => filter (fun chunk => range_eqb r (fst (fst chunk))) chunks) rs)
    chunks.
Proof.
  intros Hnd. induction 1 as [|chunk chunks Hin _ IH]; cbn [filter].
  - now rewrite flat_map_nil.
  - rewrite (proj1 (flat_map_pick (fst (fst chunk)) chunk
                      (fun r => filter (fun c => range_eqb r (fst (fst c))) chunks)
                      rs Hnd) Hin).
    now constructor.
Qed.

Lemma flat_map_chunk_files {R} loc (F : R -> list (OidRange * OidRange * string)) rs :
  flat_map (fun r => chunk_files loc (F r)) rs = chunk_files loc (flat_map F rs).
Proof.
  unfold chunk_files. induction rs as [|r rs IH]; [reflexivity|].
  cbn [flat_map]. now rewrite map_app, IH.
Qed.

Lemma reads_chunk_files loc read chunks rs :
  Forall (fun chunk => has_sep (snd chunk) = false) chunks ->
  NoDup rs ->
  Forall (fun chunk => In (fst (fst chunk)) rs) chunks ->
  Permutation
    (reads (trace (_calculate_travel_time_statistics_outputs
                     (mkInputs (chunk_files loc chunks) read rs))))
    (chunk_files loc chunks).
Proof.
  intros Ht Hnd Hin.
  unfold _calculate_travel_time_statistics_outputs. rewrite reads_loop.
  cbn [trace reads flat_map app origin_ranges].
  erewrite flat_map_ext; [|intros r; apply (files_of_chunks loc read chunks rs r Ht)].
  rewrite flat_map_chunk_files. unfold chunk_files. apply Permutation_map.
  now apply chunks_by_origin_range.
Qed.

(** X8: when the result files are those of chunks whose origin ranges are
    among the distinct origin ranges of the run, the travel time aggregator
    reads every result file exactly once, each under the origin range it was
    written for. *)
Theorem every_result_file_is_read_once loc read chunks rs :
  Forall (fun chunk => has_sep (snd chunk) = false) chunks ->
  NoDup rs ->
  Forall (fun chunk => In (fst (fst chunk)) rs) chunks ->
  let i := mkInputs (chunk_files loc chunks) read rs in
  (forall r,
     files_for_origin_range i r =
     chunk_files loc (filter (fun chunk => range_eqb r (fst (fst chunk))) chunks)) /\
  Permutation (reads (trace (_calculate_travel_time_statistics_outputs i)))
              (chunk_files loc chunks).
Proof.
  intros Ht Hnd Hin i. split; [intros r; now apply files_of_chunks|].
  now apply reads_chunk_files.
Qed.

Lemma every_result_file_is_read_once_witness :
  let chunks := [((1, 10), (1, 20), "20220428_080000"); ((1, 100), (1, 20), "20220428_080000");
                 ((1, 10), (21, 40), "20220428_080000")]%string in
  let i := mkInputs (chunk_files "scratch" chunks) (fun _ => []) [(1, 100); (1, 10)] in
  (forall r,
     files_for_origin_range i r =
     chunk_files "scratch" (filter (fun chunk => range_eqb r (fst (fst chunk))) chunks)) /\
  Permutation (reads (trace (_calculate_travel_time_statistics_outputs i)))
              (chunk_files "scratch" chunks).
Proof.
  apply (every_result_file_is_read_once "scratch" (fun _ => [])
           [((1, 10), (1, 20), "20220428_080000"); ((1, 100), (1, 20), "20220428_080000");
            ((1, 10), (21, 40), "20220428_080000")]%string [(1, 100); (1, 10)]).
  - repeat constructor.
  - constructor; [cbn; intros [H|[]]; discriminate H|].
    constructor; [intros []|constructor].
  - repeat (constructor; [cbn; auto|]). constructor.
Defined.

Lemma modes_loop i : forall rs st,
  let st' := fold_left (loop_body i) rs st in
  let n := length (filter (fun r => match files_for_origin_range i r with
                                    | [] => false
                                    | _ => true
                                    end) rs) in
  write_modes (trace st') =
    write_modes (trace st)
    ++ (if first st then create_then_append n else repeat (true, false) n) /\
  first st' = first st && (n =? 0)%nat /\
  (n = O -> out_csv st' = out_csv st) /\
  (n <> O -> out_csv st' <> None).
Proof.
  induction rs as [|r rs IH]; intros st; cbn zeta.
  - cbn [fold_left filter length]. rewrite andb_true_r.
    destruct (first st); cbn; rewrite app_nil_r; repeat split; congruence.
  - cbn [fold_left filter]. specialize (IH (loop_body i st r)). cbn zeta in IH.
    destruct IH as (IH1 & IH2 & IH3 & IH4).
    set (n := length (filter _ rs)) in *.
    unfold loop_body in IH1, IH2, IH3, IH4 |- *.
    destruct (files_for_origin_range i r) as [|f fs] eqn:E.
    + fold n. repeat split; assumption.
    + cbn [length]. destruct (first st) eqn:F; cbn [first trace out_csv] in *.
      * rewrite IH1, !write_modes_app, write_modes_ReadCsv. cbn [write_modes flat_map app].
        rewrite <- app_assoc. cbn [app create_then_append].
        repeat split; try congruence.
        -- rewrite IH2. reflexivity.
        -- intros _. destruct (Nat.eq_dec n 0) as [Z|NZ]; [rewrite (IH3 Z); discriminate|].
           now apply IH4.
      * rewrite IH1, !write_modes_app, write_modes_ReadCsv. cbn [write_modes flat_map app].
        rewrite <- app_assoc. cbn [app repeat].
        repeat split; try congruence.
        -- rewrite IH2. reflexivity.
        -- intros _. destruct (Nat.eq_dec n 0) as [Z|NZ]; [rewrite (IH3 Z); discriminate|].
           now apply IH4.
Qed.

(** X9: the travel time aggregator creates the output file with a header at
    the first origin range that has result files and appends to it, without a
    header, for each later one; when no origin range has a result file it
    writes nothing and leaves no output file. *)
Theorem output_file_is_created_once i :
  let final := _calculate_travel_time_statistics_outputs i in
  write_modes (trace final) = create_then_append (length (ranges_with_files i)) /\
  (out_csv final = None <-> ranges_with_files i = []).
Proof.
  cbn zeta. unfold _calculate_travel_time_statistics_outputs, ranges_with_files.
  destruct (modes_loop i (origin_ranges i) (mkLoop true None [])) as (H1 & _ & H3 & H4).
  cbn zeta in *. cbn [first trace out_csv write_modes flat_map app] in *.
  split; [exact H1|]. split.
  - intros E. destruct (filter _ (origin_ranges i)) as [|r l] eqn:F; [reflexivity|].
    exfalso. apply H4; [discriminate | exact E].
  - intros E. rewrite E in H3. now apply H3.
Qed.

End TravelTimeTraceFacts.

(* ------------------------------------------------------------------------- *)

Module GroupClaimFacts.
Import Frame FrameFacts Partition Naming TravelTime TravelTimeFacts GroupClaim.

Lemma files_are_group_files i r :
  files_for_origin_range i r = group_files (od_line_files i) r.
Proof. reflexivity. Qed.

Lemma group_lines_are_samples i r :
  group_lines i r = group_samples (read_csv i) (od_line_files i) r.
Proof. reflexivity. Qed.

Lemma group_block_events i r block :
  group_block i r block -> group_events (read_csv i) (od_line_files i) r block.
Proof.
  unfold group_block, group_events.
  rewrite files_are_group_files, group_lines_are_samples. trivial.
Qed.

(** C5: the result files grouped under an origin range are those whose base
    name starts with [ODLines_O_{low}_{high}_]; the trace is, origin range
    by origin range, the reads of the group's files followed by the write of
    the group's rows, and the output file holds the rows of the groups in
    that order; every pair in the files of a group has a row with the count,
    the minimum, the maximum and the mean of the travel times the files of
    that group report for it. Among the result files that
    [ODCostMatrix.solve] writes for the chunks of a run, the group of an
    origin range is made of the files of the chunks solved for that origin
    range. Two files of the origin range 1 to 2 reporting 10 and 20 for the
    pair (1, 1), beside a file of the origin range 3 to 4, give for that
    pair the row count 2, min 10, max 20, mean 15. *)
Theorem travel_time_statistics_by_group :
  (forall i,
     let final := _calculate_travel_time_statistics_outputs i in
     let files := od_line_files i in
     (forall r, files_for_origin_range i r = group_files files r) /\
     written (out_csv final) =
       flat_map (fun r => stats (group_samples (read_csv i) files r)) (origin_ranges i) /\
     (exists blocks,
        trace final = concat blocks /\
        Forall2 (group_events (read_csv i) files) (origin_ranges i) blocks) /\
     (forall r line,
        In r (origin_ranges i) -> In line (group_samples (read_csv i) files r) ->
        let p := (OriginOID line, DestinationOID line) in
        let s := samples (group_samples (read_csv i) files r) p in
        exists row,
          In row (written (out_csv final)) /\
          stat_origin row = fst p /\ stat_destination row = snd p /\
          stat_count row = Z.of_nat (length s) /\
          (In (stat_min row) s /\ forall t, In t s -> stat_min row <= t)%Q /\
          (In (stat_max row) s /\ forall t, In t s -> t <= stat_max row)%Q /\
          (stat_mean row == Qsum s / inject_Z (Z.of_nat (length s)))%Q)) /\
  (forall loc chunks r,
     Forall (fun chunk => has_sep (snd chunk) = false) chunks ->
     group_files (chunk_files loc chunks) r = chunk_files loc (chunks_of r chunks)) /\
  (let f1 := output_od_lines "scratch" (1, 2) (1, 3) "20220428_080000" in
   let f2 := output_od_lines "scratch" (1, 2) (1, 3) "20220428_083000" in
   let f3 := output_od_lines "scratch" (3, 4) (1, 3) "20220428_080000" in
   let i := mkInputs [f1; f2; f3]
              (fun f => if (f =? f1)%string then [mkLine 1 1 10]
                        else if (f =? f2)%string then [mkLine 1 1 20]
                        else if (f =? f3)%string then [mkLine 3 1 30] else [])
              [(1, 2); (3, 4)] in
   exists row other,
     out_csv (_calculate_travel_time_statistics_outputs i) = Some [row; other] /\
     stat_origin row = 1 /\ stat_destination row = 1 /\ stat_count row = 2 /\
     (stat_min row == 10)%Q /\ (stat_max row == 20)%Q /\ (stat_mean row == 15)%Q /\
     stat_origin other = 3 /\ stat_destination other = 1 /\ stat_count other = 1 /\
     (stat_min other == 30)%Q /\ (stat_max other == 30)%Q /\ (stat_mean other == 30)%Q).
Proof.
  split; [|split].
  - intros i final files.
    pose proof (loop_spec i (origin_ranges i) (mkLoop true None []) (fun _ => eq_refl)) as H.
    cbn zeta in H. cbn [written out_csv trace app] in H.
    change (fold_left (loop_body i) (origin_ranges i) (mkLoop true None []))
      with (_calculate_travel_time_statistics_outputs i) in H.
    fold final in H. destruct H as (Hw & blocks & Htr & Hb).
    assert (Hrows : written (out_csv final)
                    = flat_map (fun r => stats (group_samples (read_csv i) files r))
                               (origin_ranges i)).
    { rewrite Hw. apply flat_map_ext. intros r. now rewrite group_lines_are_samples. }
    split; [|split; [exact Hrows | split]].
    + intros r. apply files_are_group_files.
    + exists blocks. split; [exact Htr|].
      eapply Forall2_impl; [|exact Hb]. intros r block. apply group_block_events.
    + intros r line Hr Hline p s.
      exists (mkStats (fst p) (snd p) (Z.of_nat (length s))
                      (Qlist_min s) (Qlist_max s) (mean s)).
      assert (Hs : s <> []) by now apply samples_nonempty.
      split.
      * rewrite Hrows. apply in_flat_map. exists r. split; [assumption|].
        now apply stats_In.
      * cbn [stat_origin stat_destination stat_count stat_min stat_max stat_mean].
        split; [reflexivity|]. split; [reflexivity|]. split; [reflexivity|].
        split; [now apply Qlist_min_spec|]. split; [now apply Qlist_max_spec|].
        reflexivity.
  - intros loc chunks r Ht.
    rewrite <- (files_are_group_files (mkInputs (chunk_files loc chunks) (fun _ => []) [])).
    now apply TravelTimeTraceFacts.files_of_chunks.
  - exists (mkStats 1 1 2 10 20 (30 # 2)), (mkStats 3 1 1 30 30 (30 # 1)).
    split; [vm_compute; reflexivity|]. repeat split; reflexivity.
Qed.

Lemma travel_time_statistics_by_group_witness :
  let chunks := [((1, 2), (1, 3), "20220428_080000"); ((1, 2), (1, 3), "20220428_083000");
                 ((3, 4), (1, 3), "20220428_080000")]%string in
  let f1 := output_od_lines "scratch" (1, 2) (1, 3) "20220428_080000" in
  let f2 := output_od_lines "scratch" (1, 2) (1, 3) "20220428_083000" in
  let f3 := output_od_lines "scratch" (3, 4) (1, 3) "20220428_080000" in
  group_files (chunk_files "scratch" chunks) (1, 2) = [f1; f2] /\
  group_files (chunk_files "scratch" chunks) (3, 4) = [f3].
Proof.
  intros chunks f1 f2 f3.
  pose proof (proj1 (proj2 travel_time_statistics_by_group) "scratch"%string chunks) as H.
  split.
  - apply (H (1, 2)). repeat constructor.
  - apply (H (3, 4)). repeat constructor.
Defined.

End GroupClaimFacts.

(* ------------------------------------------------------------------------- *)

Module ObservationFacts.
Import ODCM Scheduler Observations Naming.

Lemma insert_sorted_ordered x l :
  ordered l -> ordered (Py.insert_sorted String.leb x l).
Proof.
  unfold ordered. induction 1 as [|y l Hs IH Hy]; cbn [Py.insert_sorted].
  - repeat constructor.
  - destruct (String.leb x y) eqn:E.
    + constructor; [now constructor|]. constructor; [assumption|].
      eapply Forall_impl; [|exact Hy]. intros z Hz. cbv beta in *.
      exact (PyFacts.string_leb_trans x y z E Hz).
    + constructor; [assumption|].
      assert (Hyx : String.leb y x = true).
      { destruct (String.leb_total x y) as [H|H]; [congruence | assumption]. }
      eapply Permutation_Forall; [symmetry; apply PyFacts.insert_sorted_perm|].
      now constructor.
Qed.

Lemma sorted_ordered l : ordered (Py.sorted String.leb l).
Proof.
  induction l as [|x l IH]; [constructor|]. cbn [Py.sorted fold_right].
  now apply insert_sorted_ordered.
Qed.

(** X10: when every result is retrieved, the list of result files the run
    ends with, which is the list the aggregator is called with, holds the
    files already listed and the output of every successful solve, each as
    often as it was reported, in ascending order of their paths. *)
Theorem result_files_are_sorted self disk jobs :
  existsb raises jobs = false ->
  let r := solve_od_in_parallel self disk None jobs in
  Permutation (final_od_line_files r) (od_line_files self ++ successful_files jobs) /\
  ordered (final_od_line_files r) /\
  (od_line_files self ++ successful_files jobs <> [] ->
   filter is_aggregator_call (events r) =
   match tool self with
   | CalculateAccessibilityMatrix => [CallAccessibility (final_od_line_files r)]
   | CalculateTravelTimeStatistics => [CallTravelTime (final_od_line_files r)]
   end).
Proof.
  intros Hok r.
  destruct (SchedulerFacts.run_returns self disk jobs Hok) as (_ & _ & Hcalls).
  fold r in Hcalls.
  assert (Hfinal : final_od_line_files r =
                   match od_line_files self ++ successful_files jobs with
                   | [] => []
                   | files => Py.sorted String.leb files
                   end).
  { unfold r, solve_od_in_parallel.
    destruct (SchedulerFacts.as_completed_returns (total_jobs self) jobs
                (mkLoop (od_line_files self) 0
                   [Log DEBUG "Validating OD Cost Matrix settings...";
                    Log DEBUG "OD Cost Matrix settings successfully validated.";
                    Log INFO ("Solving OD Cost Matrix in parallel ("
                                ++ Py.str_of_int (total_jobs self) ++ " chunks)...")])
                Hok) as (st' & E & _ & Hfiles).
    rewrite E. cbn [loop_od_line_files] in Hfiles. unfold post_process. rewrite Hfiles.
    destruct (od_line_files self ++ successful_files jobs); [reflexivity|].
    now destruct (tool self). }
  split; [|split].
  - rewrite Hfinal. destruct (od_line_files self ++ successful_files jobs) as [|f fs];
      [constructor | apply PyFacts.sorted_perm].
  - rewrite Hfinal. destruct (od_line_files self ++ successful_files jobs) as [|f fs];
      [constructor | apply sorted_ordered].
  - intros Hne. rewrite Hcalls, Hfinal. unfold aggregator_calls.
    destruct (od_line_files self ++ successful_files jobs) as [|f fs]; [congruence|].
    reflexivity.
Qed.

Lemma result_files_are_sorted_witness :
  let self :=
    mkCalc CalculateTravelTimeStatistics [1] [Accessibility.mkDest 1 None] None [0]
           [(1, 1)] "scratch" "scratch" 3 [] in
  let jobs : list Future :=
    [inr (mkJobResult "j1" true EmptyString "c" "j1.log");
     inr (mkJobResult "j2" false "No route" EmptyString "j2.log");
     inr (mkJobResult "j3" true EmptyString "a" "j3.log")] in
  let r := solve_od_in_parallel self (fun _ => None) None jobs in
  Permutation (final_od_line_files r) (od_line_files self ++ successful_files jobs) /\
  ordered (final_od_line_files r) /\
  (od_line_files self ++ successful_files jobs <> [] ->
   filter is_aggregator_call (events r) =
   match tool self with
   | CalculateAccessibilityMatrix => [CallAccessibility (final_od_line_files r)]
   | CalculateTravelTimeStatistics => [CallTravelTime (final_od_line_files r)]
   end).
Proof.
  apply (result_files_are_sorted
           (mkCalc CalculateTravelTimeStatistics [1] [Accessibility.mkDest 1 None] None [0]
                   [(1, 1)] "scratch" "scratch" 3 [])
           (fun _ => None)
           [inr (mkJobResult "j1" true EmptyString "c" "j1.log");
            inr (mkJobResult "j2" false "No route" EmptyString "j2.log");
            inr (mkJobResult "j3" true EmptyString "a" "j3.log")]).
  reflexivity.
Defined.

Lemma filter_rmtree_logs level lines : filter is_rmtree (map (Log level) lines) = [].
Proof. induction lines; [reflexivity | assumption]. Qed.

Lemma as_completed_rmtree total : forall jobs st,
  filter is_rmtree (loop_events (fst (as_completed total jobs st))) =
  filter is_rmtree (loop_events st).
Proof.
  induction jobs as [|[e|result] jobs IH]; intros st; cbn [as_completed fst].
  - reflexivity.
  - cbn [loop_events progress]. rewrite !filter_app, filter_rmtree_logs.
    cbn [filter is_rmtree]. now rewrite !app_nil_r.
  - rewrite IH. unfold store_result, progress. cbn [loop_events completed_jobs].
    destruct (solveSucceeded result); cbn [loop_events];
      rewrite !filter_app; cbn [filter is_rmtree]; now rewrite !app_nil_r.
Qed.

(** X11: the scratch folder is removed exactly once by a run that returns,
    also when every solve failed, and it is not touched by a run that raises,
    whether the settings were rejected or a result could not be retrieved. *)
Theorem scratch_folder_removed_iff_run_returns self disk validation jobs :
  let r := solve_od_in_parallel self disk validation jobs in
  filter is_rmtree (events r) =
  match raised r with
  | None => [Rmtree (scratch_folder self)]
  | Some _ => []
  end.
Proof.
  cbn zeta. unfold solve_od_in_parallel. destruct validation as [e|].
  - cbn [events raised]. cbn [app filter is_rmtree]. apply filter_rmtree_logs.
  - pose proof (as_completed_rmtree (total_jobs self) jobs
                  (mkLoop (od_line_files self) 0
                     [Log DEBUG "Validating OD Cost Matrix settings...";
                      Log DEBUG "OD Cost Matrix settings successfully validated.";
                      Log INFO ("Solving OD Cost Matrix in parallel ("
                                  ++ Py.str_of_int (total_jobs self) ++ " chunks)...")]))
      as H.
    cbn [loop_events filter is_rmtree] in H.
    destruct (as_completed _ _ _) as [st [e|]]; cbn [fst] in H.
    + cbn [events raised]. exact H.
    + unfold post_process, written_elsewhere, cleanup.
      destruct (loop_od_line_files st); [|destruct (tool self)];
        cbn [events raised]; rewrite !filter_app, H;
        destruct (od_output_location self =? scratch_folder self)%string; reflexivity.
Qed.

Lemma seq_shift_map {A} (f : nat -> A) n a :
  map f (seq (S a) n) = map (fun k => f (S k)) (seq a n).
Proof. now rewrite <- seq_shift, map_map. Qed.

Lemma filter_info_errors lines : filter (is_log_at INFO) (map (Log ERROR) lines) = [].
Proof. induction lines; [reflexivity | assumption]. Qed.

(** X12: the loop announces every future it takes exactly once, at level
    INFO, numbered from one more than the count it started with, whether the
    solve succeeded, failed or its result could not be retrieved; it logs
    nothing else at that level. *)
Theorem every_future_is_announced_once total jobs st :
  let st' := fst (as_completed total jobs st) in
  completed_jobs st' = completed_jobs st + Z.of_nat (consumed jobs) /\
  filter (is_log_at INFO) (loop_events st') =
    filter (is_log_at INFO) (loop_events st)
    ++ map (fun k => progress_record total (completed_jobs st + Z.of_nat k))
           (seq 1 (consumed jobs)).
Proof.
  cbn zeta. revert st.
  induction jobs as [|[e|result] jobs IH]; intros st; cbn [as_completed fst consumed].
  - cbn [seq map]. rewrite app_nil_r. split; [lia | reflexivity].
  - cbn [completed_jobs loop_events progress seq map]. split; [lia|].
    rewrite !filter_app, filter_info_errors. cbn [filter is_log_at].
    now rewrite !app_nil_r.
  - destruct (IH (store_result (progress total st) result)) as [IH1 IH2].
    assert (Hc : completed_jobs (store_result (progress total st) result)
                 = completed_jobs st + 1).
    { unfold store_result. now destruct (solveSucceeded result). }
    assert (He : filter (is_log_at INFO)
                   (loop_events (store_result (progress total st) result))
                 = filter (is_log_at INFO) (loop_events st)
                   ++ [progress_record total (completed_jobs st + 1)]).
    { unfold store_result, progress. cbn [loop_events completed_jobs].
      destruct (solveSucceeded result); cbn [loop_events];
        rewrite !filter_app; cbn [filter is_log_at]; now rewrite ?app_nil_r. }
    rewrite IH1, IH2, Hc, He. split; [lia|].
    rewrite <- app_assoc. f_equal. cbn [seq map app]. f_equal.
    rewrite (seq_shift_map _ _ 1). apply map_ext. intros k. f_equal. lia.
Qed.

(** X13: a worker whose solve succeeds reports success and the path of the
    chunk's result file; that file then holds the lines of the solve, no
    other file has changed, and the scheduler adds the path to its list of
    result files. *)
Theorem successful_solve_writes_one_file job_id scratch_folder od_output_location disk
    o d t solve_result :
  sr_solveSucceeded solve_result = true ->
  let worked :=
    solve_od_cost_matrix job_id scratch_folder od_output_location disk (o, d, t)
                         solve_result in
  let result := fst worked in
  jobId result = job_id /\
  solveSucceeded result = true /\
  solveMessages result = snd (handle_messages (solverMessages solve_result)) /\
  outputLines result = output_od_lines od_output_location o d t /\
  snd worked (outputLines result) = Some (Lines solve_result) /\
  (forall path, path <> outputLines result -> snd worked path = disk path) /\
  (forall st,
     loop_od_line_files (store_result st result) =
     loop_od_line_files st ++ [output_od_lines od_output_location o d t]).
Proof.
  intros Hok. cbn zeta.
  unfold solve_od_cost_matrix, solve, _export_to_csv, ODCostMatrix_init.
  destruct (handle_messages (solverMessages solve_result)) as [logged msgs] eqn:E.
  rewrite Hok. cbn [negb ODCM.job_result fst snd ODCM.od_output_location set_outputLines
                    set_solveSucceeded set_solveMessages initial_job_result jobId
                    solveSucceeded solveMessages outputLines logFile].
  fold (output_od_lines od_output_location o d t).
  repeat (split; [reflexivity|]). split; [|split].
  - unfold write_file. now rewrite String.eqb_refl.
  - intros path Hp. unfold write_file.
    destruct (String.eqb_spec path (output_od_lines od_output_location o d t));
      [contradiction | reflexivity].
  - intros st. unfold store_result. reflexivity.
Qed.

Lemma successful_solve_writes_one_file_witness :
  let solve_result :=
    mkSolveResult true ["Solve succeeded."%string]
                  [TravelTime.mkLine 1 3 (5 # 2); TravelTime.mkLine 2 3 7] in
  let worked :=
    solve_od_cost_matrix "j1" "scratch" "out" (fun _ => None)
                         ((1, 10), (1, 20), "20220428_091500"%string) solve_result in
  solveSucceeded (fst worked) = true /\
  snd worked (outputLines (fst worked)) = Some (Lines solve_result) /\
  snd worked "out\other.csv"%string = None.
Proof.
  pose proof (successful_solve_writes_one_file "j1" "scratch" "out" (fun _ => None)
                (1, 10) (1, 20) "20220428_091500"
                (mkSolveResult true ["Solve succeeded."%string]
                   [TravelTime.mkLine 1 3 (5 # 2); TravelTime.mkLine 2 3 7])
                eq_refl) as H.
  cbn zeta in H. destruct H as (_ & H2 & _ & H4 & H5 & H6 & _).
  split; [exact H2|]. split; [exact H5|].
  apply H6. rewrite H4. discriminate.
Defined.

(** X14: the messages a worker reports are the messages of the solve that
    do not start with [No "Destinations" found for ], in order, followed,
    when some were removed, by one line that states how many; every message
    of the solve, removed or not, is first written to the job's log. *)
Theorem removed_messages_are_counted solve_msgs :
  let repeated := fun msg => Py.startswith msg common_msg_prefix in
  snd (handle_messages solve_msgs) =
    Py.join newline (filter (fun msg => negb (repeated msg)) solve_msgs
                     ++ consolidated (filter repeated solve_msgs)) /\
  firstn (length solve_msgs) (fst (handle_messages solve_msgs)) =
    map (fun msg => (DEBUG, msg)) solve_msgs /\
  (length (fst (handle_messages solve_msgs)) =
   length solve_msgs + length (consolidated (filter repeated solve_msgs)))%nat.
Proof.
  cbn zeta. unfold handle_messages.
  pose proof (PartitionFacts.filter_split_length
                (fun msg => Py.startswith msg common_msg_prefix) solve_msgs) as Hlen.
  set (kept := filter (fun msg => negb (Py.startswith msg common_msg_prefix)) solve_msgs) in *.
  set (removed := filter (fun msg => Py.startswith msg common_msg_prefix) solve_msgs) in *.
  assert (Hn : Z.of_nat (length solve_msgs) - Z.of_nat (length kept)
               = Z.of_nat (length removed)) by lia.
  rewrite Hn. destruct removed as [|m removed'] eqn:R.
  - cbn [length Z.of_nat Z.eqb consolidated fst snd]. rewrite app_nil_r.
    split; [reflexivity|]. split; [|now rewrite length_map, Nat.add_0_r].
    rewrite <- (length_map (fun msg => (DEBUG, msg)) solve_msgs). apply firstn_all.
  - replace (Z.of_nat (length (m :: removed')) =? 0) with false
      by (symmetry; apply Z.eqb_neq; cbn [length]; lia).
    cbn [fst snd consolidated]. split; [reflexivity|]. split.
    + rewrite <- (length_map (fun msg => (DEBUG, msg)) solve_msgs) at 1.
      rewrite firstn_app, Nat.sub_diag, firstn_all. cbn [firstn]. apply app_nil_r.
    + rewrite length_app, length_map. reflexivity.
Qed.

End ObservationFacts.

(* ------------------------------------------------------------------------- *)

Module DecileClaimFacts.
Import Frame FrameFacts Accessibility AccessibilityFacts DecileClaim.



(** The weight joined in by ObjectID is the weight of the row. *)
Lemma weights_by_row i (P : Z -> bool) :
  NoDup (map dest_oid (destinations i)) ->
  map (weight_of i) (filter P (map dest_oid (destinations i))) =
  map (row_weight i) (filter (fun row => P (dest_oid row)) (destinations i)).
Proof.
  intros Hnd. rewrite filter_map_swap, map_map. apply map_ext_in.
  intros row Hrow. apply filter_In in Hrow. destruct Hrow as [Hrow _].
  unfold weight_of, row_weight, joined_weight.
  destruct (truthy (weight_field i)); [|reflexivity].
  now rewrite (find_dest _ _ Hnd Hrow).
Qed.

Lemma total_weight_spec i :
  NoDup (map dest_oid (destinations i)) -> (total_dests i == total_weight i)%Q.
Proof.
  intros Hnd. rewrite (total_dests_spec i Hnd). unfold total_weight.
  rewrite <- (PartitionFacts.filter_all (fun _ => true)
                (map dest_oid (destinations i))) by reflexivity.
  rewrite (weights_by_row i (fun _ => true) Hnd).
  rewrite PartitionFacts.filter_all by reflexivity. reflexivity.
Qed.

Lemma qualifying_weight_by_row i instant_of thr (P : Z -> bool) o :
  NoDup (map dest_oid (destinations i)) ->
  (forall t, Qle_bool thr (inject_Z t) = P t) ->
  qualifying_weight i instant_of thr o =
  weight_where i (fun d => P (reach_count i instant_of (o, d))).
Proof.
  intros Hnd HP. unfold qualifying_weight, qualifying, weight_where.
  rewrite (filter_ext _ (fun d => P (reach_count i instant_of (o, d))))
    by (intros d; apply HP).
  now rewrite (weights_by_row i (fun d => P (reach_count i instant_of (o, d))) Hnd).
Qed.




End DecileClaimFacts.

(* ------------------------------------------------------------------------- *)

Module FieldFacts.
Import Frame FrameFacts Accessibility AccessibilityFacts DecileClaim DecileClaimFacts.

Lemma reached_once_threshold t : (0 <? t) = Qle_bool 1 (inject_Z t).
Proof.
  destruct (0 <? t) eqn:E; symmetry.
  - apply Z.ltb_lt in E. apply Qle_bool_iff. unfold Qle. cbn. lia.
  - apply Z.ltb_ge in E. destruct (Qle_bool 1 (inject_Z t)) eqn:Q; [|reflexivity].
    apply Qle_bool_iff in Q. unfold Qle in Q. cbn in Q. lia.
Qed.

(** The fields [TotalDests] and [PercDests] written for an origin, whether
    [output_df] has a row for it or not. *)
Lemma total_row_fields i result o :
  let rows := with_weights i result in
  let index := unique Z.eqb (map OriginOID rows) in
  let code :=
    Qsum (map (weight_of i)
            (map (fun x => snd (fst x))
               (filter (fun x => (fst (fst x) =? o) && Qle_bool 1 (inject_Z (snd x)))
                       result))) in
  exists ps,
    field "TotalDests" (new_row i rows index o) = Some code /\
    field "PercDests" (new_row i rows index o) = Some ps /\
    (ps == 100 * code / total_dests i)%Q.
Proof.
  intros rows index code.
  assert (Hcode : fillna (aligned (weight_by_origin rows reached_once) o) = code).
  { rewrite column_value. unfold rows, reached_once, code.
    rewrite (code_sum i result (fun t => 0 <? t) o). do 3 f_equal.
    apply filter_ext. intros x. now rewrite reached_once_threshold. }
  unfold new_row. destruct (existsb (Z.eqb o) index) eqn:E.
  - assert (Hds : field "TotalDests" (output_row i rows o)
                  = Some (fillna (aligned (weight_by_origin rows reached_once) o)))
      by reflexivity.
    assert (Hps : field "PercDests" (output_row i rows o)
                  = Some (fillna (percentage (total_dests i)
                                    (aligned (weight_by_origin rows reached_once) o))))
      by reflexivity.
    rewrite Hcode in Hds. eexists. split; [exact Hds|]. split; [exact Hps|].
    rewrite fillna_percentage, Hcode. reflexivity.
  - assert (Hzero : code = 0%Q).
    { unfold code. rewrite PartitionFacts.filter_none; [reflexivity|].
      intros x Hx. destruct (Z.eqb_spec (fst (fst x)) o) as [Eo|]; [|reflexivity].
      exfalso. assert (Hin : In o index).
      { unfold index. apply (unique_In Z.eqb Z.eqb_eq). unfold rows.
        rewrite with_weights_origins, <- Eo.
        now apply (in_map (fun x => fst (fst x))). }
      assert (Hex : existsb (Z.eqb o) index = true).
      { apply existsb_exists. exists o. split; [assumption | apply Z.eqb_refl]. }
      congruence. }
    exists 0%Q. rewrite Hzero.
    split; [reflexivity|]. split; [reflexivity|]. unfold Qdiv. ring.
Qed.

(** X15: for well-formed result files and every origin of the Origins
    table, the field [TotalDests] written by the aggregator is the sum of
    the weights of the destinations the origin reaches at one departure
    instant at least, and, when the total destination weight is not 0,
    [PercDests] is 100 times that sum over the total destination weight. *)
Theorem total_dests_weighs_reached_destinations i instant_of oid :
  well_formed i instant_of ->
  od_line_files i <> [] -> In oid (origins i) ->
  exists out row total perc,
    _calculate_accessibility_matrix_outputs i = Some out /\
    In (oid, row) out /\
    field "TotalDests" row = Some total /\
    field "PercDests" row = Some perc /\
    (total == reached_weight i instant_of oid)%Q /\
    (~ (total_weight i == 0)%Q ->
     (perc == 100 * reached_weight i instant_of oid / total_weight i)%Q).
Proof.
  intros Hwf Hfiles Ho.
  destruct (combined_results_spec i Hfiles) as (r & Er & Hk & Hc).
  specialize (Hc (wf_lines i instant_of Hwf)).
  pose proof (total_row_fields i r oid) as Hrow. cbn zeta in Hrow.
  destruct Hrow as (ps & Hds & Hps & Eps).
  pose proof (Qsum_permutation _ _
    (Permutation_map (weight_of i)
       (qualifying_permutation i instant_of r oid 1%Q Hwf Hk Hc eq_refl))) as Hsum.
  fold (qualifying_weight i instant_of 1 oid) in Hsum.
  rewrite (qualifying_weight_by_row i instant_of 1 (fun t => 0 <? t) oid
             (wf_oids i instant_of Hwf)) in Hsum
    by (intros t; symmetry; apply reached_once_threshold).
  fold (reached_weight i instant_of oid) in Hsum.
  unfold _calculate_accessibility_matrix_outputs. rewrite Er.
  eexists. eexists. eexists. exists ps.
  split; [reflexivity|]. split.
  { apply in_map_iff. exists oid. split; [reflexivity | assumption]. }
  split; [exact Hds|]. split; [exact Hps|]. split; [exact Hsum|].
  intros _. rewrite Eps, Hsum, (total_weight_spec i (wf_oids i instant_of Hwf)).
  reflexivity.
Qed.

Lemma total_dests_weighs_reached_destinations_witness :
  let i :=
    mkInputs ["a"; "b"]%string
             (fun f => if (f =? "a")%string then [(1, 1); (1, 2)]
                       else if (f =? "b")%string then [(1, 1)] else [])
             None [mkDest 1 None; mkDest 2 None; mkDest 3 None] [0; 1] [1; 2] in
  let instant_of := fun f : string => if (f =? "a")%string then 0 else 1 in
  exists out row total perc,
    _calculate_accessibility_matrix_outputs i = Some out /\
    In (1, row) out /\
    field "TotalDests" row = Some total /\
    field "PercDests" row = Some perc /\
    (total == 2)%Q /\ (perc == 200 # 3)%Q.
Proof.
  intros i instant_of.
  destruct (total_dests_weighs_reached_destinations i instant_of 1)
    as (out & row & total & perc & Hout & Hin & Htot & Hperc & Et & Ep).
  - constructor; cbn [od_line_files read_csv destinations map dest_oid i].
    + repeat constructor; cbn; intuition discriminate.
    + intros f [<-|[<-|[]]]; cbn; repeat constructor; cbn; intuition discriminate.
    + intros f g p [<-|[<-|[]]] [<-|[<-|[]]]; cbn; intros; try reflexivity; discriminate.
    + intros f p [<-|[<-|[]]]; cbn; intros H; decompose [or] H; subst; cbn; auto;
        contradiction.
    + repeat constructor; cbn; intuition discriminate.
  - discriminate.
  - now left.
  - exists out, row, total, perc. split; [exact Hout|]. split; [exact Hin|].
    split; [exact Htot|]. split; [exact Hperc|].
    split; [rewrite Et; reflexivity|]. rewrite Ep by discriminate. reflexivity.
Defined.

Lemma weight_of_nonneg_rows i d :
  Forall (fun row => 0 <= row_weight i row)%Q (destinations i) -> (0 <= weight_of i d)%Q.
Proof.
  intros Hpos. unfold weight_of, row_weight in *.
  destruct (truthy (weight_field i)); [|discriminate].
  unfold joined_weight. destruct (find (dest_eqb d) (destinations i)) as [row|] eqn:E.
  - apply find_some in E. destruct E as [Hin _].
    rewrite Forall_forall in Hpos. now apply Hpos.
  - apply Qle_refl.
Qed.

(** X16: when the result files are well formed and every destination counts
    with a whole number that is not negative (always the case without a
    weight field), the total times 100 being at most 2^53, the fields of an
    origin are bounded: a decile count lies between 0 and [TotalDests],
    [TotalDests] is at most the total destination weight, and, when that
    total is positive, [PsAL{p}Perc] lies between 0 and [PercDests], which
    is at most 100. The two conditions on the weights are what makes the
    rationals stand for the doubles here: the sums and their products by
    100 are whole numbers below 2^53, which doubles hold exactly, and the
    rounded quotient of two of them keeps the order of the exact ones and
    does not pass 100. *)
Theorem fields_are_bounded i instant_of oid p :
  well_formed i instant_of ->
  Forall (fun row => exists n, 0 <= n /\ (row_weight i row == inject_Z n)%Q)
         (destinations i) ->
  (100 * total_weight i <= inject_Z (2 ^ 53))%Q ->
  od_line_files i <> [] -> start_times i <> [] ->
  In oid (origins i) -> In p Py.range_10_100_10 ->
  exists out row total perc ds ps,
    _calculate_accessibility_matrix_outputs i = Some out /\
    In (oid, row) out /\
    field "TotalDests" row = Some total /\ field "PercDests" row = Some perc /\
    field (total_field p) row = Some ds /\ field (perc_field p) row = Some ps /\
    (0 <= ds)%Q /\ (ds <= total)%Q /\ (total <= total_weight i)%Q /\
    ((0 < total_weight i)%Q ->
     (0 <= ps)%Q /\ (ps <= perc)%Q /\ (perc <= 100)%Q).
Proof.
  intros Hwf Hint _ Hfiles Hst Ho Hp.
  assert (Hpos : Forall (fun row => 0 <= row_weight i row)%Q (destinations i)).
  { eapply Forall_impl; [|exact Hint]. intros row (n & Hn & E). cbv beta.
    rewrite E. change 0%Q with (inject_Z 0). now rewrite <- Zle_Qle. }
  destruct (combined_results_spec i Hfiles) as (r & Er & Hk & Hc).
  specialize (Hc (wf_lines i instant_of Hwf)).
  pose proof (total_row_fields i r oid) as Hrow. cbn zeta in Hrow.
  destruct Hrow as (perc & Htot & Hperc & Eperc).
  pose proof (new_row_fields i r oid p Hp) as Hrow. cbn zeta in Hrow.
  destruct Hrow as (ps & Hds & Hps & Eps).
  assert (Hthr : (0 < threshold i p)%Q).
  { apply threshold_pos; [assumption|]. now apply range_bounds. }
  set (ds := Qsum (map (weight_of i) (map (fun x : Z * Z * Z => snd (fst x))
               (filter (fun x => (fst (fst x) =? oid)
                          && Qle_bool (threshold i p) (inject_Z (snd x))) r)))) in *.
  set (total := Qsum (map (weight_of i) (map (fun x : Z * Z * Z => snd (fst x))
               (filter (fun x => (fst (fst x) =? oid)
                          && Qle_bool 1 (inject_Z (snd x))) r)))) in *.
  assert (H0 : (0 <= ds)%Q).
  { unfold ds. apply Qsum_nonneg. rewrite Forall_map. apply Forall_forall.
    intros d _. now apply weight_of_nonneg_rows. }
  assert (H1 : (ds <= total)%Q).
  { unfold ds, total. rewrite !map_map. apply Qsum_filter_mono.
    - intros x Hx. apply andb_true_iff in Hx. destruct Hx as [Hx Ht].
      apply andb_true_iff. split; [assumption|].
      rewrite <- reached_once_threshold. apply Z.ltb_lt.
      exact (Qle_bool_pos _ _ Hthr Ht).
    - intros x _. now apply weight_of_nonneg_rows. }
  assert (H2 : (total <= total_weight i)%Q).
  { pose proof (Qsum_permutation _ _
      (Permutation_map (weight_of i)
         (qualifying_permutation i instant_of r oid 1%Q Hwf Hk Hc eq_refl))) as Hsum.
    fold total in Hsum. rewrite Hsum.
    rewrite <- (total_weight_spec i (wf_oids i instant_of Hwf)).
    rewrite (total_dests_spec i (wf_oids i instant_of Hwf)). unfold qualifying.
    rewrite <- (PartitionFacts.filter_all (fun _ => true)
                  (map dest_oid (destinations i))) at 2 by reflexivity.
    apply Qsum_filter_mono; [reflexivity|]. intros d _. now apply weight_of_nonneg_rows. }
  unfold _calculate_accessibility_matrix_outputs. rewrite Er.
  eexists. eexists. exists total, perc, ds, ps.
  split; [reflexivity|]. split.
  { apply in_map_iff. exists oid. split; [reflexivity | assumption]. }
  split; [exact Htot|]. split; [exact Hperc|]. split; [exact Hds|]. split; [exact Hps|].
  split; [exact H0|]. split; [exact H1|]. split; [exact H2|].
  intros HT. rewrite Eps, Eperc.
  rewrite <- (total_weight_spec i (wf_oids i instant_of Hwf)) in HT, H2.
  split; [|split].
  - apply Qle_shift_div_l; [assumption|]. rewrite Qmult_0_l.
    apply Qmult_le_0_compat; [discriminate | assumption].
  - unfold Qdiv. apply Qmult_le_compat_r.
    + apply Qmult_le_l; [reflexivity | assumption].
    + apply Qinv_le_0_compat. now apply Qlt_le_weak.
  - apply Qle_shift_div_r; [assumption|]. apply Qmult_le_l; [reflexivity | assumption].
Qed.

Lemma fields_are_bounded_witness :
  let i :=
    mkInputs ["a"; "b"]%string
             (fun f => if (f =? "a")%string then [(1, 1); (1, 2)]
                       else if (f =? "b")%string then [(1, 1)] else [])
             None [mkDest 1 None; mkDest 2 None; mkDest 3 None] [0; 1] [1; 2] in
  exists out row total perc ds ps,
    _calculate_accessibility_matrix_outputs i = Some out /\
    In (1, row) out /\
    field "TotalDests" row = Some total /\ field "PercDests" row = Some perc /\
    field (total_field 60) row = Some ds /\ field (perc_field 60) row = Some ps /\
    (0 <= ds)%Q /\ (ds <= total)%Q /\ (total <= total_weight i)%Q /\
    ((0 < total_weight i)%Q ->
     (0 <= ps)%Q /\ (ps <= perc)%Q /\ (perc <= 100)%Q).
Proof.
  apply (fields_are_bounded
           (mkInputs ["a"; "b"]%string
              (fun f => if (f =? "a")%string then [(1, 1); (1, 2)]
                        else if (f =? "b")%string then [(1, 1)] else [])
              None [mkDest 1 None; mkDest 2 None; mkDest 3 None] [0; 1] [1; 2])
           (fun f : string => if (f =? "a")%string then 0 else 1) 1 60).
  - constructor; cbn [od_line_files read_csv destinations map dest_oid].
    + repeat constructor; cbn; intuition discriminate.
    + intros f [<-|[<-|[]]]; cbn; repeat constructor; cbn; intuition discriminate.
    + intros f g p [<-|[<-|[]]] [<-|[<-|[]]]; cbn; intros; try reflexivity; discriminate.
    + intros f p [<-|[<-|[]]]; cbn; intros H; decompose [or] H; subst; cbn; auto;
        contradiction.
    + repeat constructor; cbn; intuition discriminate.
  - repeat (constructor; [exists 1; split; [lia | reflexivity]|]). constructor.
  - vm_compute. discriminate.
  - discriminate.
  - discriminate.
  - now left.
  - cbn. tauto.
Defined.

Lemma field_defined name : forall names (values : list Q),
  length values = length names -> In name names ->
  exists v, assoc String.eqb name (List.combine names values) = Some v.
Proof.
  induction names as [|n names IH]; intros [|v values] Hlen Hin;
    try destruct Hin; try discriminate Hlen.
  - subst n. exists v. cbn. now rewrite String.eqb_refl.
  - cbn [List.combine assoc]. destruct (String.eqb name n); [now exists v|].
    apply IH; [now injection Hlen | assumption].
Qed.

(** X17: when there is at least one result file the aggregator rewrites
    every row of the Origins table, in table order, and the row it writes
    has a value for each of the twenty statistic fields; with no result file
    it writes nothing. *)
Theorem every_origin_gets_every_field i :
  (od_line_files i = [] -> _calculate_accessibility_matrix_outputs i = None) /\
  (od_line_files i <> [] ->
   exists out,
     _calculate_accessibility_matrix_outputs i = Some out /\
     map fst out = origins i /\
     forall oid row name,
       In (oid, row) out -> In name field_names ->
       length row = 20%nat /\ exists v, field name row = Some v).
Proof.
  split.
  - intros E. unfold _calculate_accessibility_matrix_outputs, combined_results.
    now rewrite E.
  - intros Hfiles. destruct (combined_results_spec i Hfiles) as (r & Er & _ & _).
    unfold _calculate_accessibility_matrix_outputs. rewrite Er.
    eexists. split; [reflexivity|]. split.
    { rewrite map_map. cbn [fst]. apply map_id. }
    intros oid row name Hin Hname. apply in_map_iff in Hin.
    destruct Hin as (o & [= <- <-] & _).
    assert (Hlen : length (new_row i (with_weights i r)
                             (unique Z.eqb (map OriginOID (with_weights i r))) o)
                   = 20%nat).
    { unfold new_row. destruct (existsb _ _); [|now rewrite repeat_length].
      unfold output_row. rewrite length_map. reflexivity. }
    split; [exact Hlen|]. apply field_defined; [|assumption]. now rewrite Hlen.
Qed.

Lemma every_origin_gets_every_field_witness :
  let i :=
    mkInputs ["a"]%string (fun f => if (f =? "a")%string then [(1, 1)] else [])
             None [mkDest 1 None; mkDest 2 None] [0; 1] [1; 2] in
  exists out,
    _calculate_accessibility_matrix_outputs i = Some out /\ map fst out = [1; 2].
Proof.
  destruct (proj2 (every_origin_gets_every_field
                     (mkInputs ["a"]%string
                        (fun f => if (f =? "a")%string then [(1, 1)] else [])
                        None [mkDest 1 None; mkDest 2 None] [0; 1] [1; 2])))
    as (out & E & Hm & _); [discriminate|].
  exists out. split; [exact E | exact Hm].
Defined.

End FieldFacts.

(* ------------------------------------------------------------------------- *)

Module PipelineFacts.
Import Partition PartitionFacts ChunkUniverse Naming Pipeline.

Lemma before_NoDup : forall rs,
  StronglySorted before rs -> Forall (fun r => fst r <= snd r) rs -> NoDup rs.
Proof.
  induction 1 as [|r rs Hs IH Hf]; intros Hw; [constructor|].
  inversion Hw as [|? ? Hr Hw']; subst. constructor; [|now apply IH].
  intros Hin. rewrite Forall_forall in Hf. specialize (Hf r Hin).
  unfold before in Hf. lia.
Qed.

(** X19: for origins with ascending ObjectIDs none of which is 0 and an
    origin chunk size of at least 1, whichever chunks of the run were solved
    with success, the travel time aggregator, handed the sorted list of
    their result files and the origin ranges of the run, reads each of these
    files exactly once. *)
Theorem travel_time_reads_each_solved_chunk_once origins destinations weight_field
    max_origins max_destinations start_times strftime od_output_location read solved :
  1 <= max_origins -> ascending origins -> Forall (fun x => x <> 0) origins ->
  (forall t, TravelTime.has_sep (strftime t) = false) ->
  let u := build origins destinations weight_field max_origins max_destinations
                 start_times in
  incl solved (named_chunks strftime u) ->
  let files := sorted_result_files od_output_location solved in
  let i := TravelTime.mkInputs files read (origin_ranges u) in
  Permutation
    (reads (TravelTime.trace (TravelTime._calculate_travel_time_statistics_outputs i)))
    files.
Proof.
  intros Hm Ha Hz Ht u Hincl files i.
  assert (Hcur : SearchCursor origins (fun _ => true) = origins).
  { unfold SearchCursor. now apply filter_all. }
  pose proof (partition_correct origins max_origins Hm Ha Hz) as P. cbn zeta in P.
  destruct P as (Wo & So & _).
  assert (Hor : origin_ranges u = ranges_of_oids origins max_origins).
  { unfold u, build, _get_oid_ranges_for_input. cbn [origin_ranges]. now rewrite Hcur. }
  assert (Hnd : NoDup (origin_ranges u)).
  { rewrite Hor. now apply before_NoDup. }
  assert (Hperm : Permutation files (chunk_files od_output_location solved)).
  { apply PyFacts.sorted_perm. }
  unfold chunk_files in Hperm. apply Permutation_map_inv in Hperm.
  destruct Hperm as (solved' & Efiles & Hperm).
  change (files = chunk_files od_output_location solved') in Efiles.
  assert (Hin' : forall chunk, In chunk solved' ->
                 TravelTime.has_sep (snd chunk) = false /\ In (fst (fst chunk)) (origin_ranges u)).
  { intros chunk Hc. apply (Permutation_in _ (Permutation_sym Hperm)) in Hc.
    apply Hincl in Hc. unfold named_chunks in Hc. apply in_map_iff in Hc.
    destruct Hc as ([[o d] t] & <- & Hc). cbn [fst snd]. split; [apply Ht|].
    unfold u, build in Hc. cbn [chunks] in Hc.
    apply ChunkUniverseFacts.product_In in Hc. exact (proj1 Hc). }
  unfold i. rewrite Efiles.
  apply TravelTimeTraceFacts.reads_chunk_files.
  - apply Forall_forall. intros chunk Hc. exact (proj1 (Hin' chunk Hc)).
  - exact Hnd.
  - apply Forall_forall. intros chunk Hc. exact (proj2 (Hin' chunk Hc)).
Qed.

Lemma travel_time_reads_each_solved_chunk_once_witness :
  let u := build [1; 2; 3] [Accessibility.mkDest 1 None] None 2 5 [0; 30] in
  let solved := [((3, 3), (1, 1), "20220428_083000"%string);
                 ((1, 2), (1, 1), "20220428_080000"%string)] in
  let files := sorted_result_files "out" solved in
  let i := TravelTime.mkInputs files (fun _ => []) (origin_ranges u) in
  Permutation
    (reads (TravelTime.trace (TravelTime._calculate_travel_time_statistics_outputs i)))
    files.
Proof.
  apply (travel_time_reads_each_solved_chunk_once
           [1; 2; 3] [Accessibility.mkDest 1 None] None 2 5 [0; 30]
           (fun t : Z => ("20220428_08" ++ (if (t =? 0)%Z then "0000" else "3000"))%string)
           "out" (fun _ => [])
           [((3, 3), (1, 1), "20220428_083000"%string);
            ((1, 2), (1, 1), "20220428_080000"%string)]).
  - lia.
  - repeat constructor.
  - repeat constructor; discriminate.
  - intros t. destruct (t =? 0); reflexivity.
  - intros chunk [<-|[<-|[]]]; vm_compute; auto 10.
Defined.

End PipelineFacts.

